(** * DiskUtils: a verified model of [src/main/services/download/utils.ts]

    The module offers five helpers: [debounce], [getAvailableDiskSpace],
    [getDirectorySize], [formatBytes] and [parseSizeToBytes].  Each one is
    embedded below as a Rocq function, next to a model of the ECMAScript
    operations it calls (Number arithmetic, [toFixed], [parseFloat], [trim],
    [toLowerCase], the regular expression of the parser) and of the
    environment it talks to (console, timers, file system).

    Numbers are IEEE 754 binary64 values with their rounding; strings are
    sequences of code units; [console.warn] and [console.error] append to a
    log; a rejected promise is an exception; time is the clock of the event
    loop, in whole milliseconds. *)

From Stdlib Require Import ZArith QArith Qround Qpower Qabs Qreduction Qcanon.
From Stdlib Require Import List String Ascii Bool Lia Lqa Permutation.
From Equations Require Import Equations.
Import ListNotations.

Set Warnings "-register-all".

Local Close Scope Qc_scope.
Local Open Scope Q_scope.

(* ===================================================================== *)
(** ** ECMAScript Number values *)
(* ===================================================================== *)

Module JSNumber.

(** A Number is an IEEE 754 binary64 value.  Finite values are carried by
    the rational they denote; the two zeros are identified (no operation of
    the module observes the sign of zero). *)
Inductive number : Type :=
  | NaN : number
  | Inf (negative : bool) : number
  | Fin (q : Q) : number.

Definition pow2 (e : Z) : Q := 2 ^ e.

(** [ilog2 q] is the floor of the binary logarithm of a positive [q]. *)
Definition ilog2 (q : Q) : Z :=
  let l := (Z.log2 (Qnum q) - Z.log2 (Zpos (Qden q)))%Z in
  if Qle_bool (pow2 l) q then l else (l - 1)%Z.

(** Round to the nearest integer, ties to even. *)
Definition rne (x : Q) : Z :=
  let f := Qfloor x in
  match Qcompare (x - inject_Z f) (1 # 2) with
  | Lt => f
  | Gt => (f + 1)%Z
  | Eq => if Z.even f then f else (f + 1)%Z
  end.

(** Rounding of a positive real to binary64: 53 significant bits, least
    exponent -1074 (subnormals), overflow to Infinity from 2^1024 on. *)
Definition round_pos (q : Q) : number :=
  let e := Z.max (ilog2 q - 52) (-1074) in
  let v := inject_Z (rne (q / pow2 e)) * pow2 e in
  if Qle_bool (pow2 1024) v then Inf false else Fin (Qred v).

Definition neg (x : number) : number :=
  match x with
  | NaN => NaN
  | Inf s => Inf (negb s)
  | Fin q => Fin (Qred (- q))
  end.

Definition round64 (q : Q) : number :=
  match Qcompare q 0 with
  | Eq => Fin 0
  | Gt => round_pos q
  | Lt => neg (round_pos (- q))
  end.

(** The finite values of binary64. *)
Definition binary64 (q : Q) : Prop :=
  exists m e : Z,
    (Z.abs m < 2 ^ 53)%Z /\ (-1074 <= e <= 971)%Z /\ q == inject_Z m * pow2 e.

Definition of_Z (z : Z) : number := round64 (inject_Z z).
Definition of_N (n : N) : number := of_Z (Z.of_N n).

Definition Qsign_neg (q : Q) : bool :=
  match Qcompare q 0 with Lt => true | _ => false end.

Definition Qis_zero (q : Q) : bool :=
  match Qcompare q 0 with Eq => true | _ => false end.

(** [x + y] *)
Definition add (x y : number) : number :=
  match x, y with
  | NaN, _ | _, NaN => NaN
  | Inf s, Inf t => if Bool.eqb s t then Inf s else NaN
  | Inf s, Fin _ | Fin _, Inf s => Inf s
  | Fin a, Fin b => round64 (a + b)
  end.

(** [x * y] *)
Definition mul (x y : number) : number :=
  match x, y with
  | NaN, _ | _, NaN => NaN
  | Inf s, Inf t => Inf (xorb s t)
  | Inf s, Fin b | Fin b, Inf s =>
      if Qis_zero b then NaN else Inf (xorb s (Qsign_neg b))
  | Fin a, Fin b => round64 (a * b)
  end.

(** [x / y] *)
Definition div (x y : number) : number :=
  match x, y with
  | NaN, _ | _, NaN => NaN
  | Inf _, Inf _ => NaN
  | Inf s, Fin b => Inf (xorb s (Qsign_neg b))
  | Fin _, Inf _ => Fin 0
  | Fin a, Fin b =>
      if Qis_zero b
      then (if Qis_zero a then NaN else Inf (Qsign_neg a))
      else round64 (a / b)
  end.

(** [x >= y]: false as soon as one side is NaN. *)
Definition ge (x y : number) : bool :=
  match x, y with
  | NaN, _ | _, NaN => false
  | Inf s, Inf t => negb s || t
  | Inf s, Fin _ => negb s
  | Fin _, Inf t => t
  | Fin a, Fin b => Qle_bool b a
  end.

Definition isNaN (x : number) : bool :=
  match x with NaN => true | _ => false end.

End JSNumber.

Export JSNumber.

(* ===================================================================== *)
(** ** ECMAScript String values and the conversions between the two *)
(* ===================================================================== *)

Module JSString.

(** A String is a sequence of code units; the model covers the code units
    0..255 (Latin-1), carried by [ascii]. *)
Definition code (c : ascii) : N := N_of_ascii c.

Definition in_range (lo hi : N) (c : ascii) : bool :=
  (lo <=? code c)%N && (code c <=? hi)%N.

(** [\d] *)
Definition isDigit (c : ascii) : bool := in_range 48 57 c.

(** [\s], and the characters [trim] strips: TAB, LF, VT, FF, CR, SP, NBSP. *)
Definition isWhiteSpace (c : ascii) : bool :=
  in_range 9 13 c || (code c =? 32)%N || (code c =? 160)%N.

Definition lowerChar (c : ascii) : ascii :=
  if in_range 65 90 c || in_range 192 214 c || in_range 216 222 c
  then ascii_of_N (code c + 32)
  else c.

Definition toLowerCase (s : list ascii) : list ascii := map lowerChar s.

Fixpoint trimStart (s : list ascii) : list ascii :=
  match s with
  | c :: r => if isWhiteSpace c then trimStart r else s
  | [] => []
  end.

Definition trimEnd (s : list ascii) : list ascii := rev (trimStart (rev s)).

Definition trim (s : list ascii) : list ascii := trimEnd (trimStart s).

(** Longest prefix of [s] whose characters satisfy [p], and the rest. *)
Fixpoint span (p : ascii -> bool) (s : list ascii) : list ascii * list ascii :=
  match s with
  | c :: r => if p c then let (a, b) := span p r in (c :: a, b) else ([], s)
  | [] => ([], [])
  end.

(** *** Decimal digits *)

Definition digitChar (d : Z) : ascii := ascii_of_N (48 + Z.to_N d).

Definition digitVal (c : ascii) : Z := Z.of_N (code c) - 48.

Fixpoint digits_aux (fuel : nat) (n : Z) (acc : list ascii) : list ascii :=
  match fuel with
  | O => acc
  | S fuel' =>
      let acc' := digitChar (n mod 10) :: acc in
      if (n <? 10)%Z then acc' else digits_aux fuel' (n / 10) acc'
  end.

(** The decimal representation of a natural number, without leading zeros
    (["0"] for zero). *)
Definition digits (n : Z) : list ascii :=
  digits_aux (S (Z.to_nat (Z.log2 n))) n [].

(** The value of a string of decimal digits. *)
Definition digitsVal (s : list ascii) : Z :=
  fold_left (fun acc c => (10 * acc + digitVal c)%Z) s 0%Z.

Definition pow10 (k : Z) : Q := 10 ^ k.

(** *** Number::toString for values of at least 10^21

    The digits are the shortest decimal [s * 10^(n-k)] that reads back as
    [x], the closest to [x] when several of that length do; from 10^21 on
    the result is always in exponent notation. *)

Definition sameNumber (x y : number) : bool :=
  match x, y with
  | Fin a, Fin b => Qeq_bool a b
  | Inf s, Inf t => Bool.eqb s t
  | _, _ => false
  end.

Definition shortest_candidate (x : Q) (n k : Z) : option Z :=
  let scale := pow10 (n - k) in
  let lo := Qfloor (x / scale) in
  let ok s := sameNumber (round64 (inject_Z s * scale)) (round64 x) in
  let dist s := Qabs (inject_Z s * scale - x) in
  match ok lo, ok (lo + 1)%Z with
  | true, true =>
      match Qcompare (dist lo) (dist (lo + 1)%Z) with
      | Lt => Some lo
      | Gt => Some (lo + 1)%Z
      | Eq => Some (if Z.even lo then lo else (lo + 1)%Z)
      end
  | true, false => Some lo
  | false, true => Some (lo + 1)%Z
  | false, false => None
  end.

Fixpoint shortest_digits (fuel : nat) (x : Q) (n k : Z) : Z * Z :=
  match fuel with
  | O => (Qfloor x, n)
  | S fuel' =>
      match shortest_candidate x n k with
      | Some s => (s, k)
      | None => shortest_digits fuel' x n (k + 1)
      end
  end.

Definition exponential (s n : Z) : list ascii :=
  let e := list_ascii_of_string "e+" ++ digits (n - 1) in
  match digits s with
  | d :: [] => d :: e
  | d :: ds => d :: "."%char :: ds ++ e
  | [] => e
  end.

Definition numberToString_large (x : Q) : list ascii :=
  let n := Z.of_nat (List.length (digits (Qfloor x))) in
  let (s, k) := shortest_digits (Z.to_nat n) x n 1 in
  if Qeq_bool (inject_Z s) (pow10 k) then exponential 1 (n + 1) else exponential s n.

(** *** Number.prototype.toFixed *)

Fixpoint zeros (k : nat) : list ascii :=
  match k with O => [] | S k' => "0"%char :: zeros k' end.

(** Steps 9-12 of the algorithm, on a non-negative real [x]. *)
Definition toFixed_abs (x : Q) (f : nat) : list ascii :=
  if Qle_bool (pow10 21) x then numberToString_large x
  else
    let n := Qfloor (x * pow10 (Z.of_nat f) + (1 # 2)) in
    let m := if (n =? 0)%Z then ["0"%char] else digits n in
    match f with
    | O => m
    | S _ =>
        let m' := if (List.length m <=? f)%nat
                  then zeros (f + 1 - List.length m) ++ m else m in
        let k := List.length m' in
        firstn (k - f) m' ++ "."%char :: skipn (k - f) m'
    end.

Definition toFixed (x : number) (fractionDigits : nat) : string :=
  match x with
  | NaN => "NaN"
  | Inf false => "Infinity"
  | Inf true => "-Infinity"
  | Fin q =>
      string_of_list_ascii
        (if Qsign_neg q
         then "-"%char :: toFixed_abs (- q) fractionDigits
         else toFixed_abs q fractionDigits)
  end.

(** *** parseFloat

    The longest prefix that is a StrDecimalLiteral, after leading white
    space: an optional sign, then [Infinity] or decimal digits with an
    optional fraction and an optional exponent. *)

Fixpoint startsWith (p s : list ascii) : bool :=
  match p, s with
  | [], _ => true
  | a :: p', b :: s' => Ascii.eqb a b && startsWith p' s'
  | _ :: _, [] => false
  end.

Definition parseExponent (s : list ascii) : Z :=
  match s with
  | c :: r =>
      if Ascii.eqb c "e" || Ascii.eqb c "E" then
        let (sgn, r') :=
          match r with
          | "+"%char :: t => (1%Z, t)
          | "-"%char :: t => ((-1)%Z, t)
          | _ => (1%Z, r)
          end in
        let (ds, _) := span isDigit r' in
        match ds with
        | [] => 0%Z
        | _ => (sgn * digitsVal ds)%Z
        end
      else 0%Z
  | [] => 0%Z
  end.

Definition parseUnsigned (s : list ascii) : option Q :=
  let (ip, r) := span isDigit s in
  let (fp, r') :=
    match r with
    | "."%char :: t => span isDigit t
    | _ => ([], r)
    end in
  match ip, fp with
  | [], [] => None
  | _, _ =>
      let mant := inject_Z (digitsVal (ip ++ fp)) / pow10 (Z.of_nat (List.length fp)) in
      Some (mant * pow10 (parseExponent r'))
  end.

Definition parseFloat (s : list ascii) : number :=
  let t := trimStart s in
  let (negative, u) :=
    match t with
    | "+"%char :: r => (false, r)
    | "-"%char :: r => (true, r)
    | _ => (false, t)
    end in
  if startsWith (list_ascii_of_string "Infinity") u then Inf negative
  else
    match parseUnsigned u with
    | None => NaN
    | Some q => if negative then neg (round64 q) else round64 q
    end.

End JSString.

Export JSString.

(* ===================================================================== *)
(** ** Effects: the console and exceptions *)
(* ===================================================================== *)

Module Effects.

Local Open Scope string_scope.

(** A rejected file-system call carries a system error code. *)
Record error : Type := { errcode : string }.

Inductive log_level : Type := LogWarn | LogError.

(** One call of [console.warn] or [console.error]: the message and, when a
    second argument is passed, the error object printed after it. *)
Record log_entry : Type :=
  { level : log_level; text : string; cause : option error }.

Inductive completion (A : Type) : Type :=
  | Normal (a : A)
  | Throw (e : error).
Arguments Normal {A} a.
Arguments Throw {A} e.

(** A computation yields the lines it logged, in order, and how it ended. *)
Definition Eff (A : Type) : Type := list log_entry * completion A.

Definition ret {A} (a : A) : Eff A := ([], Normal a).

Definition throw {A} (e : error) : Eff A := ([], Throw e).

Definition bind {A B} (m : Eff A) (k : A -> Eff B) : Eff B :=
  match m with
  | (l, Normal a) => let (l', r) := k a in ((l ++ l')%list, r)
  | (l, Throw e) => (l, Throw e)
  end.

Definition try_catch {A} (m : Eff A) (handler : error -> Eff A) : Eff A :=
  match m with
  | (l, Throw e) => let (l', r) := handler e in ((l ++ l')%list, r)
  | _ => m
  end.

Definition console_warn (msg : string) (e : option error) : Eff unit :=
  ([ {| level := LogWarn; text := msg; cause := e |} ], Normal tt).

Definition console_error (msg : string) (e : option error) : Eff unit :=
  ([ {| level := LogError; text := msg; cause := e |} ], Normal tt).

(** The outcome of awaiting a promise of the platform. *)
Definition await {A} (r : error + A) : Eff A :=
  match r with
  | inr a => ret a
  | inl e => throw e
  end.

Definition logs {A} (m : Eff A) : list log_entry := fst m.
Definition outcome {A} (m : Eff A) : completion A := snd m.

End Effects.

Export Effects.

Declare Scope eff_scope.
Delimit Scope eff_scope with eff.
Notation "x <- m ;; k" := (bind m (fun x => k))
  (at level 61, m at next level, right associativity) : eff_scope.
Notation "m ;;; k" := (bind m (fun _ => k))
  (at level 61, right associativity) : eff_scope.

(* ===================================================================== *)
(** ** The functions of [utils.ts] *)
(* ===================================================================== *)

Module DiskUtils.

Local Open Scope string_scope.
Local Open Scope eff_scope.

(** *** formatBytes *)

Definition units : list string := ["B"; "KB"; "MB"; "GB"; "TB"].

(** The two variables the loop of [formatBytes] updates. *)
Record scaling : Type := { size : number; unitIndex : nat }.

(** [size >= 1024 && unitIndex < units.length - 1] *)
Definition guard (st : scaling) : bool :=
  ge (size st) (Fin 1024) && (unitIndex st <? List.length units - 1)%nat.

(** [size /= 1024; unitIndex++] *)
Definition body (st : scaling) : scaling :=
  {| size := div (size st) (Fin 1024); unitIndex := S (unitIndex st) |}.

Definition inspect {A} (a : A) : {b | a = b} := exist _ a eq_refl.

(** The [while] loop; the distance of [unitIndex] to the last index
    decreases at every iteration. *)
Equations? scale_loop (st : scaling) : scaling
  by wf (List.length units - 1 - unitIndex st)%nat lt :=
  scale_loop st with inspect (guard st) := {
    | exist _ true _ => scale_loop (body st)
    | exist _ false _ => st }.
Proof.
  unfold guard in e. apply andb_prop in e. destruct e as [_ e].
  apply Nat.ltb_lt in e. clear scale_loop.
  destruct (unitIndex st) as [|[|[|[|?]]]]; simpl in *; lia.
Qed.

Definition formatBytes (bytes : number) : string :=
  let st := scale_loop {| size := bytes; unitIndex := 0 |} in
  toFixed (size st) 1 ++ " " ++ nth (unitIndex st) units "undefined".

(** *** parseSizeToBytes *)

(** The values a caller can pass at run time, whatever the declared type:
    the guard of [parseSizeToBytes] only tells the strings from the rest. *)
Inductive value : Type :=
  | VUndefined
  | VNull
  | VBoolean (b : bool)
  | VNumber (n : number)
  | VString (s : string)
  | VObject.

Definition typeof (v : value) : string :=
  match v with
  | VUndefined => "undefined"
  | VNull => "object"
  | VBoolean _ => "boolean"
  | VNumber _ => "number"
  | VString _ => "string"
  | VObject => "object"
  end.

(** ToBoolean *)
Definition truthy (v : value) : bool :=
  match v with
  | VUndefined | VNull => false
  | VBoolean b => b
  | VNumber NaN => false
  | VNumber (Fin q) => negb (Qis_zero q)
  | VNumber (Inf _) => true
  | VString s => negb (String.eqb s "")
  | VObject => true
  end.

Definition chars (s : string) : list ascii := list_ascii_of_string s.

(** [[\d.]] *)
Definition isNumChar (c : ascii) : bool := isDigit c || Ascii.eqb c ".".

Definition unitTokens : list (list ascii) :=
  [chars "mb"; chars "gb"; chars "kb"; chars "b"].

Definition list_ascii_eqb (a b : list ascii) : bool :=
  String.eqb (string_of_list_ascii a) (string_of_list_ascii b).

(** [/^([\d.]+)\s*(mb|gb|kb|b)$/]: the two captured groups, or [None] when
    the string does not match.  The three character sets are disjoint, so
    the greedy split is the only one. *)
Definition match_size (s : list ascii) : option (list ascii * list ascii) :=
  let (numStr, r) := span isNumChar s in
  match numStr with
  | [] => None
  | _ :: _ =>
      let (_, unit) := span isWhiteSpace r in
      if existsb (list_ascii_eqb unit) unitTokens
      then Some (numStr, unit)
      else None
  end.

Definition dquote : string := String (ascii_of_nat 34) "".

Definition parseSizeToBytes (sizeString : value) : Eff number :=
  if negb (truthy sizeString) || negb (String.eqb (typeof sizeString) "string")
  then ret (Fin 0)
  else
    match sizeString with
    | VString str =>
        let trimmed := toLowerCase (trim (chars str)) in
        match match_size trimmed with
        | None =>
            console_warn
              ("[Utils] Could not parse size string: " ++ dquote ++ str ++ dquote)
              None ;;;
            ret (Fin 0)
        | Some (numStr, unit) =>
            let num := parseFloat numStr in
            if isNaN num then
              console_warn
                ("[Utils] Invalid number in size string: " ++ dquote ++ str ++ dquote)
                None ;;;
              ret (Fin 0)
            else if list_ascii_eqb unit (chars "b") then ret num
            else if list_ascii_eqb unit (chars "kb") then
              ret (mul num (Fin 1024))
            else if list_ascii_eqb unit (chars "mb") then
              ret (mul (mul num (Fin 1024)) (Fin 1024))
            else if list_ascii_eqb unit (chars "gb") then
              ret (mul (mul (mul num (Fin 1024)) (Fin 1024)) (Fin 1024))
            else
              console_warn
                ("[Utils] Unknown unit in size string: " ++ dquote ++ str ++ dquote)
                None ;;;
              ret (Fin 0)
        end
    | _ => ret (Fin 0)
    end.

(** *** The file system seen by [getAvailableDiskSpace] and [getDirectorySize] *)

(** What the operating system reports for a mounted file system. *)
Record statfs_t : Type := { f_bavail : N; f_bsize : N }.

(** The StatFs object of the platform: the counters as Numbers. *)
Record StatFs : Type := { bavail : number; bsize : number }.

Definition toStatFs (s : statfs_t) : StatFs :=
  {| bavail := of_N (f_bavail s); bsize := of_N (f_bsize s) |}.

(** What a path leads to.  The tree is the state of the file system during
    one traversal. *)
Inductive fsnode : Type :=
  | Directory (entries : list (string * fsnode))
  | Unlistable (e : error)   (* no directory can be listed here: the path is
                                missing, access is denied, ... *)
  | RegularFile (bytes : N)
  | Unreadable (e : error)   (* a regular file whose status cannot be read *)
  | Special.                 (* symbolic link, device, socket, FIFO *)

Definition ENOTDIR : error := {| errcode := "ENOTDIR" |}.

(** [fs.readdir(path, { withFileTypes: true })] *)
Definition readdir (node : fsnode) : error + list (string * fsnode) :=
  match node with
  | Directory entries => inr entries
  | Unlistable e => inl e
  | RegularFile _ | Unreadable _ | Special => inl ENOTDIR
  end.

(** [item.isDirectory()] and [item.isFile()] of a directory entry *)
Definition isDirectory (node : fsnode) : bool :=
  match node with
  | Directory _ | Unlistable _ => true
  | _ => false
  end.

Definition isFile (node : fsnode) : bool :=
  match node with
  | RegularFile _ | Unreadable _ => true
  | _ => false
  end.

Record Stats : Type := { stats_size : number }.

(** [fs.stat(path)].  The module only asks for the status of entries that
    are regular files; the answer for the other kinds is never looked at. *)
Definition stat (node : fsnode) : error + Stats :=
  match node with
  | RegularFile bytes => inr {| stats_size := of_N bytes |}
  | Unreadable e => inl e
  | Directory _ | Unlistable _ | Special => inr {| stats_size := Fin 0 |}
  end.

Section FileSystem.

(** [path.join]; the paths only appear in the messages logged. *)
Variable join : string -> string -> string.

(** [fs.statfs]: the answer of the operating system for each path. *)
Variable statfs : string -> error + statfs_t.

Definition getAvailableDiskSpace (path : string) : Eff (option number) :=
  try_catch
    (stats <- await (match statfs path with
                     | inr s => inr (toStatFs s)
                     | inl e => inl e
                     end) ;;
     ret (Some (mul (bavail stats) (bsize stats))))
    (fun error =>
       console_error ("[DiskSpace] Error checking disk space for " ++ path ++ ":")
         (Some error) ;;;
       ret None).

(** Statements over the local variable [totalSize] of [getDirectorySize]:
    a statement takes the value of the variable, and yields its value when
    the statement is left, normally or by an exception. *)
Definition stmt : Type := number -> number * Eff unit.

Definition skip : stmt := fun totalSize => (totalSize, ret tt).

Definition seq (s1 s2 : stmt) : stmt :=
  fun totalSize =>
    match s1 totalSize with
    | (t, (l, Normal _)) =>
        let '(t', (l', c)) := s2 t in (t', ((l ++ l')%list, c))
    | (t, (l, Throw e)) => (t, (l, Throw e))
    end.

(** [for (const item of items) body] *)
Definition for_of {A} (body : A -> stmt) : list A -> stmt :=
  fix iterate (items : list A) : stmt :=
    match items with
    | [] => skip
    | item :: rest => seq (body item) (iterate rest)
    end.

(** [totalSize += await m] *)
Definition add_await (m : Eff number) : stmt :=
  fun totalSize =>
    match m with
    | (l, Normal v) => (add totalSize v, (l, Normal tt))
    | (l, Throw e) => (totalSize, (l, Throw e))
    end.

(** An expression statement that leaves the variable alone. *)
Definition exec (m : Eff unit) : stmt := fun totalSize => (totalSize, m).

(** [try s catch (e) handler] *)
Definition try_stmt (s : stmt) (handler : error -> stmt) : stmt :=
  fun totalSize =>
    match s totalSize with
    | (t, (l, Throw e)) =>
        let '(t', (l', c)) := handler e t in (t', ((l ++ l')%list, c))
    | r => r
    end.

(** [let totalSize = 0; s; return totalSize] *)
Definition returning_totalSize (s : stmt) : Eff number :=
  let '(totalSize, (l, c)) := s (Fin 0) in
  match c with
  | Normal _ => (l, Normal totalSize)
  | Throw e => (l, Throw e)
  end.

Definition visit (recur : string -> fsnode -> Eff number) (dirPath : string)
  (entry : string * fsnode) : stmt :=
  let (name, item) := entry in
  let itemPath := join dirPath name in
  if isDirectory item then add_await (recur itemPath item)
  else if isFile item then
    try_stmt
      (add_await (stats <- await (stat item) ;; ret (stats_size stats)))
      (fun statError =>
         exec (console_warn
                 ("[DiskSpace] Could not get size for " ++ itemPath ++ ":")
                 (Some statError)))
  else skip.

Definition on_error (dirPath : string) (error : error) : stmt :=
  exec (console_error
          ("[DiskSpace] Error calculating directory size for " ++ dirPath ++ ":")
          (Some error)).

(** [readdir] resolves on a [Directory], with its entries, and rejects on
    every other node; the two cases are separated here so that the
    recursion is structural (see [getDirectorySize_unfold]). *)
Fixpoint getDirectorySize (dirPath : string) (node : fsnode) : Eff number :=
  returning_totalSize
    (try_stmt
       match node with
       | Directory items => for_of (visit getDirectorySize dirPath) items
       | _ => exec (_ <- await (readdir node) ;; ret tt)
       end
       (on_error dirPath)).

End FileSystem.

(** *** debounce *)

(** The timers of the event loop, on the clock of the loop, in whole
    milliseconds.  [setTimeout] takes a delay from 1 to [TIMEOUT_MAX] as
    it is and replaces every other delay by 1; the timer is due that many
    milliseconds after the instant at which it is set, and the loop runs
    it at that instant.  The callback of a debounced wrapper is
    [() => func(...args)]: running it delivers [args] to [func], which the
    model records with the instant.  [wait] is a whole number of
    milliseconds. *)

Definition TIMEOUT_MAX : Z := (2 ^ 31 - 1)%Z.

(** The delay a timer is set with. *)
Definition timer_delay (delay : Z) : Z :=
  if ((1 <=? delay)%Z && (delay <=? TIMEOUT_MAX)%Z)%bool then delay else 1%Z.

Section Debounce.

Variable Args : Type.

Record timer : Type := { handle : nat; due : Z; timer_args : Args }.

Record event_loop : Type :=
  { now : Z;
    pending : list timer;
    next_handle : nat;
    delivered : list (Z * Args) }.

Definition start : event_loop :=
  {| now := 0; pending := []; next_handle := 1; delivered := [] |}.

Definition setTimeout (args : Args) (wait : Z) (el : event_loop)
  : event_loop * nat :=
  let h := next_handle el in
  ({| now := now el;
      pending := (pending el ++ [ {| handle := h; due := now el + timer_delay wait;
                                     timer_args := args |} ])%list;
      next_handle := S h;
      delivered := delivered el |}, h).

Definition clearTimeout (h : nat) (el : event_loop) : event_loop :=
  {| now := now el;
     pending := filter (fun t => negb (Nat.eqb (handle t) h)) (pending el);
     next_handle := next_handle el;
     delivered := delivered el |}.

(** The timer to run next: the earliest due, the oldest among equals. *)
Fixpoint earliest (ts : list timer) : option timer :=
  match ts with
  | [] => None
  | t :: r =>
      match earliest r with
      | Some u => if (due u <? due t)%Z then Some u else Some t
      | None => Some t
      end
  end.

Definition run_timer (t : timer) (el : event_loop) : event_loop :=
  let at_time := Z.max (now el) (due t) in
  {| now := at_time;
     pending := filter (fun u => negb (Nat.eqb (handle u) (handle t))) (pending el);
     next_handle := next_handle el;
     delivered := (delivered el ++ [(at_time, timer_args t)])%list |}.

Fixpoint run_due (fuel : nat) (t : Z) (el : event_loop) : event_loop :=
  match fuel with
  | O => el
  | S fuel' =>
      match earliest (pending el) with
      | Some tm => if (due tm <=? t)%Z then run_due fuel' t (run_timer tm el) else el
      | None => el
      end
  end.

(** Let the clock reach [t]: every timer due before [t] runs, and the
    timers due at [t] run as well when [inclusive]. *)
Definition advance (t : Z) (inclusive : bool) (el : event_loop) : event_loop :=
  let el' := run_due (List.length (pending el))
               (if inclusive then t else (t - 1)%Z) el in
  {| now := Z.max (now el') t;
     pending := pending el';
     next_handle := next_handle el';
     delivered := delivered el' |}.

(** Let every pending timer run. *)
Definition drain (el : event_loop) : event_loop :=
  run_due (List.length (pending el)) (fold_right Z.max (now el) (map due (pending el))) el.

(** The variable [timeout] captured by one wrapper. *)
Record debounced : Type := { timeout : option nat }.

(** [debounce(func, wait)]: a fresh wrapper. *)
Definition debounce (wait : Z) : debounced := {| timeout := None |}.

(** One call of the wrapper with [args]. *)
Definition call (wait : Z) (args : Args) (st : debounced * event_loop)
  : debounced * event_loop :=
  let (w, el) := st in
  let el1 := match timeout w with
             | Some h => clearTimeout h el
             | None => el
             end in
  let (el2, h) := setTimeout args wait el1 in
  ({| timeout := Some h |}, el2).

(** One call of the wrapper as the program makes it, from a task of the
    loop: the instant the clock shows, the arguments passed, and where the
    task stands among the timers due at that very instant, after them
    ([after_due]) or before them.  The loop runs every timer at the
    instant it is due and a task takes no time on this clock: the timers
    due earlier have run, and a timer set at an instant is due later, so
    none runs between two calls that one task makes. *)
Record invocation : Type := { at_time : Z; after_due : bool; passed : Args }.

(** A run of the program: the wrapper is called as the list says, then the
    loop comes to rest. *)
Definition run_calls (wait : Z) (calls : list invocation)
  (st : debounced * event_loop) : debounced * event_loop :=
  fold_left
    (fun st c =>
       call wait (passed c) (fst st, advance (at_time c) (after_due c) (snd st)))
    calls st.

Definition debounce_trace (wait : Z) (calls : list invocation) : list (Z * Args) :=
  delivered (drain (snd (run_calls wait calls (debounce wait, start)))).

End Debounce.

Arguments handle {Args} t.
Arguments due {Args} t.
Arguments timer_args {Args} t.
Arguments now {Args} e.
Arguments pending {Args} e.
Arguments next_handle {Args} e.
Arguments delivered {Args} e.
Arguments start {Args}.
Arguments setTimeout {Args} args wait el.
Arguments clearTimeout {Args} h el.
Arguments earliest {Args} ts.
Arguments run_timer {Args} t el.
Arguments run_due {Args} fuel t el.
Arguments advance {Args} t inclusive el.
Arguments drain {Args} el.
Arguments call {Args} wait args st.
Arguments at_time {Args} i.
Arguments after_due {Args} i.
Arguments passed {Args} i.
Arguments run_calls {Args} wait calls st.
Arguments debounce_trace {Args} wait calls.

End DiskUtils.

Export DiskUtils.

(* ===================================================================== *)
(** ** Specification-level definitions *)
(* ===================================================================== *)

(** *** Byte counts and their rendering *)

Definition Qpow1024 (k : nat) : Q := 1024 ^ Z.of_nat k.

Definition unit_of (i : nat) : string := nth i units "undefined"%string.

(** [i] is the largest unit index, TB at most, at which [b] still counts
    one unit or more. *)
Definition largest_unit_reaching_one (b : Q) (i : nat) : Prop :=
  (i <= 4)%nat /\ 1 <= b / Qpow1024 i /\
  forall j, (j <= 4)%nat -> 1 <= b / Qpow1024 j -> (j <= i)%nat.

(** The nearest number of tenths, the upper one on a tie. *)
Definition half_up_tenths (x : Q) : Z := Qfloor (x * 10 + (1 # 2)).

(** A non-negative value with exactly one digit after the point. *)
Definition render1 (x : Q) : string :=
  let n := half_up_tenths x in
  string_of_list_ascii (digits (n / 10) ++ "."%char :: [digitChar (n mod 10)]).

Definition render1_signed (q : Q) : string :=
  if Qsign_neg q then ("-" ++ render1 (- q))%string else render1 q.

Definition all_digits (s : list ascii) : bool :=
  negb (Nat.eqb (List.length s) 0) && forallb isDigit s.

Definition strip_sign (s : list ascii) : list ascii :=
  match s with
  | c :: t => if Ascii.eqb c "-" then t else s
  | [] => []
  end.

(** [-?\d+\.\d]: an optional sign, an integer part, a point, one digit. *)
Definition one_decimal_format (s : string) : bool :=
  match rev (list_ascii_of_string s) with
  | d :: p :: ip =>
      isDigit d && Ascii.eqb p "." && all_digits (strip_sign (rev ip))
  | _ => false
  end.

(** [iterates k st st']: from [st] the loop of [formatBytes] runs its body
    [k] times and stops in [st']. *)
Inductive iterates : nat -> scaling -> scaling -> Prop :=
  | iterates_exit st : guard st = false -> iterates 0 st st
  | iterates_step k st st' :
      guard st = true -> iterates k (body st) st' -> iterates (S k) st st'.

(** The result of [formatBytes] as the specification words it: the largest
    unit that reaches 1, and one digit after the point. *)
Definition formatBytes_as_specified (b : Q) : Prop :=
  exists i,
    largest_unit_reaching_one b i /\
    formatBytes (Fin b) = (render1 (b / Qpow1024 i) ++ " " ++ unit_of i)%string.

(** The result on an input below 1024 as the specification words it: one
    digit after the point, then the unit B. *)
Definition formatBytes_small_as_specified (x : number) : Prop :=
  exists v, formatBytes x = (v ++ " B")%string /\ one_decimal_format v = true.

(** *** Size strings *)

(** What the regular expression of the parser accepts: group 1 is [numStr],
    group 2 is [unit]. *)
Definition size_pattern (t numStr unit : list ascii) : Prop :=
  numStr <> [] /\ forallb isNumChar numStr = true /\ In unit unitTokens
  /\ exists ws, forallb isWhiteSpace ws = true /\ t = numStr ++ ws ++ unit.

(** A decimal numeral: an integer part and a fraction part, not both
    empty, around an optional point. *)
Definition decimal_numeral (s ip fp : list ascii) : Prop :=
  forallb isDigit ip = true /\ forallb isDigit fp = true
  /\ (ip <> [] \/ fp <> [])
  /\ ((s = ip /\ fp = []) \/ s = ip ++ "."%char :: fp).

(** Its value: the digits read as one integer, scaled by the number of
    fraction digits. *)
Definition numeral_value (ip fp : list ascii) : Q :=
  inject_Z (digitsVal (ip ++ fp)) / pow10 (Z.of_nat (List.length fp)).

(** Bytes per unit. *)
Definition multiplier (unit : list ascii) : Q :=
  if list_ascii_eqb unit (chars "kb") then 1024
  else if list_ascii_eqb unit (chars "mb") then 1024 * 1024
  else if list_ascii_eqb unit (chars "gb") then 1024 * 1024 * 1024
  else 1.

(** A Number that is not negative: +Infinity or a finite value from 0 up. *)
Definition nonnegative (x : number) : Prop :=
  x = Inf false \/ exists r, x = Fin r /\ 0 <= r /\ binary64 r /\ Qred r = r.

(** [r * 1024^k] as a Number: the exact product, or +Infinity beyond the
    range of the format. *)
Definition scaled (r : Q) (k : nat) : number :=
  if Qle_bool (pow2 1024) (r * Qpow1024 k) then Inf false
  else Fin (Qred (r * Qpow1024 k)).

Definition warning (msg : string) : log_entry :=
  {| level := LogWarn; text := msg; cause := None |}.

Definition could_not_parse (str : string) : log_entry :=
  warning ("[Utils] Could not parse size string: " ++ dquote ++ str ++ dquote)%string.

Definition invalid_number (str : string) : log_entry :=
  warning ("[Utils] Invalid number in size string: " ++ dquote ++ str ++ dquote)%string.

(** The conversion of the [switch], once the pattern has matched. *)
Definition convert (num : number) (unit : list ascii) : number :=
  mul num (Fin (multiplier unit)).

(** The call logs a warning. *)
Definition warns (v : value) : Prop :=
  exists e, In e (logs (parseSizeToBytes v)) /\ level e = LogWarn.

(** *** Directory trees *)

(** The bytes the traversal can count at or under a node: the sizes of the
    regular files whose status can be read, in the directories that can be
    listed.  A regular file whose status cannot be read, a directory that
    cannot be listed (with whatever lies under it) and an entry that is
    neither a directory nor a regular file count for nothing. *)
Fixpoint files_total (node : fsnode) : N :=
  match node with
  | Directory items =>
      fold_right (fun entry acc => (files_total (snd entry) + acc)%N) 0%N items
  | RegularFile bytes => bytes
  | Unlistable _ | Unreadable _ | Special => 0%N
  end.

(** The size of the directory at a path: nothing when no directory can be
    listed there. *)
Definition directory_total (node : fsnode) : N :=
  match node with
  | Directory _ => files_total node
  | _ => 0%N
  end.

(** Two states of a tree that differ in the order in which directories
    list their entries. *)
Inductive reorder : fsnode -> fsnode -> Prop :=
  | reorder_refl node : reorder node node
  | reorder_listing items items' :
      Permutation items items' -> reorder (Directory items) (Directory items')
  | reorder_entry pre name item item' post :
      reorder item item' ->
      reorder (Directory (pre ++ (name, item) :: post))
              (Directory (pre ++ (name, item') :: post))
  | reorder_trans n1 n2 n3 : reorder n1 n2 -> reorder n2 n3 -> reorder n1 n3.

(** The result is the exact total, as long as it fits in 53 bits. *)
Definition exact_size (join : string -> string -> string) (node : fsnode) : Prop :=
  forall dirPath,
    (directory_total node <= 2 ^ 53)%N ->
    exists l, getDirectorySize join dirPath node
              = (l, Normal (Fin (inject_Z (Z.of_N (directory_total node))))).

(** What a statement leaves behind, the console apart. *)
Definition observe (r : number * Eff unit) : number * completion unit :=
  (fst r, snd (snd r)).

(** A plain [path.join], for the examples. *)
Definition posix_join (a b : string) : string := (a ++ "/" ++ b)%string.

Definition ENOENT : error := {| errcode := "ENOENT" |}.

(** One listing in two orders, with a file of 2^53 bytes. *)
Definition big_first : list (string * fsnode) :=
  [("a"%string, RegularFile (2 ^ 53)); ("b"%string, RegularFile 1);
   ("c"%string, RegularFile 1)].

Definition big_last : list (string * fsnode) :=
  [("b"%string, RegularFile 1); ("c"%string, RegularFile 1);
   ("a"%string, RegularFile (2 ^ 53))].

(** Induction on a tree, with the hypothesis on every entry of a
    directory. *)
Section Induction.

Variable P : fsnode -> Prop.
Hypothesis HDir : forall items, Forall (fun e => P (snd e)) items -> P (Directory items).
Hypothesis HUnl : forall e, P (Unlistable e).
Hypothesis HReg : forall n, P (RegularFile n).
Hypothesis HUnr : forall e, P (Unreadable e).
Hypothesis HSpe : P Special.

Fixpoint fsnode_nested_ind (node : fsnode) : P node :=
  match node with
  | Directory items =>
      HDir items
        ((fix all (l : list (string * fsnode)) : Forall (fun e => P (snd e)) l :=
            match l with
            | [] => Forall_nil _
            | e :: r => Forall_cons e (fsnode_nested_ind (snd e)) (all r)
            end) items)
  | Unlistable e => HUnl e
  | RegularFile n => HReg n
  | Unreadable e => HUnr e
  | Special => HSpe
  end.

End Induction.

(** *** Debounced calls *)

Section DebounceSpec.

Context {Args : Type}.

(** The call made at [t] is superseded by the next call [c']: [c'] is made
    before the timer set at [t], due [d] later, has run. *)
Definition superseded (d t : Z) (c' : invocation Args) : bool :=
  (at_time c' <? t + d)%Z || ((at_time c' =? t + d)%Z && negb (after_due c')).

(** What a debounced callback is meant to receive: a call is delivered,
    [d] after it was made, unless the next call supersedes it. *)
Fixpoint expected (d : Z) (calls : list (invocation Args)) : list (Z * Args) :=
  match calls with
  | [] => []
  | c :: rest =>
      match rest with
      | [] => [((at_time c + d)%Z, passed c)]
      | c' :: _ =>
          if superseded d (at_time c) c' then expected d rest
          else ((at_time c + d)%Z, passed c) :: expected d rest
      end
  end.

(** The calls are made in the order of the list, none before [t]. *)
Fixpoint ascending (t : Z) (calls : list (invocation Args)) : Prop :=
  match calls with
  | [] => True
  | c :: rest => (t <= at_time c)%Z /\ ascending (at_time c) rest
  end.

(** Every call but the last is followed by another before [d] elapses. *)
Fixpoint burst (d : Z) (calls : list (invocation Args)) : Prop :=
  match calls with
  | c :: (c' :: _) as rest => (at_time c' < at_time c + d)%Z /\ burst d rest
  | _ => True
  end.

(** The deliveries as the specification words them, for every [wait]:
    each call is delivered [wait] after it was made unless the next call
    comes before that. *)
Definition debounce_as_specified (wait : Z) (calls : list (invocation Args)) : Prop :=
  debounce_trace wait calls = expected wait calls.

(** The wrapper once called at [t] with [a]: its timer is the only one. *)
Definition armed (wait : Z) (h : nat) (t : Z) (a : Args) (n : nat)
  (d : list (Z * Args)) : debounced * event_loop Args :=
  ({| timeout := Some h |},
   {| now := t;
      pending := [ {| handle := h; due := (t + timer_delay wait)%Z; timer_args := a |} ];
      next_handle := n;
      delivered := d |}).

End DebounceSpec.

(** *** Units, log lines and deliveries *)

(** The unit index [formatBytes] stops at. *)
Definition unit_index (bytes : number) : nat :=
  unitIndex (scale_loop {| size := bytes; unitIndex := 0 |}).

(** A byte count that reads [n] tenths of the unit [i]. *)
Definition tenths_of_unit (n : Z) (i : nat) : Q :=
  inject_Z n / 10 * Qpow1024 i.

(** A character the pattern of [parseSizeToBytes] can consume, letter case
    aside: a digit, a point, white space, or one of the letters of the
    units. *)
Definition size_char (c : ascii) : bool :=
  let d := lowerChar c in
  isNumChar d || isWhiteSpace d
  || existsb (Ascii.eqb d) ["m"%char; "g"%char; "k"%char; "b"%char].

(** The regular files under a node whose status cannot be read. *)
Fixpoint skipped_files (node : fsnode) : nat :=
  match node with
  | Directory items =>
      fold_right (fun entry acc => (skipped_files (snd entry) + acc)%nat) 0%nat items
  | Unreadable _ => 1%nat
  | Unlistable _ | RegularFile _ | Special => 0%nat
  end.

(** The directories at or under a node that cannot be listed. *)
Fixpoint failed_listings (node : fsnode) : nat :=
  match node with
  | Directory items =>
      fold_right (fun entry acc => (failed_listings (snd entry) + acc)%nat) 0%nat items
  | Unlistable _ => 1%nat
  | RegularFile _ | Unreadable _ | Special => 0%nat
  end.

Definition same_level (a b : log_level) : bool :=
  match a, b with
  | LogWarn, LogWarn | LogError, LogError => true
  | _, _ => false
  end.

(** The lines of a log written at one level. *)
Definition count_level (lv : log_level) (l : list log_entry) : nat :=
  List.length (filter (fun e => same_level (level e) lv) l).

(** What one call of [getDirectorySize] leaves: no exception, a value that
    is not negative, and one line in the log for each file skipped and
    each listing failed. *)
Definition well_behaved (join : string -> string -> string) (node : fsnode) : Prop :=
  forall dirPath,
    exists l v,
      getDirectorySize join dirPath node = (l, Normal v)
      /\ nonnegative v
      /\ (isDirectory node = true ->
          count_level LogWarn l = skipped_files node
          /\ count_level LogError l = failed_listings node).

(** Consecutive instants are at least [gap] apart. *)
Fixpoint spaced (gap : Z) (l : list Z) : Prop :=
  match l with
  | t :: (t' :: _) as rest => (t + gap <= t')%Z /\ spaced gap rest
  | _ => True
  end.

Section DebounceFurther.

Context {Args : Type}.

(** A call, as it is delivered when nothing supersedes it. *)
Definition shifted (d : Z) (c : invocation Args) : Z * Args :=
  ((at_time c + d)%Z, passed c).

(** The pending timers of the loop that carry the handle [h]. *)
Definition timers_of (h : nat) (el : event_loop Args) : list (timer Args) :=
  filter (fun t => Nat.eqb (handle t) h) (pending el).

End DebounceFurther.

(* ===================================================================== *)
(** ** Properties *)
(* ===================================================================== *)

(* --------------------------------------------------------------------- *)
(** *** Binary64: what rounding does *)
(* --------------------------------------------------------------------- *)

Section Binary64.

Lemma pow2_pos e : 0 < pow2 e.
Proof. unfold pow2. apply Qpower_0_lt. reflexivity. Qed.

Lemma pow2_neq0 e : ~ pow2 e == 0.
Proof. pose proof (pow2_pos e) as H. intros Hz. rewrite Hz in H. discriminate. Qed.

Lemma pow2_add a b : pow2 (a + b) == pow2 a * pow2 b.
Proof. unfold pow2. apply Qpower_plus. discriminate. Qed.

Lemma pow2_nonneg_exp e : (0 <= e)%Z -> pow2 e == inject_Z (2 ^ e).
Proof. intros H. unfold pow2. rewrite Zpower_Qpower by assumption. reflexivity. Qed.

Lemma pow2_ge_1 e : (0 <= e)%Z -> 1 <= pow2 e.
Proof.
  intros H. rewrite pow2_nonneg_exp by assumption.
  change 1 with (inject_Z 1). rewrite <- Zle_Qle.
  pose proof (Z.pow_pos_nonneg 2 e). lia.
Qed.

Lemma pow2_le a b : (a <= b)%Z -> pow2 a <= pow2 b.
Proof.
  intros H. replace b with (a + (b - a))%Z by lia. rewrite pow2_add.
  pose proof (pow2_pos a). pose proof (pow2_ge_1 (b - a) ltac:(lia)). nra.
Qed.

Lemma pow2_lt_inv a b : pow2 a < pow2 b -> (a < b)%Z.
Proof.
  intros H. destruct (Z_lt_le_dec a b) as [|Hle]; [assumption|].
  apply pow2_le in Hle. lra.
Qed.

Lemma Qmake_as_div n d : n # d == inject_Z n / inject_Z (Zpos d).
Proof. apply Qmake_Qdiv. Qed.

Lemma ilog2_lower q : 0 < q -> pow2 (ilog2 q) <= q.
Proof.
  intros Hq. unfold ilog2.
  destruct (Qle_bool _ q) eqn:Hb; [apply Qle_bool_iff; assumption|].
  destruct q as [n d]. cbn [Qnum Qden] in *.
  assert (Hn : (0 < n)%Z) by (unfold Qlt in Hq; simpl in Hq; lia).
  set (ln := Z.log2 n). set (ld := Z.log2 (Z.pos d)).
  assert (Hln : (0 <= ln)%Z) by apply Z.log2_nonneg.
  assert (Hld : (0 <= ld)%Z) by apply Z.log2_nonneg.
  assert (H1 : pow2 ln <= inject_Z n).
  { rewrite pow2_nonneg_exp by assumption. rewrite <- Zle_Qle.
    apply Z.log2_spec. assumption. }
  assert (H2 : inject_Z (Z.pos d) < pow2 (ld + 1)).
  { rewrite pow2_nonneg_exp by lia. rewrite <- Zlt_Qlt.
    replace (ld + 1)%Z with (Z.succ ld) by lia. apply Z.log2_spec. lia. }
  assert (H3 : pow2 (ln - ld - 1) * pow2 (ld + 1) == pow2 ln).
  { rewrite <- pow2_add. replace (ln - ld - 1 + (ld + 1))%Z with ln by lia. reflexivity. }
  rewrite Qmake_as_div.
  assert (Hd : 0 < inject_Z (Z.pos d)) by (change 0 with (inject_Z 0); rewrite <- Zlt_Qlt; lia).
  apply Qle_shift_div_l; [assumption|].
  pose proof (pow2_pos (ln - ld - 1)). nra.
Qed.

Lemma rne_inject x z : x == inject_Z z -> rne x = z.
Proof.
  intros H. unfold rne. rewrite (Qfloor_comp _ _ H), Qfloor_Z.
  assert (Hc : Qcompare (x - inject_Z z) (1 # 2) = Lt).
  { rewrite <- Qlt_alt. lra. }
  rewrite Hc. reflexivity.
Qed.

Lemma round_pos_exact q m e :
  (0 < m < 2 ^ 53)%Z -> (-1074 <= e <= 971)%Z -> q == inject_Z m * pow2 e ->
  round_pos q = Fin (Qred q).
Proof.
  intros Hm He Hq. unfold round_pos.
  set (E := Z.max (ilog2 q - 52) (-1074)).
  assert (Hpe := pow2_pos e).
  assert (Hq0 : 0 < q).
  { rewrite Hq.
    assert (0 < inject_Z m) by (change 0 with (inject_Z 0); rewrite <- Zlt_Qlt; lia).
    nra. }
  assert (Hm53 : inject_Z m < pow2 53).
  { rewrite pow2_nonneg_exp by lia. rewrite <- Zlt_Qlt. lia. }
  assert (HEe : (E <= e)%Z).
  { assert (ilog2 q < 53 + e)%Z; [|lia].
    apply pow2_lt_inv. rewrite pow2_add.
    pose proof (ilog2_lower q Hq0). nra. }
  assert (Hint : q / pow2 E == inject_Z (m * 2 ^ (e - E))).
  { rewrite inject_Z_mult, <- pow2_nonneg_exp by lia.
    rewrite Hq. replace e with ((e - E) + E)%Z at 1 by lia.
    rewrite pow2_add. field. apply pow2_neq0. }
  rewrite (rne_inject _ _ Hint).
  assert (Hv : inject_Z (m * 2 ^ (e - E)) * pow2 E == q).
  { rewrite <- Hint. field. apply pow2_neq0. }
  assert (Hlt : q < pow2 1024).
  { rewrite Hq. replace 1024%Z with (53 + 971)%Z by lia. rewrite pow2_add.
    assert (0 < inject_Z m) by (change 0 with (inject_Z 0); rewrite <- Zlt_Qlt; lia).
    apply Qle_lt_trans with (inject_Z m * pow2 971).
    - apply Qmult_le_l; [assumption|]. apply pow2_le. lia.
    - apply Qmult_lt_r; [apply pow2_pos|assumption]. }
  destruct (Qle_bool _ _) eqn:Hb.
  - apply Qle_bool_iff in Hb. rewrite Hv in Hb. lra.
  - f_equal. apply Qred_complete. exact Hv.
Qed.

Lemma round64_exact q : binary64 q -> round64 q = Fin (Qred q).
Proof.
  intros (m & e & Hm & He & Hq). unfold round64.
  destruct (Qcompare q 0) eqn:Hc.
  - apply Qeq_alt in Hc. f_equal. symmetry. apply (Qred_complete q 0). exact Hc.
  - apply Qlt_alt in Hc.
    assert (Hm' : (0 < - m < 2 ^ 53)%Z).
    { split; [|lia]. destruct (Z_lt_le_dec m 0); [lia|].
      exfalso. assert (0 <= inject_Z m) by (change 0 with (inject_Z 0); rewrite <- Zle_Qle; lia).
      pose proof (pow2_pos e). nra. }
    rewrite (round_pos_exact (- q) (- m) e Hm' He).
    + unfold neg. f_equal. apply Qred_complete. rewrite Qred_correct. ring.
    + rewrite Hq, inject_Z_opp. ring.
  - apply Qgt_alt in Hc.
    apply (round_pos_exact q m e); [|assumption|assumption].
    split; [|lia]. destruct (Z_lt_le_dec 0 m); [lia|].
    exfalso. assert (inject_Z m <= 0) by (change 0 with (inject_Z 0); rewrite <- Zle_Qle; lia).
    pose proof (pow2_pos e). nra.
Qed.

End Binary64.

Lemma inject_Z_pos z : (0 < z)%Z -> 0 < inject_Z z.
Proof. intros H. change 0 with (inject_Z 0). rewrite <- Zlt_Qlt. assumption. Qed.

Lemma inject_Z_nonneg z : (0 <= z)%Z -> 0 <= inject_Z z.
Proof. intros H. change 0 with (inject_Z 0). rewrite <- Zle_Qle. assumption. Qed.

Lemma pow2_lt a b : (a < b)%Z -> pow2 a < pow2 b.
Proof.
  intros H. replace b with (a + 1 + (b - a - 1))%Z by lia. rewrite !pow2_add.
  pose proof (pow2_pos a). pose proof (pow2_ge_1 (b - a - 1) ltac:(lia)).
  change (pow2 1) with 2. nra.
Qed.

Lemma pow2_le_inv a b : pow2 a <= pow2 b -> (a <= b)%Z.
Proof.
  intros H. destruct (Z_le_gt_dec a b) as [|Hgt]; [assumption|].
  assert (pow2 b < pow2 a) by (apply pow2_lt; lia). lra.
Qed.

Lemma ilog2_upper q : 0 < q -> q < pow2 (ilog2 q + 1).
Proof.
  intros Hq. unfold ilog2.
  destruct (Qle_bool _ q) eqn:Hb.
  - destruct q as [n d]. cbn [Qnum Qden] in *.
    assert (Hn : (0 < n)%Z) by (unfold Qlt in Hq; simpl in Hq; lia).
    set (ln := Z.log2 n). set (ld := Z.log2 (Z.pos d)).
    assert (Hln : (0 <= ln)%Z) by apply Z.log2_nonneg.
    assert (Hld : (0 <= ld)%Z) by apply Z.log2_nonneg.
    assert (H1 : inject_Z n < pow2 (ln + 1)).
    { rewrite pow2_nonneg_exp by lia. rewrite <- Zlt_Qlt.
      replace (ln + 1)%Z with (Z.succ ln) by lia. apply Z.log2_spec. assumption. }
    assert (H2 : pow2 ld <= inject_Z (Z.pos d)).
    { rewrite pow2_nonneg_exp by lia. rewrite <- Zle_Qle. apply Z.log2_spec. lia. }
    assert (H3 : pow2 (ln - ld + 1) * pow2 ld == pow2 (ln + 1)).
    { rewrite <- pow2_add. replace (ln - ld + 1 + ld)%Z with (ln + 1)%Z by lia. reflexivity. }
    rewrite Qmake_as_div.
    apply Qlt_shift_div_r; [apply inject_Z_pos; lia|].
    pose proof (pow2_pos (ln - ld + 1)). nra.
  - replace (_ - 1 + 1)%Z with (Z.log2 (Qnum q) - Z.log2 (Z.pos (Qden q)))%Z by lia.
    apply Qnot_le_lt. intros H. apply Qle_bool_iff in H. congruence.
Qed.

(** [ilog2] is determined by the value of its argument. *)
Lemma ilog2_unique q k : 0 < q -> pow2 k <= q -> q < pow2 (k + 1) -> ilog2 q = k.
Proof.
  intros Hq Hlo Hhi.
  pose proof (ilog2_lower q Hq). pose proof (ilog2_upper q Hq).
  assert (ilog2 q < k + 1)%Z by (apply pow2_lt_inv; lra).
  assert (k < ilog2 q + 1)%Z by (apply pow2_lt_inv; lra).
  lia.
Qed.

Lemma ilog2_comp q q' : 0 < q -> q == q' -> ilog2 q = ilog2 q'.
Proof.
  intros Hq He. symmetry. apply ilog2_unique.
  - rewrite <- He. assumption.
  - rewrite <- He. apply ilog2_lower. assumption.
  - rewrite <- He. apply ilog2_upper. assumption.
Qed.

Lemma rne_comp x y : x == y -> rne x = rne y.
Proof.
  intros H. unfold rne. rewrite (Qfloor_comp _ _ H).
  assert (Hc : Qcompare (x - inject_Z (Qfloor y)) (1 # 2)
               = Qcompare (y - inject_Z (Qfloor y)) (1 # 2)).
  { apply Qcompare_comp; [rewrite H|]; reflexivity. }
  rewrite Hc. reflexivity.
Qed.

Lemma round_pos_comp q q' : 0 < q -> q == q' -> round_pos q = round_pos q'.
Proof.
  intros Hq He. unfold round_pos. rewrite (ilog2_comp q q' Hq He).
  set (E := Z.max _ _).
  assert (Hr : rne (q / pow2 E) = rne (q' / pow2 E)).
  { apply rne_comp. rewrite He. reflexivity. }
  rewrite Hr. reflexivity.
Qed.

Lemma round64_comp q q' : q == q' -> round64 q = round64 q'.
Proof.
  intros He. unfold round64.
  assert (Hc : Qcompare q 0 = Qcompare q' 0).
  { apply Qcompare_comp; [assumption|reflexivity]. }
  rewrite <- Hc. destruct (Qcompare q 0) eqn:Hq; [reflexivity| |].
  - rewrite <- Qlt_alt in Hq. f_equal. apply round_pos_comp; [lra|]. rewrite He. reflexivity.
  - rewrite <- Qgt_alt in Hq. apply round_pos_comp; [lra|assumption].
Qed.

Lemma rne_floor_le x : (Qfloor x <= rne x <= Qfloor x + 1)%Z.
Proof.
  unfold rne. destruct (Qcompare _ _); [destruct (Z.even _)| |]; lia.
Qed.

(** The mantissa selected by [round_pos] has at most 53 bits, with 2^53
    itself possible when rounding carries. *)
Lemma round_pos_mantissa q :
  0 < q ->
  let E := Z.max (ilog2 q - 52) (-1074) in
  (0 <= rne (q / pow2 E) <= 2 ^ 53)%Z /\
  ((-1074 < E)%Z -> (2 ^ 52 <= rne (q / pow2 E))%Z).
Proof.
  intros Hq E.
  assert (HE := pow2_pos E).
  assert (Hlo := ilog2_lower q Hq). assert (Hhi := ilog2_upper q Hq).
  assert (Hx : q / pow2 E < pow2 53).
  { apply Qlt_shift_div_r; [assumption|]. rewrite <- pow2_add.
    apply Qlt_le_trans with (pow2 (ilog2 q + 1)); [assumption|].
    apply pow2_le. lia. }
  assert (Hx0 : 0 <= q / pow2 E).
  { apply Qle_shift_div_l; [assumption|]. lra. }
  pose proof (rne_floor_le (q / pow2 E)) as [Hr1 Hr2].
  assert (Hf0 : (0 <= Qfloor (q / pow2 E))%Z).
  { rewrite <- (Qfloor_Z 0). apply Qfloor_resp_le. exact Hx0. }
  assert (Hf1 : (Qfloor (q / pow2 E) < 2 ^ 53)%Z).
  { rewrite Zlt_Qlt. apply Qle_lt_trans with (q / pow2 E); [apply Qfloor_le|].
    rewrite <- pow2_nonneg_exp by lia. exact Hx. }
  split; [lia|].
  intros HEn. assert (HEq : E = (ilog2 q - 52)%Z) by lia.
  assert (Hge : pow2 52 <= q / pow2 E).
  { apply Qle_shift_div_l; [assumption|]. rewrite <- pow2_add.
    replace (52 + E)%Z with (ilog2 q) by lia. assumption. }
  assert ((2 ^ 52 <= Qfloor (q / pow2 E))%Z); [|lia].
  rewrite <- (Qfloor_Z (2 ^ 52)). apply Qfloor_resp_le.
  rewrite <- pow2_nonneg_exp by lia. exact Hge.
Qed.

Lemma Qmul_le_mono a b c d : 0 <= a -> a <= b -> 0 <= c -> c <= d -> a * c <= b * d.
Proof. intros. nra. Qed.

Lemma round_pos_binary64 q r :
  0 < q -> round_pos q = Fin r -> binary64 r /\ 0 <= r.
Proof.
  intros Hq. unfold round_pos.
  destruct (round_pos_mantissa q Hq) as [HM Hnorm].
  set (E := Z.max (ilog2 q - 52) (-1074)) in *.
  set (M := rne (q / pow2 E)) in *.
  destruct (Qle_bool _ _) eqn:Hb; [discriminate|].
  intros Hr. injection Hr as <-.
  assert (Hv : inject_Z M * pow2 E < pow2 1024).
  { apply Qnot_le_lt. intros H. apply Qle_bool_iff in H. congruence. }
  assert (HE := pow2_pos E).
  assert (HM0 : 0 <= inject_Z M) by (apply inject_Z_nonneg; lia).
  assert (Hred := Qred_correct (inject_Z M * pow2 E)).
  split; [|rewrite Hred; apply Qmult_le_0_compat; lra].
  assert (Hbig : forall k, (2 ^ 52 <= M)%Z -> (k <= E)%Z ->
                           pow2 (52 + k) <= inject_Z M * pow2 E).
  { intros k H52 Hk. rewrite pow2_add. apply Qmul_le_mono.
    - pose proof (pow2_pos 52). lra.
    - rewrite pow2_nonneg_exp by lia. rewrite <- Zle_Qle. assumption.
    - pose proof (pow2_pos k). lra.
    - apply pow2_le. assumption. }
  assert (HE971 : (2 ^ 52 <= M)%Z -> (E <= 971)%Z).
  { intros H52. destruct (Z_le_gt_dec E 971); [assumption|exfalso].
    pose proof (Hbig 972%Z H52 ltac:(lia)) as Hc. change (52 + 972)%Z with 1024%Z in Hc. lra. }
  assert (HElo : (-1074 <= E)%Z) by (unfold E; lia).
  destruct (Z.eq_dec M (2 ^ 53)) as [HMeq|HMne].
  - assert (E <= 971)%Z by (apply HE971; lia).
    assert (E <> 971)%Z.
    { intros ->. assert (pow2 1024 == inject_Z M * pow2 971).
      { rewrite HMeq, <- pow2_nonneg_exp by lia. rewrite <- pow2_add. reflexivity. }
      lra. }
    exists (2 ^ 52)%Z, (E + 1)%Z. split; [lia|]. split; [lia|].
    rewrite Hred, HMeq. rewrite <- !pow2_nonneg_exp by lia. rewrite <- !pow2_add.
    replace (53 + E)%Z with (52 + (E + 1))%Z by lia. reflexivity.
  - exists M, E. split; [lia|]. split; [|exact Hred].
    split; [assumption|].
    destruct (Z_le_gt_dec E 971); [assumption|]. apply HE971, Hnorm. lia.
Qed.

Lemma round_pos_overflow q : pow2 1024 <= q -> round_pos q = Inf false.
Proof.
  intros Hq. assert (Hq0 : 0 < q) by (pose proof (pow2_pos 1024); lra).
  unfold round_pos.
  destruct (round_pos_mantissa q Hq0) as [HM Hnorm].
  set (E := Z.max (ilog2 q - 52) (-1074)) in *.
  set (M := rne (q / pow2 E)) in *.
  assert (Hl : (1024 <= ilog2 q)%Z).
  { assert (1024 < ilog2 q + 1)%Z; [|lia]. apply pow2_lt_inv.
    pose proof (ilog2_upper q Hq0). lra. }
  assert (HEq : E = (ilog2 q - 52)%Z) by (unfold E; lia).
  assert (H52 : (2 ^ 52 <= M)%Z) by (apply Hnorm; lia).
  assert (Hge : pow2 1024 <= inject_Z M * pow2 E).
  { change 1024%Z with (52 + 972)%Z. rewrite pow2_add. apply Qmul_le_mono.
    - pose proof (pow2_pos 52). lra.
    - rewrite pow2_nonneg_exp by lia. rewrite <- Zle_Qle. assumption.
    - pose proof (pow2_pos 972). lra.
    - apply pow2_le. lia. }
  apply Qle_bool_iff in Hge. rewrite Hge. reflexivity.
Qed.

Lemma round64_nonneg q : 0 <= q -> ge (round64 q) (Fin 0) = true.
Proof.
  intros Hq. unfold round64. destruct (Qcompare q 0) eqn:Hc.
  - reflexivity.
  - rewrite <- Qlt_alt in Hc. lra.
  - rewrite <- Qgt_alt in Hc. destruct (round_pos q) as [| [] |r] eqn:Hr.
    + unfold round_pos in Hr. destruct (Qle_bool _ _); discriminate.
    + unfold round_pos in Hr. destruct (Qle_bool _ _); discriminate.
    + reflexivity.
    + apply round_pos_binary64 in Hr; [|assumption]. simpl. apply Qle_bool_iff. tauto.
Qed.

Lemma round64_binary64 q r : round64 q = Fin r -> binary64 r.
Proof.
  unfold round64. destruct (Qcompare q 0) eqn:Hc.
  - intros H. injection H as <-. exists 0%Z, 0%Z.
    split; [reflexivity|]. split; [lia|]. reflexivity.
  - rewrite <- Qlt_alt in Hc. destruct (round_pos (- q)) as [| s |r'] eqn:Hr; try discriminate.
    unfold neg. intros H. assert (Hrr : r = Qred (- r')) by congruence. subst r. clear H.
    apply round_pos_binary64 in Hr; [|lra]. destruct Hr as [(m & e & Hm & He & Hq) _].
    exists (- m)%Z, e. split; [lia|]. split; [assumption|].
    transitivity (- r'); [apply Qred_correct|]. rewrite Hq, inject_Z_opp. ring.
  - rewrite <- Qgt_alt in Hc. intros Hr. apply round_pos_binary64 in Hr; [tauto|assumption].
Qed.

Lemma Qred_inject_Z z : Qred (inject_Z z) = inject_Z z.
Proof.
  apply Qred_identity. simpl. apply Z.gcd_1_r.
Qed.

Lemma binary64_comp q q' : q == q' -> binary64 q -> binary64 q'.
Proof.
  intros He (m & e & Hm & Hr & Hq). exists m, e. repeat split; try tauto.
  rewrite <- He. assumption.
Qed.

Lemma binary64_Qred q : binary64 q -> binary64 (Qred q).
Proof. apply binary64_comp. symmetry. apply Qred_correct. Qed.

Lemma binary64_inject_Z z : (Z.abs z <= 2 ^ 53)%Z -> binary64 (inject_Z z).
Proof.
  intros H. destruct (Z.eq_dec (Z.abs z) (2 ^ 53)) as [He|Hne].
  - exists (z / 2)%Z, 1%Z.
    assert (Hz : z = (2 * (z / 2))%Z).
    { destruct (Z.abs_spec z) as [[_ Ha]|[_ Ha]]; rewrite Ha in He.
      - rewrite He. reflexivity.
      - replace z with (- 2 ^ 53)%Z by lia. reflexivity. }
    split; [lia|]. split; [lia|].
    rewrite Hz at 1. rewrite inject_Z_mult. change (pow2 1) with 2.
    change (inject_Z 2) with 2. ring.
  - exists z, 0%Z. split; [lia|]. split; [lia|]. change (pow2 0) with 1. ring.
Qed.

Lemma of_Z_exact z : (Z.abs z <= 2 ^ 53)%Z -> of_Z z = Fin (inject_Z z).
Proof.
  intros H. unfold of_Z. rewrite round64_exact by (apply binary64_inject_Z; assumption).
  rewrite Qred_inject_Z. reflexivity.
Qed.

Lemma of_N_exact n : (n <= 2 ^ 53)%N -> of_N n = Fin (inject_Z (Z.of_N n)).
Proof.
  intros H. apply of_Z_exact. lia.
Qed.

(** Integers add exactly while the sum stays within 53 bits. *)
Lemma add_inject_Z a b :
  (Z.abs (a + b) <= 2 ^ 53)%Z ->
  add (Fin (inject_Z a)) (Fin (inject_Z b)) = Fin (inject_Z (a + b)).
Proof.
  intros H. cbn [add].
  rewrite (round64_comp _ (inject_Z (a + b))) by (rewrite inject_Z_plus; reflexivity).
  apply of_Z_exact. assumption.
Qed.

Lemma binary64_div_1024 q : binary64 q -> 1024 <= q -> binary64 (q / 1024).
Proof.
  intros (m & e & Hm & He & Hq) Hge.
  assert (Hm0 : (0 < m)%Z).
  { destruct (Z_lt_le_dec 0 m); [assumption|exfalso].
    assert (inject_Z m <= 0) by (change 0 with (inject_Z 0); rewrite <- Zle_Qle; lia).
    pose proof (pow2_pos e). nra. }
  assert (He' : (-43 < e)%Z).
  { assert (10 < 53 + e)%Z; [|lia]. apply pow2_lt_inv. rewrite pow2_add.
    assert (inject_Z m < pow2 53).
    { rewrite pow2_nonneg_exp by lia. rewrite <- Zlt_Qlt. lia. }
    change (pow2 10) with 1024. pose proof (pow2_pos e). nra. }
  exists m, (e - 10)%Z. split; [assumption|]. split; [lia|].
  rewrite Hq. replace e with ((e - 10) + 10)%Z at 1 by lia. rewrite pow2_add.
  change (pow2 10) with 1024. field.
Qed.

Lemma div_1024_exact q :
  binary64 q -> 1024 <= q -> div (Fin q) (Fin 1024) = Fin (Qred (q / 1024)).
Proof.
  intros Hb Hge. cbn [div]. change (Qis_zero 1024) with false. cbv iota.
  apply round64_exact, binary64_div_1024; assumption.
Qed.

Lemma binary64_mul_1024 q :
  binary64 q -> 0 <= q -> q * 1024 < pow2 1024 -> binary64 (q * 1024).
Proof.
  intros (m & e & Hm & He & Hq) Hq0 Hlt.
  destruct (Z_le_gt_dec (e + 10) 971) as [Hle|Hgt].
  - exists m, (e + 10)%Z. split; [assumption|]. split; [lia|].
    rewrite Hq, pow2_add. change (pow2 10) with 1024. ring.
  - set (k := (e + 10 - 971)%Z).
    assert (Hk : (0 < k <= 10)%Z) by (unfold k; lia).
    assert (Hval : q * 1024 == inject_Z (m * 2 ^ k) * pow2 971).
    { assert (Hp : pow2 e * 1024 == pow2 k * pow2 971).
      { change 1024 with (pow2 10). rewrite <- !pow2_add.
        replace (k + 971)%Z with (e + 10)%Z by (unfold k; lia). reflexivity. }
      rewrite Hq, inject_Z_mult, <- pow2_nonneg_exp by lia.
      rewrite <- !Qmult_assoc, Hp. reflexivity. }
    exists (m * 2 ^ k)%Z, 971%Z. split; [|split; [lia|exact Hval]].
    assert (H0 : (0 <= m * 2 ^ k)%Z).
    { rewrite Zle_Qle. change (inject_Z 0) with 0.
      assert (0 <= inject_Z (m * 2 ^ k) * pow2 971) by (rewrite <- Hval; lra).
      pose proof (pow2_pos 971). nra. }
    assert (m * 2 ^ k < 2 ^ 53)%Z; [|lia].
    rewrite Zlt_Qlt. rewrite <- (pow2_nonneg_exp 53) by lia.
    assert (pow2 1024 == pow2 53 * pow2 971) by (rewrite <- pow2_add; reflexivity).
    pose proof (pow2_pos 971). nra.
Qed.

Lemma mul_1024_exact q :
  binary64 q -> 0 <= q ->
  mul (Fin q) (Fin 1024) =
  if Qle_bool (pow2 1024) (q * 1024) then Inf false else Fin (Qred (q * 1024)).
Proof.
  intros Hb Hq0. cbn [mul]. destruct (Qle_bool _ _) eqn:Ht.
  - apply Qle_bool_iff in Ht. unfold round64.
    assert (Hc : Qcompare (q * 1024) 0 = Gt).
    { rewrite <- Qgt_alt. pose proof (pow2_pos 1024). lra. }
    rewrite Hc. apply round_pos_overflow. assumption.
  - apply round64_exact, binary64_mul_1024; try assumption.
    apply Qnot_le_lt. intros H. apply Qle_bool_iff in H. congruence.
Qed.

(* --------------------------------------------------------------------- *)
(** *** formatBytes: the scaling loop *)
(* --------------------------------------------------------------------- *)

Lemma scale_loop_unfold st :
  scale_loop st = if guard st then scale_loop (body st) else st.
Proof.
  rewrite scale_loop_equation_1. unfold inspect.
  generalize (@eq_refl bool (guard st)).
  generalize (guard st) at 2 4 5.
  intros [] e; reflexivity.
Qed.

Lemma Qpow1024_S k : Qpow1024 (S k) == 1024 * Qpow1024 k.
Proof.
  unfold Qpow1024. rewrite Nat2Z.inj_succ. unfold Z.succ.
  rewrite Qpower_plus by discriminate. change (1024 ^ 1) with 1024. ring.
Qed.

Lemma Qpow1024_pos k : 0 < Qpow1024 k.
Proof. unfold Qpow1024. apply Qpower_0_lt. reflexivity. Qed.

Lemma scale_loop_spec n : forall i q,
  (i + n = 4)%nat -> binary64 q -> 0 <= q ->
  exists r k,
    scale_loop {| size := Fin q; unitIndex := i |}
    = {| size := Fin r; unitIndex := (i + k)%nat |}
    /\ (k <= n)%nat
    /\ r == q / Qpow1024 k
    /\ ((k < n)%nat -> r < 1024)
    /\ ((0 < k)%nat -> Qpow1024 k <= q).
Proof.
  induction n as [|n IH]; intros i q Hi Hb Hq.
  - exists q, 0%nat. rewrite scale_loop_unfold. unfold guard. cbn [size unitIndex].
    replace (i <? _)%nat with false by (symmetry; apply Nat.ltb_ge; simpl; lia).
    rewrite andb_false_r. rewrite Nat.add_0_r.
    repeat split; try lia. change (Qpow1024 0) with 1. field.
  - rewrite scale_loop_unfold. unfold guard. cbn [size unitIndex].
    replace (i <? _)%nat with true by (symmetry; apply Nat.ltb_lt; simpl; lia).
    rewrite andb_true_r. cbn [ge].
    destruct (Qle_bool 1024 q) eqn:Hg.
    + apply Qle_bool_iff in Hg. unfold body. cbn [size unitIndex].
      rewrite div_1024_exact by assumption.
      destruct (IH (S i) (Qred (q / 1024))) as (r & k & Hl & Hk & Hr & Hlt & Hge).
      * lia.
      * apply binary64_Qred, binary64_div_1024; assumption.
      * rewrite Qred_correct. apply Qle_shift_div_l; lra.
      * exists r, (S k). rewrite Hl. split; [f_equal; lia|].
        split; [lia|].
        pose proof (Qpow1024_pos k) as Hp. pose proof (Qpow1024_S k) as HS.
        split; [|split].
        -- rewrite Hr, Qred_correct, HS. field. lra.
        -- intros Hkn. apply Hlt. lia.
        -- intros _. rewrite HS. destruct k as [|k'].
           ++ change (Qpow1024 0) with 1. lra.
           ++ assert (Hq' := Hge ltac:(lia)). rewrite Qred_correct in Hq'.
              assert (HX : q == (q / 1024) * 1024) by field. revert Hq' HX.
              generalize (q / 1024) (Qpow1024 (S k')). clear. intros X P HP HX. lra.
    + exists q, 0%nat. rewrite Nat.add_0_r. split; [reflexivity|].
      split; [lia|]. split; [change (Qpow1024 0) with 1; field|].
      split; [|lia]. intros _. apply Qnot_le_lt. intros H. apply Qle_bool_iff in H. congruence.
Qed.

(* --------------------------------------------------------------------- *)
(** *** Decimal digits and toFixed *)
(* --------------------------------------------------------------------- *)

Lemma digits_aux_app fuel : forall n acc,
  digits_aux fuel n acc = digits_aux fuel n [] ++ acc.
Proof.
  induction fuel as [|fuel IH]; intros n acc; [reflexivity|].
  cbn [digits_aux]. destruct (n <? 10)%Z; [reflexivity|].
  rewrite IH. rewrite (IH _ [_]). rewrite <- app_assoc. reflexivity.
Qed.

Lemma digits_aux_fuel f1 : forall f2 n acc,
  (0 <= n < 2 ^ Z.of_nat f1)%Z -> (0 <= n < 2 ^ Z.of_nat f2)%Z ->
  (0 < f1)%nat -> (0 < f2)%nat ->
  digits_aux f1 n acc = digits_aux f2 n acc.
Proof.
  induction f1 as [|f1 IH]; intros f2 n acc H1 H2 Hf1 Hf2; [lia|].
  destruct f2 as [|f2]; [lia|].
  cbn [digits_aux]. destruct (n <? 10)%Z eqn:Hn; [reflexivity|].
  apply Z.ltb_ge in Hn.
  rewrite Nat2Z.inj_succ, Z.pow_succ_r in H1, H2 by lia.
  assert (Hd : (1 <= n / 10)%Z) by (apply Z.div_le_lower_bound; lia).
  assert (Hd1 : (n / 10 < 2 ^ Z.of_nat f1)%Z) by (apply Z.div_lt_upper_bound; lia).
  assert (Hd2 : (n / 10 < 2 ^ Z.of_nat f2)%Z) by (apply Z.div_lt_upper_bound; lia).
  apply IH; try lia.
  - destruct f1; [simpl in Hd1; lia|lia].
  - destruct f2; [simpl in Hd2; lia|lia].
Qed.

Lemma digits_fuel_ok n :
  (0 <= n)%Z -> (0 <= n < 2 ^ Z.of_nat (S (Z.to_nat (Z.log2 n))))%Z.
Proof.
  intros Hn. split; [assumption|].
  rewrite Nat2Z.inj_succ, Z2Nat.id by apply Z.log2_nonneg.
  destruct (Z.eq_dec n 0) as [->|Hne]; [reflexivity|].
  apply Z.log2_spec. lia.
Qed.

Lemma digits_small n : (0 <= n < 10)%Z -> digits n = [digitChar n].
Proof.
  intros Hn. unfold digits. cbn [digits_aux].
  replace (n <? 10)%Z with true by (symmetry; apply Z.ltb_lt; lia).
  rewrite Z.mod_small by lia. reflexivity.
Qed.

Lemma digits_step n :
  (10 <= n)%Z -> digits n = digits (n / 10) ++ [digitChar (n mod 10)].
Proof.
  intros Hn. unfold digits at 1. cbn [digits_aux].
  replace (n <? 10)%Z with false by (symmetry; apply Z.ltb_ge; lia).
  rewrite digits_aux_app. f_equal. unfold digits.
  assert (Hd : (1 <= n / 10)%Z) by (apply Z.div_le_lower_bound; lia).
  pose proof (digits_fuel_ok n ltac:(lia)) as Hf.
  rewrite Nat2Z.inj_succ, Z.pow_succ_r in Hf by lia.
  assert (Hd1 : (n / 10 < 2 ^ Z.of_nat (Z.to_nat (Z.log2 n)))%Z)
    by (apply Z.div_lt_upper_bound; lia).
  apply digits_aux_fuel.
  - lia.
  - apply digits_fuel_ok. lia.
  - destruct (Z.to_nat (Z.log2 n)); [simpl in Hd1; lia|lia].
  - lia.
Qed.

Lemma digits_length_pos n : (0 <= n)%Z -> (1 <= List.length (digits n))%nat.
Proof.
  intros Hn. destruct (Z_lt_le_dec n 10).
  - rewrite digits_small by lia. simpl. lia.
  - rewrite digits_step by assumption. rewrite length_app. simpl. lia.
Qed.

Lemma half_up_tenths_nonneg x : 0 <= x -> (0 <= half_up_tenths x)%Z.
Proof.
  intros Hx. unfold half_up_tenths. rewrite <- (Qfloor_Z 0).
  apply Qfloor_resp_le. change (inject_Z 0) with 0. lra.
Qed.

(** The tenths selected are the nearest ones, the upper ones on a tie. *)
Lemma half_up_tenths_spec x :
  inject_Z (half_up_tenths x) - (1 # 2) <= x * 10
  /\ x * 10 < inject_Z (half_up_tenths x) + (1 # 2).
Proof.
  unfold half_up_tenths.
  pose proof (Qfloor_le (x * 10 + (1 # 2))).
  pose proof (Qlt_floor (x * 10 + (1 # 2))) as Hl.
  rewrite inject_Z_plus in Hl. change (inject_Z 1) with 1 in Hl.
  split; lra.
Qed.

Lemma toFixed_abs_1 x :
  0 <= x -> x < pow10 21 ->
  toFixed_abs x 1 =
  digits (half_up_tenths x / 10) ++ "."%char :: [digitChar (half_up_tenths x mod 10)].
Proof.
  intros Hx Hlt. unfold toFixed_abs.
  replace (Qle_bool (pow10 21) x) with false.
  2:{ symmetry. apply not_true_is_false. intros H. apply Qle_bool_iff in H. lra. }
  change (pow10 (Z.of_nat 1)) with 10. fold (half_up_tenths x).
  pose proof (half_up_tenths_nonneg x Hx) as Hn.
  set (n := half_up_tenths x) in *.
  assert (Hm : (if (n =? 0)%Z then ["0"%char] else digits n) = digits n).
  { destruct (n =? 0)%Z eqn:E; [|reflexivity]. apply Z.eqb_eq in E. rewrite E. reflexivity. }
  rewrite Hm. destruct (Z_lt_le_dec n 10) as [Hs|Hb].
  - rewrite (digits_small n) by lia.
    cbn [List.length Nat.leb Nat.add Nat.sub zeros app firstn skipn].
    rewrite Z.div_small, Z.mod_small by lia. reflexivity.
  - rewrite (digits_step n Hb).
    pose proof (digits_length_pos (n / 10) ltac:(apply Z.div_pos; lia)) as Hl.
    set (a := digits (n / 10)) in *.
    replace (List.length (a ++ [_]) <=? 1)%nat with false.
    2:{ symmetry. apply Nat.leb_gt. rewrite length_app. simpl. lia. }
    rewrite length_app. cbn [List.length].
    replace (List.length a + 1 - 1)%nat with (List.length a) by lia.
    rewrite firstn_app, Nat.sub_diag, firstn_all. cbn [firstn].
    rewrite skipn_app, Nat.sub_diag, skipn_all. cbn [skipn].
    rewrite app_nil_r. reflexivity.
Qed.

Lemma Qsign_neg_nonneg x : 0 <= x -> Qsign_neg x = false.
Proof.
  intros Hx. unfold Qsign_neg. destruct (Qcompare x 0) eqn:Hc; try reflexivity.
  rewrite <- Qlt_alt in Hc. lra.
Qed.

Lemma toFixed_1 x :
  0 <= x -> x < pow10 21 -> toFixed (Fin x) 1 = render1 x.
Proof.
  intros Hx Hlt. unfold toFixed, render1.
  rewrite Qsign_neg_nonneg by assumption. rewrite toFixed_abs_1 by assumption.
  reflexivity.
Qed.

Lemma render1_comp x y : x == y -> render1 x = render1 y.
Proof.
  intros H. unfold render1, half_up_tenths.
  rewrite (Qfloor_comp (x * 10 + (1 # 2)) (y * 10 + (1 # 2))) by (rewrite H; reflexivity).
  reflexivity.
Qed.

Lemma isDigit_digitChar d : (0 <= d < 10)%Z -> isDigit (digitChar d) = true.
Proof.
  intros H.
  assert (Hc : (d = 0 \/ d = 1 \/ d = 2 \/ d = 3 \/ d = 4 \/ d = 5 \/ d = 6
               \/ d = 7 \/ d = 8 \/ d = 9)%Z) by lia.
  repeat (destruct Hc as [-> | Hc]; [reflexivity|]). subst d. reflexivity.
Qed.

Lemma digits_all_digit_fuel f : forall n,
  (0 <= n < 2 ^ Z.of_nat f)%Z -> forallb isDigit (digits n) = true.
Proof.
  induction f as [|f IH]; intros n Hn.
  - simpl in Hn. rewrite digits_small by lia. simpl.
    rewrite isDigit_digitChar by lia. reflexivity.
  - destruct (Z_lt_le_dec n 10).
    + rewrite digits_small by lia. simpl. rewrite isDigit_digitChar by lia. reflexivity.
    + rewrite digits_step by assumption. rewrite forallb_app. simpl.
      rewrite isDigit_digitChar by (apply Z.mod_pos_bound; lia).
      rewrite IH; [reflexivity|].
      rewrite Nat2Z.inj_succ, Z.pow_succ_r in Hn by lia.
      split; [apply Z.div_pos; lia|apply Z.div_lt_upper_bound; lia].
Qed.

Lemma digits_all_digits n : (0 <= n)%Z -> all_digits (digits n) = true.
Proof.
  intros Hn. unfold all_digits.
  pose proof (digits_length_pos n Hn).
  rewrite (digits_all_digit_fuel _ n (digits_fuel_ok n Hn)).
  destruct (List.length (digits n)); [lia|reflexivity].
Qed.

Lemma all_digits_strip_sign ds :
  all_digits ds = true -> all_digits (strip_sign ds) = true.
Proof.
  intros H. destruct ds as [|c t]; [assumption|]. cbn [strip_sign].
  destruct (Ascii.eqb c "-") eqn:E; [|assumption].
  apply Ascii.eqb_eq in E. subst c. unfold all_digits in H. simpl in H. discriminate.
Qed.

Lemma render1_format x : 0 <= x -> one_decimal_format (render1 x) = true.
Proof.
  intros Hx. unfold one_decimal_format, render1.
  rewrite list_ascii_of_string_of_list_ascii.
  pose proof (half_up_tenths_nonneg x Hx) as Hn. set (n := half_up_tenths x) in *.
  change (digits (n / 10) ++ "."%char :: [digitChar (n mod 10)])
    with (digits (n / 10) ++ ["."%char; digitChar (n mod 10)]).
  rewrite rev_app_distr. cbn [rev app]. rewrite rev_involutive.
  rewrite isDigit_digitChar by (apply Z.mod_pos_bound; lia).
  cbn [Ascii.eqb Bool.eqb andb]. apply all_digits_strip_sign, digits_all_digits.
  apply Z.div_pos; lia.
Qed.

Lemma Qpow1024_ge_1 k : 1 <= Qpow1024 k.
Proof.
  induction k as [|k IH]; [unfold Qpow1024; simpl; lra|].
  rewrite Qpow1024_S. lra.
Qed.

Lemma Qpow1024_mono j k : (j <= k)%nat -> Qpow1024 j <= Qpow1024 k.
Proof.
  induction 1 as [|k Hle IH]; [lra|].
  rewrite Qpow1024_S. pose proof (Qpow1024_ge_1 k). lra.
Qed.

Lemma iterates_scale_loop n : forall st,
  (unitIndex st + n = 4)%nat ->
  exists k, (k <= n)%nat /\ iterates k st (scale_loop st).
Proof.
  induction n as [|n IH]; intros st Hn; rewrite scale_loop_unfold.
  - assert (Hg : guard st = false).
    { unfold guard. replace (unitIndex st <? _)%nat with false.
      - apply andb_false_r.
      - symmetry. apply Nat.ltb_ge. simpl. lia. }
    rewrite Hg. exists 0%nat. split; [lia|constructor; assumption].
  - destruct (guard st) eqn:Hg.
    + destruct (IH (body st)) as (k & Hk & Hit); [simpl; lia|].
      exists (S k). split; [lia|]. constructor; assumption.
    + exists 0%nat. split; [lia|constructor; assumption].
Qed.

(* --------------------------------------------------------------------- *)
(** *** formatBytes: the result *)
(* --------------------------------------------------------------------- *)

Local Open Scope string_scope.

Lemma Qdiv_ge_1 b p : 0 < p -> (1 <= b / p <-> p <= b).
Proof.
  intros Hp. split; intros H.
  - assert (Hb : b == (b / p) * p) by (field; lra).
    revert H Hb. generalize (b / p). intros x H Hb. nra.
  - apply Qle_shift_div_l; [assumption|]. lra.
Qed.

Lemma Qdiv_mul_back r b p : 0 < p -> r == b / p -> b == r * p.
Proof. intros Hp Hr. rewrite Hr. field. lra. Qed.

Lemma formatBytes_scaled b :
  binary64 b -> 0 <= b ->
  exists r k,
    formatBytes (Fin b) = toFixed (Fin r) 1 ++ " " ++ unit_of k
    /\ (k <= 4)%nat /\ r == b / Qpow1024 k
    /\ ((k < 4)%nat -> r < 1024) /\ ((0 < k)%nat -> Qpow1024 k <= b).
Proof.
  intros Hb H0.
  destruct (scale_loop_spec 4 0 b eq_refl Hb H0) as (r & k & Hl & Hk).
  exists r, k. unfold formatBytes. rewrite Hl. cbn [size unitIndex Nat.add].
  split; [reflexivity|exact Hk].
Qed.

(** C1, as amended.  For every finite Number [b] with [0 <= b] and
    [b < 10^21 * 1024^4], [formatBytes b] is ["<value> <unit>"]: the unit
    index [i] is at most 4 (TB); from [1 <= b] on it is the largest index
    with [b / 1024^i >= 1], and below 1 it is 0 (B); the value is
    [b / 1024^i] with exactly one digit after the point, the nearest tenth
    and the upper one on a tie.  In particular [formatBytes 0 = "0.0 B"],
    [formatBytes 1536 = "1.5 KB"], [formatBytes 1610612736 = "1.5 GB"]. *)
Theorem formatBytes_spec :
  (forall b : Q,
      binary64 b -> 0 <= b -> b < pow10 21 * Qpow1024 4 ->
      exists i,
        (i <= 4)%nat
        /\ formatBytes (Fin b) = render1 (b / Qpow1024 i) ++ " " ++ unit_of i
        /\ one_decimal_format (render1 (b / Qpow1024 i)) = true
        /\ (1 <= b -> largest_unit_reaching_one b i)
        /\ (b < 1 -> i = 0%nat))
  /\ formatBytes (Fin 0) = "0.0 B"
  /\ formatBytes (Fin 1536) = "1.5 KB"
  /\ formatBytes (Fin 1610612736) = "1.5 GB".
Proof.
  split; [|repeat split; reflexivity].
  intros b Hb H0 Hmax.
  destruct (formatBytes_scaled b Hb H0) as (r & k & Hf & Hk & Hr & Hlt & Hge).
  pose proof (Qpow1024_pos k) as Hp.
  assert (Hr0 : 0 <= r).
  { rewrite Hr. apply Qle_shift_div_l; [assumption|]. lra. }
  assert (Hr21 : r < pow10 21).
  { destruct (Nat.eq_dec k 4) as [->|Hne].
    - rewrite Hr. apply Qlt_shift_div_r; assumption.
    - apply Qlt_trans with 1024; [apply Hlt; lia|reflexivity]. }
  exists k. split; [assumption|]. split; [|split; [|split]].
  - rewrite Hf, toFixed_1 by assumption. rewrite (render1_comp _ _ Hr). reflexivity.
  - apply render1_format. rewrite <- Hr. assumption.
  - intros H1. split; [assumption|]. split.
    + apply (proj2 (Qdiv_ge_1 b _ Hp)). destruct k as [|k'].
      * change (Qpow1024 0) with 1. lra.
      * apply Hge. lia.
    + intros j Hj Hj1. destruct (le_gt_dec j k) as [|Hgt]; [assumption|exfalso].
      assert (Hr' : r < 1024) by (apply Hlt; lia).
      apply (proj1 (Qdiv_ge_1 b _ (Qpow1024_pos j))) in Hj1.
      pose proof (Qpow1024_mono (S k) j ltac:(lia)) as Hm.
      rewrite Qpow1024_S in Hm.
      pose proof (Qdiv_mul_back r b _ Hp Hr) as Hb'.
      revert Hm Hj1 Hb' Hr' Hp. generalize (Qpow1024 j) (Qpow1024 k). clear.
      intros pj pk. intros. nra.
  - intros Hb1. destruct k as [|k']; [reflexivity|exfalso].
    assert (Hq := Hge ltac:(lia)). pose proof (Qpow1024_ge_1 (S k')). lra.
Qed.

(** C1 fails as it is worded in two places.  No unit reaches 1 below one
    byte, so nothing is "the largest unit with [b / 1024^i >= 1]" at
    [b = 0]; and from 10^21 TB on [toFixed] leaves the fixed notation:
    [formatBytes (2^110)] is ["1.1805916207174113e+21 TB"], sixteen digits
    after the point and an exponent. *)
Lemma formatBytes_as_specified_fails :
  ~ formatBytes_as_specified 0
  /\ ~ formatBytes_as_specified (inject_Z (2 ^ 110))
  /\ formatBytes (Fin (inject_Z (2 ^ 110))) = "1.1805916207174113e+21 TB"
  /\ one_decimal_format "1.1805916207174113e+21" = false.
Proof.
  split; [|split; [|split; reflexivity]].
  - intros (i & (_ & H & _) & _). apply (proj1 (Qdiv_ge_1 0 _ (Qpow1024_pos i))) in H.
    pose proof (Qpow1024_pos i). lra.
  - intros (i & (Hi & _ & Hmax) & Hf).
    assert (i = 4%nat).
    { assert (4 <= i)%nat; [|lia]. apply Hmax; [lia|]. vm_compute. discriminate. }
    subst i. vm_compute in Hf. discriminate.
Qed.

(** The theorem at 1536 bytes. *)
Lemma formatBytes_spec_witness :
  exists i,
    (i <= 4)%nat
    /\ formatBytes (Fin 1536) = render1 (1536 / Qpow1024 i) ++ " " ++ unit_of i
    /\ one_decimal_format (render1 (1536 / Qpow1024 i)) = true
    /\ (1 <= 1536 -> largest_unit_reaching_one 1536 i)
    /\ (1536 < 1 -> i = 0%nat).
Proof.
  apply (proj1 formatBytes_spec 1536).
  - exists 3%Z, 9%Z. split; [reflexivity|]. split; [lia|reflexivity].
  - discriminate.
  - reflexivity.
Defined.

Lemma chars_append (a b : string) :
  chars (a ++ b) = (chars a ++ chars b)%list.
Proof.
  unfold chars. induction a as [|x a IH]; [reflexivity|]. simpl. rewrite IH. reflexivity.
Qed.

Lemma chars_inj (a b : string) : chars a = chars b -> a = b.
Proof.
  intros H. rewrite <- (string_of_list_ascii_of_string a), <- (string_of_list_ascii_of_string b).
  unfold chars in H. rewrite H. reflexivity.
Qed.

Lemma append_inj_r (a b c : string) : a ++ c = b ++ c -> a = b.
Proof.
  intros H. apply chars_inj. apply (f_equal chars) in H.
  rewrite !chars_append in H. apply app_inv_tail in H. exact H.
Qed.

(** C10 fails as it is worded at NaN: the guard is false, the body does
    not run, and the result ["NaN B"] holds no decimal digit. *)
Lemma formatBytes_NaN_not_one_decimal :
  ge NaN (Fin 1024) = false
  /\ formatBytes NaN = "NaN B"
  /\ ~ formatBytes_small_as_specified NaN.
Proof.
  split; [reflexivity|]. split; [reflexivity|].
  intros (v & Hv & Hf).
  change (formatBytes NaN) with ("NaN" ++ " B") in Hv.
  apply append_inj_r in Hv. subst v. discriminate.
Qed.

Lemma toFixed_1_signed q :
  - pow10 21 < q -> q < pow10 21 -> toFixed (Fin q) 1 = render1_signed q.
Proof.
  intros Hlo Hhi. unfold toFixed, render1_signed, Qsign_neg.
  destruct (Qcompare q 0) eqn:Hc.
  - apply Qeq_alt in Hc. rewrite toFixed_abs_1 by lra. reflexivity.
  - rewrite <- Qlt_alt in Hc. rewrite toFixed_abs_1 by lra. reflexivity.
  - rewrite <- Qgt_alt in Hc. rewrite toFixed_abs_1 by lra. reflexivity.
Qed.

Lemma render1_signed_format q : one_decimal_format (render1_signed q) = true.
Proof.
  unfold render1_signed, Qsign_neg. destruct (Qcompare q 0) eqn:Hc.
  - apply Qeq_alt in Hc. apply render1_format. lra.
  - rewrite <- Qlt_alt in Hc.
    assert (Hn : (0 <= half_up_tenths (- q))%Z) by (apply half_up_tenths_nonneg; lra).
    unfold one_decimal_format, render1. set (n := half_up_tenths (- q)) in *.
    cbn [append list_ascii_of_string]. rewrite list_ascii_of_string_of_list_ascii.
    change ("-"%char :: digits (n / 10) ++ "."%char :: [digitChar (n mod 10)])%list
      with (("-"%char :: digits (n / 10)) ++ ["."%char; digitChar (n mod 10)])%list.
    rewrite rev_app_distr. cbn [rev app]. rewrite rev_app_distr, rev_involutive.
    cbn [rev app strip_sign Ascii.eqb Bool.eqb andb].
    rewrite isDigit_digitChar by (apply Z.mod_pos_bound; lia).
    apply digits_all_digits. apply Z.div_pos; lia.
  - rewrite <- Qgt_alt in Hc. apply render1_format. lra.
Qed.

(** C10, as amended.  [formatBytes] returns for every Number: the loop
    runs its body at most 4 times, each run adds one to [unitIndex] and
    needs [unitIndex < 4].  When [bytes >= 1024] is false (a value below
    1024, negative ones and -Infinity included, or NaN) the body never runs
    and the result is [bytes.toFixed(1)] followed by [" B"]: one digit
    after the point for a finite value above [-10^21], and ["NaN B"] and
    ["-Infinity B"] for NaN and -Infinity. *)
Theorem formatBytes_total :
  (forall bytes : number,
      exists k, (k <= 4)%nat
        /\ iterates k {| size := bytes; unitIndex := 0 |}
                      (scale_loop {| size := bytes; unitIndex := 0 |}))
  /\ (forall st, unitIndex (body st) = S (unitIndex st))
  /\ (forall st, guard st = true -> (unitIndex st < 4)%nat)
  /\ (forall bytes : number,
        ge bytes (Fin 1024) = false ->
        iterates 0 {| size := bytes; unitIndex := 0 |}
                   (scale_loop {| size := bytes; unitIndex := 0 |})
        /\ formatBytes bytes = toFixed bytes 1 ++ " B")
  /\ (forall q : Q,
        q < 1024 -> - pow10 21 < q ->
        formatBytes (Fin q) = render1_signed q ++ " B"
        /\ one_decimal_format (render1_signed q) = true)
  /\ formatBytes NaN = "NaN B"
  /\ formatBytes (Inf true) = "-Infinity B".
Proof.
  assert (Hsmall : forall bytes : number,
        ge bytes (Fin 1024) = false ->
        iterates 0 {| size := bytes; unitIndex := 0 |}
                   (scale_loop {| size := bytes; unitIndex := 0 |})
        /\ formatBytes bytes = toFixed bytes 1 ++ " B").
  { intros bytes Hge.
    assert (Hg : guard {| size := bytes; unitIndex := 0 |} = false).
    { unfold guard. cbn [size]. rewrite Hge. reflexivity. }
    unfold formatBytes. rewrite scale_loop_unfold, Hg. split; [|reflexivity].
    constructor. assumption. }
  split; [|split; [|split; [|split; [|split; [|split]]]]].
  - intros bytes. apply (iterates_scale_loop 4). reflexivity.
  - reflexivity.
  - intros st Hg. unfold guard in Hg. apply andb_prop in Hg. destruct Hg as [_ Hg].
    apply Nat.ltb_lt in Hg. exact Hg.
  - exact Hsmall.
  - intros q Hq Hlo. split; [|apply render1_signed_format].
    destruct (Hsmall (Fin q)) as [_ Hf].
    + cbn [ge]. apply not_true_is_false. intros H. apply Qle_bool_iff in H. lra.
    + rewrite Hf, toFixed_1_signed; [reflexivity|assumption|].
      apply Qlt_trans with 1024; [assumption|reflexivity].
  - reflexivity.
  - reflexivity.
Qed.

(** The theorem at -5 bytes. *)
Lemma formatBytes_total_witness :
  formatBytes (Fin (-5)) = "-5.0 B"
  /\ one_decimal_format (render1_signed (-5)) = true.
Proof.
  destruct formatBytes_total as (_ & _ & _ & _ & H & _).
  apply (H (-5)); reflexivity.
Defined.

(* --------------------------------------------------------------------- *)
(** *** parseSizeToBytes: the pattern and parseFloat *)
(* --------------------------------------------------------------------- *)

Local Close Scope string_scope.

Lemma span_app p s : forall a b, span p s = (a, b) -> s = a ++ b /\ forallb p a = true.
Proof.
  induction s as [|c s IH]; intros a b H; simpl in H.
  - injection H as <- <-. split; reflexivity.
  - destruct (p c) eqn:Hc.
    + destruct (span p s) as [a' b'] eqn:Hs. injection H as <- <-.
      destruct (IH a' b' eq_refl) as [-> Ha]. split; [reflexivity|].
      simpl. rewrite Hc, Ha. reflexivity.
    + injection H as <- <-. split; reflexivity.
Qed.

(** The greedy split is forced when the rest starts outside the class. *)
Lemma span_greedy p a b :
  forallb p a = true ->
  match b with c :: _ => p c = false | [] => True end ->
  span p (a ++ b) = (a, b).
Proof.
  intros Ha Hb. induction a as [|x a IH]; simpl in *.
  - destruct b as [|c b]; [reflexivity|]. simpl. rewrite Hb. reflexivity.
  - apply andb_prop in Ha. destruct Ha as [Hx Ha]. rewrite Hx, (IH Ha). reflexivity.
Qed.

Lemma list_ascii_eqb_eq a b : list_ascii_eqb a b = true <-> a = b.
Proof.
  unfold list_ascii_eqb. rewrite String.eqb_eq. split; [|intros ->; reflexivity].
  intros H. rewrite <- (list_ascii_of_string_of_list_ascii a),
    <- (list_ascii_of_string_of_list_ascii b), H. reflexivity.
Qed.

Lemma unitTokens_in unit :
  existsb (list_ascii_eqb unit) unitTokens = true <-> In unit unitTokens.
Proof.
  rewrite existsb_exists. split.
  - intros (x & Hx & He). apply list_ascii_eqb_eq in He. subst. assumption.
  - intros H. exists unit. split; [assumption|]. apply list_ascii_eqb_eq. reflexivity.
Qed.

Lemma unitTokens_head unit :
  In unit unitTokens ->
  exists c r, unit = c :: r /\ isNumChar c = false /\ isWhiteSpace c = false.
Proof.
  intros H. simpl in H.
  destruct H as [<-|[<-|[<-|[<-|[]]]]]; eexists _, _; repeat split.
Qed.

Lemma whitespace_not_numchar c : isWhiteSpace c = true -> isNumChar c = false.
Proof.
  destruct c as [[] [] [] [] [] [] [] []]; intros H; try discriminate H; reflexivity.
Qed.

(** The matcher computes the pattern. *)
Lemma match_size_spec t numStr unit :
  match_size t = Some (numStr, unit) <-> size_pattern t numStr unit.
Proof.
  unfold match_size, size_pattern. split.
  - destruct (span isNumChar t) as [n r] eqn:Hn.
    destruct n as [|c n]; [discriminate|].
    destruct (span isWhiteSpace r) as [w u] eqn:Hw.
    destruct (existsb _ _) eqn:Hu; [|discriminate].
    intros H. injection H as <- <-.
    apply span_app in Hn. destruct Hn as [-> Hn].
    apply span_app in Hw. destruct Hw as [-> Hw].
    split; [discriminate|]. split; [assumption|].
    split; [apply unitTokens_in; assumption|]. exists w. split; [assumption|reflexivity].
  - intros (Hne & Hn & Hu & w & Hw & ->).
    destruct (unitTokens_head unit Hu) as (c & r & -> & Hc1 & Hc2).
    assert (Hs1 : span isNumChar (numStr ++ w ++ c :: r) = (numStr, w ++ c :: r)).
    { apply span_greedy; [assumption|]. destruct w as [|x w]; simpl; [assumption|].
      simpl in Hw. apply andb_prop in Hw. destruct Hw as [Hx _].
      apply whitespace_not_numchar. assumption. }
    rewrite Hs1. destruct numStr as [|x n]; [congruence|].
    rewrite (span_greedy isWhiteSpace w (c :: r) Hw Hc2).
    apply unitTokens_in in Hu. rewrite Hu. reflexivity.
Qed.

Lemma numchar_cases c :
  isNumChar c = true ->
  isWhiteSpace c = false
  /\ (c = "."%char \/ isDigit c = true)
  /\ Ascii.eqb c "+" = false /\ Ascii.eqb c "-" = false
  /\ Ascii.eqb c "I" = false /\ Ascii.eqb c "e" = false /\ Ascii.eqb c "E" = false.
Proof.
  destruct c as [[] [] [] [] [] [] [] []]; intros H; try discriminate H;
    repeat split; try reflexivity; try (left; reflexivity); right; reflexivity.
Qed.

Lemma parseFloat_numchars s :
  forallb isNumChar s = true ->
  parseFloat s = match parseUnsigned s with
                 | None => NaN
                 | Some q => round64 q
                 end.
Proof.
  intros H. destruct s as [|c r]; [reflexivity|].
  simpl in H. apply andb_prop in H. destruct H as [Hc _].
  destruct c as [[] [] [] [] [] [] [] []]; try discriminate Hc; reflexivity.
Qed.

Lemma pow10_pos k : 0 < pow10 k.
Proof. unfold pow10. apply Qpower_0_lt. reflexivity. Qed.

Lemma digitVal_nonneg c : isDigit c = true -> (0 <= digitVal c)%Z.
Proof.
  unfold isDigit, in_range, digitVal. intros H. apply andb_prop in H.
  destruct H as [H _]. apply N.leb_le in H. lia.
Qed.

Lemma fold_digits_nonneg s : forall acc,
  (0 <= acc)%Z -> forallb isDigit s = true ->
  (0 <= fold_left (fun acc c => (10 * acc + digitVal c)%Z) s acc)%Z.
Proof.
  induction s as [|c s IH]; intros acc Hacc H; cbn [fold_left]; [assumption|].
  simpl in H. apply andb_prop in H. destruct H as [Hc Hs].
  apply IH; [|assumption]. pose proof (digitVal_nonneg c Hc). lia.
Qed.

Lemma digitsVal_nonneg s : forallb isDigit s = true -> (0 <= digitsVal s)%Z.
Proof. apply fold_digits_nonneg. lia. Qed.

Lemma parseUnsigned_nonneg s q : parseUnsigned s = Some q -> 0 <= q.
Proof.
  unfold parseUnsigned.
  destruct (span isDigit s) as [ip r] eqn:Hip. apply span_app in Hip. destruct Hip as [_ Hip].
  destruct (match r with "."%char :: t => span isDigit t | _ => ([], r) end) as [fp r'] eqn:Hfp.
  assert (Hfd : forallb isDigit fp = true).
  { destruct r as [|c t]; [injection Hfp as <- _; reflexivity|].
    destruct (Ascii.eqb c ".") eqn:E.
    - apply Ascii.eqb_eq in E. subst c. apply span_app in Hfp. tauto.
    - assert (Hd : (fp, r') = ([], c :: t)).
      { rewrite <- Hfp. destruct c as [[] [] [] [] [] [] [] []]; try reflexivity; discriminate E. }
      injection Hd as -> _. reflexivity. }
  assert (Hv : 0 <= inject_Z (digitsVal (ip ++ fp)) / pow10 (Z.of_nat (List.length fp))
                    * pow10 (parseExponent r')).
  { apply Qmult_le_0_compat; [|apply Qlt_le_weak, pow10_pos].
    apply Qle_shift_div_l; [apply pow10_pos|]. rewrite Qmult_0_l.
    apply inject_Z_nonneg, digitsVal_nonneg. rewrite forallb_app, Hip, Hfd. reflexivity. }
  destruct ip, fp; [discriminate| | |]; intros H; injection H as <-; exact Hv.
Qed.

Lemma isDigit_numchar s : forallb isDigit s = true -> forallb isNumChar s = true.
Proof.
  induction s as [|c s IH]; [reflexivity|]. cbn [forallb]. intros H.
  apply andb_prop in H. destruct H as [Hc Hs]. rewrite (IH Hs).
  unfold isNumChar. rewrite Hc. reflexivity.
Qed.

Lemma decimal_numeral_numchars s ip fp :
  decimal_numeral s ip fp -> s <> [] /\ forallb isNumChar s = true.
Proof.
  intros (Hip & Hfp & Hne & [[Hs Hf]|Hs]); subst.
  - split; [tauto|]. apply isDigit_numchar. assumption.
  - split; [destruct ip; discriminate|].
    rewrite forallb_app. cbn [forallb]. rewrite !isDigit_numchar by assumption. reflexivity.
Qed.

Lemma parseUnsigned_numeral s ip fp :
  decimal_numeral s ip fp ->
  parseUnsigned s = Some (numeral_value ip fp * pow10 0).
Proof.
  intros (Hip & Hfp & Hne & Hs). unfold parseUnsigned, numeral_value.
  destruct Hs as [[Hs Hf]|Hs]; subst.
  - rewrite <- (app_nil_r ip) at 1. rewrite span_greedy by (assumption || exact I).
    destruct ip; [tauto|reflexivity].
  - rewrite span_greedy by (assumption || reflexivity).
    rewrite <- (app_nil_r fp) at 1. rewrite span_greedy by (assumption || exact I).
    destruct ip, fp; try reflexivity. tauto.
Qed.

Lemma parseFloat_numeral s ip fp :
  decimal_numeral s ip fp -> parseFloat s = round64 (numeral_value ip fp).
Proof.
  intros H. rewrite parseFloat_numchars by (apply (decimal_numeral_numchars s ip fp H)).
  rewrite (parseUnsigned_numeral s ip fp H). apply round64_comp.
  change (pow10 0) with 1. ring.
Qed.

(* --------------------------------------------------------------------- *)
(** *** Scaling a parsed Number *)
(* --------------------------------------------------------------------- *)

Lemma round_pos_not_NaN q : round_pos q <> NaN.
Proof. unfold round_pos. destruct (Qle_bool _ _); discriminate. Qed.

Lemma round64_nonnegative q : 0 <= q -> nonnegative (round64 q).
Proof.
  intros Hq. unfold round64. destruct (Qcompare q 0) eqn:Hc.
  - right. exists 0. repeat split; try reflexivity; try lra.
    exists 0%Z, 0%Z. split; [reflexivity|]. split; [lia|reflexivity].
  - rewrite <- Qlt_alt in Hc. lra.
  - rewrite <- Qgt_alt in Hc. destruct (round_pos q) as [|s|r] eqn:Hr.
    + exfalso. exact (round_pos_not_NaN q Hr).
    + left. unfold round_pos in Hr. destruct (Qle_bool _ _); [congruence|discriminate].
    + right. exists r. split; [reflexivity|].
      destruct (round_pos_binary64 q r Hc Hr) as [Hb H0]. repeat split; try assumption.
      unfold round_pos in Hr. destruct (Qle_bool _ _); [discriminate|].
      replace r with (Qred (inject_Z (rne (q / pow2 (Z.max (ilog2 q - 52) (-1074))))
                            * pow2 (Z.max (ilog2 q - 52) (-1074)))) by congruence.
      apply Qred_involutive.
Qed.

Lemma nonnegative_ge x : nonnegative x -> ge x (Fin 0) = true.
Proof.
  intros [->|(r & -> & Hr & _)]; [reflexivity|]. apply Qle_bool_iff. assumption.
Qed.

Lemma nonnegative_not_NaN x : nonnegative x -> isNaN x = false.
Proof. intros [->|(r & -> & _)]; reflexivity. Qed.

Lemma mul_1024_nonnegative x : nonnegative x -> nonnegative (mul x (Fin 1024)).
Proof.
  intros [->|(r & -> & Hr & _)]; [left; reflexivity|].
  cbn [mul]. apply round64_nonnegative. lra.
Qed.

Lemma binary64_scaled r k :
  binary64 r -> 0 <= r -> r * Qpow1024 k < pow2 1024 -> binary64 (r * Qpow1024 k).
Proof.
  intros Hb Hr. induction k as [|k IH]; intros Hlt.
  - apply (binary64_comp r); [change (Qpow1024 0) with 1; ring|assumption].
  - pose proof (Qpow1024_S k) as HS. pose proof (Qpow1024_pos k) as Hp.
    assert (Hk : r * Qpow1024 k < pow2 1024).
    { apply Qle_lt_trans with (r * Qpow1024 (S k)); [|assumption]. rewrite HS.
      revert Hp. generalize (Qpow1024 k). intros p Hp. nra. }
    apply (binary64_comp (r * Qpow1024 k * 1024)); [rewrite HS; ring|].
    apply binary64_mul_1024.
    + apply IH. assumption.
    + revert Hp. generalize (Qpow1024 k). intros p Hp. nra.
    + apply Qle_lt_trans with (r * Qpow1024 (S k)); [|assumption]. rewrite HS.
      apply Qle_lteq. right. ring.
Qed.

Lemma Qle_bool_comp a b c d : a == b -> c == d -> Qle_bool a c = Qle_bool b d.
Proof.
  intros H1 H2. destruct (Qle_bool b d) eqn:E.
  - apply Qle_bool_iff. apply Qle_bool_iff in E. rewrite H1, H2. assumption.
  - apply not_true_is_false. intros H. apply Qle_bool_iff in H. rewrite H1, H2 in H.
    apply Qle_bool_iff in H. congruence.
Qed.

Lemma mul_scaled r k :
  binary64 r -> 0 <= r -> mul (scaled r k) (Fin 1024) = scaled r (S k).
Proof.
  intros Hb Hr. unfold scaled at 1.
  pose proof (Qpow1024_S k) as HS. pose proof (Qpow1024_pos k) as Hp.
  assert (Hmono : r * Qpow1024 k <= r * Qpow1024 (S k)).
  { rewrite HS. revert Hp. generalize (Qpow1024 k). intros p Hp. nra. }
  destruct (Qle_bool (pow2 1024) (r * Qpow1024 k)) eqn:Ho.
  - apply Qle_bool_iff in Ho. unfold scaled.
    assert (Ho' : Qle_bool (pow2 1024) (r * Qpow1024 (S k)) = true).
    { apply Qle_bool_iff. lra. }
    rewrite Ho'. reflexivity.
  - assert (Hlt : r * Qpow1024 k < pow2 1024).
    { apply Qnot_le_lt. intros H. apply Qle_bool_iff in H. congruence. }
    assert (Hv : Qred (r * Qpow1024 k) * 1024 == r * Qpow1024 (S k)).
    { rewrite Qred_correct, HS. ring. }
    rewrite mul_1024_exact.
    + unfold scaled.
      rewrite (Qle_bool_comp (pow2 1024) (pow2 1024) (Qred (r * Qpow1024 k) * 1024)
                 (r * Qpow1024 (S k)) (Qeq_refl _) Hv).
      destruct (Qle_bool (pow2 1024) (r * Qpow1024 (S k))); [reflexivity|].
      f_equal. apply Qred_complete. exact Hv.
    + apply binary64_Qred, binary64_scaled; assumption.
    + rewrite Qred_correct. revert Hp. generalize (Qpow1024 k). intros p Hp. nra.
Qed.

Lemma mul_Qpow1024 r k m :
  binary64 r -> 0 <= r -> m == Qpow1024 k -> mul (Fin r) (Fin m) = scaled r k.
Proof.
  intros Hb Hr Hm. cbn [mul]. unfold scaled.
  rewrite (round64_comp _ (r * Qpow1024 k)) by (rewrite Hm; reflexivity).
  destruct (Qle_bool _ _) eqn:Ho.
  - apply Qle_bool_iff in Ho. unfold round64.
    assert (Hc : Qcompare (r * Qpow1024 k) 0 = Gt).
    { rewrite <- Qgt_alt. pose proof (pow2_pos 1024). lra. }
    rewrite Hc. apply round_pos_overflow. assumption.
  - apply round64_exact, binary64_scaled; try assumption.
    apply Qnot_le_lt. intros H. apply Qle_bool_iff in H. congruence.
Qed.

Lemma binary64_bound r : binary64 r -> r < pow2 1024.
Proof.
  intros (m & e & Hm & He & Hq). rewrite Hq.
  pose proof (pow2_pos e) as Hpe. pose proof (pow2_pos 1024) as Hp.
  destruct (Z_lt_le_dec 0 m) as [Hpos|Hneg].
  - change 1024%Z with (53 + 971)%Z. rewrite pow2_add.
    pose proof (inject_Z_pos m Hpos).
    apply Qle_lt_trans with (inject_Z m * pow2 971).
    + apply Qmult_le_l; [assumption|]. apply pow2_le. lia.
    + apply Qmult_lt_r; [apply pow2_pos|].
      rewrite pow2_nonneg_exp by lia. rewrite <- Zlt_Qlt. lia.
  - assert (inject_Z m <= 0) by (change 0 with (inject_Z 0); rewrite <- Zle_Qle; lia).
    apply Qle_lt_trans with 0; [|assumption].
    revert Hpe. generalize (pow2 e). intros p Hpe. nra.
Qed.

Lemma scaled_0 r : binary64 r -> 0 <= r -> Qred r = r -> scaled r 0 = Fin r.
Proof.
  intros Hb Hr Hc. unfold scaled.
  assert (Hv : r * Qpow1024 0 == r) by (change (Qpow1024 0) with 1; ring).
  replace (Qle_bool _ _) with false.
  - f_equal. rewrite <- Hc at 2. apply Qred_complete. exact Hv.
  - symmetry. apply not_true_is_false. intros H. apply Qle_bool_iff in H.
    pose proof (binary64_bound r Hb). lra.
Qed.

(* --------------------------------------------------------------------- *)
(** *** parseSizeToBytes: the result *)
(* --------------------------------------------------------------------- *)

Lemma string_nonempty str : chars str <> [] -> String.eqb str "" = false.
Proof. destruct str; [intros H; exfalso; apply H; reflexivity|reflexivity]. Qed.

Lemma trim_nonempty s : trim s <> [] -> s <> [].
Proof. intros H ->. apply H. reflexivity. Qed.

Lemma toLowerCase_nonempty s : toLowerCase s <> [] -> s <> [].
Proof. intros H ->. apply H. reflexivity. Qed.

Lemma switch_unit num unit (other : Eff number) :
  In unit unitTokens -> nonnegative num ->
  (if list_ascii_eqb unit (chars "b") then ret num
   else if list_ascii_eqb unit (chars "kb") then ret (mul num (Fin 1024))
   else if list_ascii_eqb unit (chars "mb") then ret (mul (mul num (Fin 1024)) (Fin 1024))
   else if list_ascii_eqb unit (chars "gb")
        then ret (mul (mul (mul num (Fin 1024)) (Fin 1024)) (Fin 1024))
   else other) = ret (convert num unit).
Proof.
  intros Hu Hn. unfold convert.
  destruct Hn as [->|(r & -> & Hr & Hb & Hc)].
  - simpl in Hu. destruct Hu as [<-|[<-|[<-|[<-|[]]]]]; reflexivity.
  - pose proof (scaled_0 r Hb Hr Hc) as H0.
    pose proof (mul_scaled r 0 Hb Hr) as H1. rewrite H0 in H1.
    pose proof (mul_scaled r 1 Hb Hr) as H2. rewrite <- H1 in H2.
    pose proof (mul_scaled r 2 Hb Hr) as H3. rewrite <- H2 in H3.
    unfold unitTokens in Hu. cbn [In] in Hu. destruct Hu as [<-|[<-|[<-|[<-|[]]]]].
    + change (list_ascii_eqb (chars "mb") (chars "b")) with false.
      change (list_ascii_eqb (chars "mb") (chars "kb")) with false.
      change (list_ascii_eqb (chars "mb") (chars "mb")) with true. cbv iota.
      change (multiplier (chars "mb")) with (1024 * 1024).
      rewrite H2. symmetry. f_equal. apply mul_Qpow1024; try assumption. reflexivity.
    + change (list_ascii_eqb (chars "gb") (chars "b")) with false.
      change (list_ascii_eqb (chars "gb") (chars "kb")) with false.
      change (list_ascii_eqb (chars "gb") (chars "mb")) with false.
      change (list_ascii_eqb (chars "gb") (chars "gb")) with true. cbv iota.
      change (multiplier (chars "gb")) with (1024 * 1024 * 1024).
      rewrite H3. symmetry. f_equal. apply mul_Qpow1024; try assumption. reflexivity.
    + reflexivity.
    + change (list_ascii_eqb (chars "b") (chars "b")) with true. cbv iota.
      change (multiplier (chars "b")) with 1.
      rewrite <- H0 at 1. symmetry. f_equal. apply mul_Qpow1024; try assumption. reflexivity.
Qed.

(** The three ways through [parseSizeToBytes] on a string that is not
    empty. *)
Lemma parseSizeToBytes_string str :
  String.eqb str "" = false ->
  parseSizeToBytes (VString str) =
  match match_size (toLowerCase (trim (chars str))) with
  | None => ([could_not_parse str], Normal (Fin 0))
  | Some (numStr, unit) =>
      match parseUnsigned numStr with
      | None => ([invalid_number str], Normal (Fin 0))
      | Some q => ([], Normal (convert (round64 q) unit))
      end
  end.
Proof.
  intros Hne. unfold parseSizeToBytes. cbn [truthy typeof]. rewrite Hne.
  cbn [negb orb String.eqb Ascii.eqb Bool.eqb andb].
  destruct (match_size _) as [[numStr unit]|] eqn:Hm; [|reflexivity].
  apply match_size_spec in Hm. destruct Hm as (Hn0 & Hnc & Hu & _).
  rewrite (parseFloat_numchars numStr Hnc).
  destruct (parseUnsigned numStr) as [q|] eqn:Hq; [|reflexivity].
  pose proof (round64_nonnegative q (parseUnsigned_nonneg _ _ Hq)) as Hnn.
  rewrite (nonnegative_not_NaN _ Hnn).
  apply switch_unit; assumption.
Qed.

Local Open Scope string_scope.

Lemma numeral_value_nonneg ip fp :
  forallb isDigit ip = true -> forallb isDigit fp = true -> 0 <= numeral_value ip fp.
Proof.
  intros Hi Hf. unfold numeral_value. apply Qle_shift_div_l; [apply pow10_pos|].
  rewrite Qmult_0_l. apply inject_Z_nonneg, digitsVal_nonneg.
  rewrite forallb_app, Hi, Hf. reflexivity.
Qed.

(** C2.  When the trimmed, lower-cased input is a decimal numeral, white
    space or none, and one of the units b, kb, mb, gb, [parseSizeToBytes]
    logs nothing and returns the Number read from the numeral times 1,
    1024, 1024^2 or 1024^3.  In particular ["1500 MB"] gives
    [1500 * 1024 * 1024], ["2.5 GB"] gives 2684354560 and ["10MB"] gives
    [10 * 1024 * 1024]. *)
Theorem parseSizeToBytes_spec :
  (forall (str : string) (numStr ip fp ws unit : list ascii),
      toLowerCase (trim (chars str)) = (numStr ++ ws ++ unit)%list ->
      decimal_numeral numStr ip fp ->
      forallb isWhiteSpace ws = true ->
      In unit unitTokens ->
      parseSizeToBytes (VString str)
      = ([], Normal (mul (round64 (numeral_value ip fp)) (Fin (multiplier unit))))
      /\ parseFloat numStr = round64 (numeral_value ip fp))
  /\ multiplier (chars "b") = 1%Q
  /\ multiplier (chars "kb") = 1024%Q
  /\ multiplier (chars "mb") = (1024 * 1024)%Q
  /\ multiplier (chars "gb") = (1024 * 1024 * 1024)%Q
  /\ parseSizeToBytes (VString "1500 MB") = ([], Normal (Fin (1500 * 1024 * 1024)))
  /\ parseSizeToBytes (VString "2.5 GB") = ([], Normal (Fin 2684354560))
  /\ parseSizeToBytes (VString "10MB") = ([], Normal (Fin (10 * 1024 * 1024))).
Proof.
  split; [|repeat split; reflexivity].
  intros str numStr ip fp ws unit Ht Hnum Hws Hu.
  split; [|apply parseFloat_numeral; assumption].
  destruct (decimal_numeral_numchars _ _ _ Hnum) as [Hn0 Hnc].
  assert (Hne : String.eqb str "" = false).
  { apply string_nonempty, trim_nonempty, toLowerCase_nonempty. rewrite Ht.
    destruct numStr; [congruence|discriminate]. }
  rewrite (parseSizeToBytes_string str Hne).
  assert (Hm : match_size (toLowerCase (trim (chars str))) = Some (numStr, unit)).
  { apply match_size_spec. split; [assumption|]. split; [assumption|].
    split; [assumption|]. exists ws. split; assumption. }
  rewrite Hm, (parseUnsigned_numeral _ _ _ Hnum). unfold convert.
  rewrite (round64_comp (numeral_value ip fp * pow10 0) (numeral_value ip fp))
    by (change (pow10 0) with 1%Q; ring).
  reflexivity.
Qed.

(** The theorem at [" 7.5 kB "]. *)
Lemma parseSizeToBytes_spec_witness :
  parseSizeToBytes (VString " 7.5 kB ")
  = ([], Normal (mul (round64 (numeral_value (chars "7") (chars "5")))
                     (Fin (multiplier (chars "kb")))))
  /\ parseFloat (chars "7.5") = round64 (numeral_value (chars "7") (chars "5")).
Proof.
  apply (proj1 parseSizeToBytes_spec " 7.5 kB " (chars "7.5") (chars "7") (chars "5")
           (chars " ") (chars "kb")).
  - reflexivity.
  - repeat split; try reflexivity. left. discriminate. right. reflexivity.
  - reflexivity.
  - simpl. tauto.
Defined.

Lemma multiplier_pos unit : 0 < multiplier unit.
Proof. unfold multiplier. repeat destruct (list_ascii_eqb _ _); reflexivity. Qed.

Lemma convert_nonnegative x unit : nonnegative x -> nonnegative (convert x unit).
Proof.
  intros Hx. unfold convert. pose proof (multiplier_pos unit) as Hm.
  destruct Hx as [->|(r & -> & Hr & _)]; cbn [mul].
  - left. unfold Qis_zero, Qsign_neg.
    destruct (Qcompare (multiplier unit) 0) eqn:Hc; try reflexivity.
    + apply Qeq_alt in Hc. lra.
    + rewrite <- Qlt_alt in Hc. lra.
  - apply round64_nonnegative. nra.
Qed.

(** C9.  On every string [parseSizeToBytes] returns normally a Number
    that is [>= 0]. *)
Theorem parseSizeToBytes_nonnegative :
  forall str : string,
    exists l v, parseSizeToBytes (VString str) = (l, Normal v) /\ ge v (Fin 0) = true.
Proof.
  intros str. destruct (String.eqb str "") eqn:He.
  - apply String.eqb_eq in He. subst str. exists [], (Fin 0). split; reflexivity.
  - rewrite (parseSizeToBytes_string str He).
    destruct (match_size _) as [[numStr unit]|].
    + destruct (parseUnsigned numStr) as [q|] eqn:Hq.
      * eexists _, _. split; [reflexivity|].
        apply nonnegative_ge, convert_nonnegative, round64_nonnegative.
        apply (parseUnsigned_nonneg _ _ Hq).
      * eexists _, _. split; reflexivity.
    + eexists _, _. split; reflexivity.
Qed.

(** C8, as amended.  A value that is not a string, and the empty string,
    return 0 with nothing logged.  A string that is not empty logs exactly
    one warning and returns 0 when its trimmed, lower-cased form does not
    match the pattern, and when it does but [parseFloat] reads NaN from the
    numeric portion. *)
Theorem parseSizeToBytes_warnings :
  (forall v : value,
      (forall s, v = VString s -> s = "") ->
      parseSizeToBytes v = ([], Normal (Fin 0)))
  /\ (forall str : string,
        str <> "" ->
        (forall numStr unit, ~ size_pattern (toLowerCase (trim (chars str))) numStr unit) ->
        parseSizeToBytes (VString str) = ([could_not_parse str], Normal (Fin 0)))
  /\ (forall (str : string) (numStr unit : list ascii),
        str <> "" ->
        size_pattern (toLowerCase (trim (chars str))) numStr unit ->
        isNaN (parseFloat numStr) = true ->
        parseSizeToBytes (VString str) = ([invalid_number str], Normal (Fin 0))).
Proof.
  split; [|split].
  - intros v Hv. destruct v as [| |b|n|s|]; try reflexivity.
    + destruct b; reflexivity.
    + destruct n as [| |q]; try reflexivity. unfold parseSizeToBytes. cbn [truthy typeof].
      destruct (negb (Qis_zero q)); reflexivity.
    + rewrite (Hv s eq_refl). reflexivity.
  - intros str Hne Hno. apply String.eqb_neq in Hne.
    rewrite (parseSizeToBytes_string str Hne).
    destruct (match_size _) as [[numStr unit]|] eqn:Hm; [|reflexivity].
    apply match_size_spec in Hm. exfalso. exact (Hno _ _ Hm).
  - intros str numStr unit Hne Hp Hnan. apply String.eqb_neq in Hne.
    rewrite (parseSizeToBytes_string str Hne).
    pose proof Hp as (_ & Hnc & _).
    apply match_size_spec in Hp. rewrite Hp.
    rewrite (parseFloat_numchars numStr Hnc) in Hnan.
    destruct (parseUnsigned numStr) as [q|] eqn:Hq; [|reflexivity].
    pose proof (round64_nonnegative q (parseUnsigned_nonneg _ _ Hq)) as Hnn.
    rewrite (nonnegative_not_NaN _ Hnn) in Hnan.
    discriminate.
Qed.

(** The theorem at ["10 TB"]. *)
Lemma parseSizeToBytes_warnings_witness :
  parseSizeToBytes (VString "10 TB") = ([could_not_parse "10 TB"], Normal (Fin 0)).
Proof.
  apply (proj1 (proj2 parseSizeToBytes_warnings) "10 TB"); [discriminate|].
  intros numStr unit Hp. apply match_size_spec in Hp. discriminate.
Defined.

(** C8 fails as it is worded on the empty string and on a missing
    argument: both are failure cases it names, both return 0, and neither
    logs a warning. *)
Lemma parseSizeToBytes_silent_failure :
  parseSizeToBytes (VString "") = ([], Normal (Fin 0))
  /\ parseSizeToBytes VUndefined = ([], Normal (Fin 0))
  /\ ~ warns (VString "") /\ ~ warns VUndefined.
Proof.
  split; [reflexivity|]. split; [reflexivity|].
  split; intros (e & [] & _).
Qed.

Lemma multi_dot_not_numeral : forall ip fp, ~ decimal_numeral (chars "1.2.3") ip fp.
Proof.
  intros ip fp (Hi & Hf & _ & [[Hs _]|H]).
  - rewrite <- Hs in Hi. discriminate.
  - destruct ip as [|a [|b ip]].
    + discriminate.
    + inversion H; subst. discriminate Hf.
    + inversion H; subst. discriminate Hi.
Qed.

(** C3 at ["1.2.3 MB"].  The numeric portion ["1.2.3"] is no decimal
    numeral, yet the call does not return 0: [parseFloat] reads the prefix
    ["1.2"], which is not NaN, and the result is [1.2 * 1024 * 1024],
    about 1258291.2, with nothing logged. *)
Theorem parseSizeToBytes_multi_dot :
  (forall ip fp, ~ decimal_numeral (chars "1.2.3") ip fp)
  /\ parseSizeToBytes (VString "1.2.3 MB")
     = ([], Normal (mul (round64 (12 # 10)) (Fin (1024 * 1024))))
  /\ exists q, mul (round64 (12 # 10)) (Fin (1024 * 1024)) = Fin q /\ 1258291 < q < 1258292.
Proof.
  split; [exact multi_dot_not_numeral|]. split; [reflexivity|].
  eexists. split; [vm_compute; reflexivity|]. split; reflexivity.
Qed.

(* --------------------------------------------------------------------- *)
(** *** What a rendering denotes *)
(* --------------------------------------------------------------------- *)

Local Close Scope string_scope.

Lemma digitVal_digitChar d : (0 <= d < 10)%Z -> digitVal (digitChar d) = d.
Proof.
  intros H.
  assert (Hc : (d = 0 \/ d = 1 \/ d = 2 \/ d = 3 \/ d = 4 \/ d = 5 \/ d = 6
               \/ d = 7 \/ d = 8 \/ d = 9)%Z) by lia.
  repeat (destruct Hc as [-> | Hc]; [reflexivity|]). subst d. reflexivity.
Qed.

Lemma digitsVal_snoc s c : digitsVal (s ++ [c]) = (10 * digitsVal s + digitVal c)%Z.
Proof. unfold digitsVal. rewrite fold_left_app. reflexivity. Qed.

Lemma digitsVal_digits_fuel f : forall n,
  (0 <= n < 2 ^ Z.of_nat f)%Z -> digitsVal (digits n) = n.
Proof.
  induction f as [|f IH]; intros n Hn.
  - simpl in Hn. rewrite digits_small by lia.
    unfold digitsVal. cbn [fold_left]. rewrite digitVal_digitChar by lia. lia.
  - destruct (Z_lt_le_dec n 10).
    + rewrite digits_small by lia.
      unfold digitsVal. cbn [fold_left]. rewrite digitVal_digitChar by lia. lia.
    + rewrite digits_step by assumption. rewrite digitsVal_snoc.
      rewrite digitVal_digitChar by (apply Z.mod_pos_bound; lia).
      rewrite IH.
      * symmetry. apply Z.div_mod. lia.
      * rewrite Nat2Z.inj_succ, Z.pow_succ_r in Hn by lia.
        split; [apply Z.div_pos; lia|apply Z.div_lt_upper_bound; lia].
Qed.

(** [digits] writes a natural number in base ten. *)
Lemma digitsVal_digits n : (0 <= n)%Z -> digitsVal (digits n) = n.
Proof. intros Hn. apply (digitsVal_digits_fuel _ n (digits_fuel_ok n Hn)). Qed.

(** [render1 x] is a decimal numeral, and what it denotes is the number of
    tenths nearest to [x]. *)
Lemma render1_numeral x :
  0 <= x ->
  let n := half_up_tenths x in
  decimal_numeral (chars (render1 x)) (digits (n / 10)) [digitChar (n mod 10)]
  /\ numeral_value (digits (n / 10)) [digitChar (n mod 10)] == inject_Z n / 10.
Proof.
  intros Hx n. pose proof (half_up_tenths_nonneg x Hx) as Hn. fold n in Hn.
  assert (Hd : (0 <= n / 10)%Z) by (apply Z.div_pos; lia).
  assert (Hm : (0 <= n mod 10 < 10)%Z) by (apply Z.mod_pos_bound; lia).
  split.
  - split; [|split; [|split]].
    + apply (digits_all_digit_fuel _ _ (digits_fuel_ok _ Hd)).
    + cbn [forallb]. rewrite isDigit_digitChar by assumption. reflexivity.
    + right. discriminate.
    + right. unfold render1, chars. fold n.
      apply list_ascii_of_string_of_list_ascii.
  - unfold numeral_value. rewrite digitsVal_snoc, digitsVal_digits by assumption.
    rewrite digitVal_digitChar by assumption.
    rewrite <- (Z.div_mod n 10) by lia. reflexivity.
Qed.

(* --------------------------------------------------------------------- *)
(** *** getDirectorySize and getAvailableDiskSpace *)
(* --------------------------------------------------------------------- *)

Section DirectorySize.

Variable join : string -> string -> string.

Lemma getDirectorySize_unfold dirPath node :
  getDirectorySize join dirPath node =
  returning_totalSize
    (try_stmt
       (fun totalSize =>
          match readdir node with
          | inr items => for_of (visit join (getDirectorySize join) dirPath) items totalSize
          | inl e => (totalSize, throw e)
          end)
       (on_error dirPath)).
Proof. destruct node; reflexivity. Qed.


Lemma getDirectorySize_unlistable dirPath node e :
  readdir node = inl e ->
  getDirectorySize join dirPath node =
  ([ {| level := LogError;
        text := ("[DiskSpace] Error calculating directory size for " ++ dirPath ++ ":")%string;
        cause := Some e |} ], Normal (Fin 0)).
Proof.
  intros H. rewrite getDirectorySize_unfold, H. reflexivity.
Qed.

Lemma of_N_inject n : (n <= 2 ^ 53)%N -> of_N n = Fin (inject_Z (Z.of_N n)).
Proof. apply of_N_exact. Qed.

Lemma add_N_exact a b :
  (a + b <= 2 ^ 53)%N ->
  add (Fin (inject_Z (Z.of_N a))) (Fin (inject_Z (Z.of_N b)))
  = Fin (inject_Z (Z.of_N (a + b))).
Proof.
  intros H. rewrite N2Z.inj_add. apply add_inject_Z.
  assert (Z.of_N (a + b) <= 2 ^ 53)%Z by (change (2 ^ 53)%Z with (Z.of_N (2 ^ 53)); lia).
  lia.
Qed.

Lemma for_of_exact dirPath items :
  Forall (fun e => exact_size join (snd e)) items ->
  forall a : N,
    (a + files_total (Directory items) <= 2 ^ 53)%N ->
    exists l,
      for_of (visit join (getDirectorySize join) dirPath) items (Fin (inject_Z (Z.of_N a)))
      = (Fin (inject_Z (Z.of_N (a + files_total (Directory items)))), (l, Normal tt)).
Proof.
  induction 1 as [|[name item] items Hitem Hrest IH]; intros a Hbound.
  - exists []. cbn [files_total fold_right for_of]. rewrite N.add_0_r. reflexivity.
  - cbn [for_of]. unfold seq.
    change (files_total (Directory ((name, item) :: items)))
      with (files_total item + files_total (Directory items))%N in *.
    cbn [snd] in Hitem.
    assert (Hstep : exists l,
               visit join (getDirectorySize join) dirPath (name, item) (Fin (inject_Z (Z.of_N a)))
               = (Fin (inject_Z (Z.of_N (a + files_total item))), (l, Normal tt))).
    { unfold visit. destruct item as [sub|e|bytes|e|].
      - cbn [isDirectory]. unfold add_await.
        destruct (Hitem (join dirPath name)) as [l Hl]; [cbn [directory_total]; lia|].
        rewrite Hl. exists l. cbn [directory_total]. rewrite add_N_exact by lia. reflexivity.
      - cbn [isDirectory]. unfold add_await.
        destruct (Hitem (join dirPath name)) as [l Hl]; [cbn [directory_total]; lia|].
        rewrite Hl. exists l. change (files_total (Unlistable e)) with 0%N in *.
        cbn [directory_total]. rewrite add_N_exact by lia. reflexivity.
      - change (files_total (RegularFile bytes)) with bytes in *.
        cbn [isDirectory isFile stat]. eexists.
        unfold try_stmt, add_await, await, bind, ret. cbn [stats_size].
        rewrite of_N_inject by lia. rewrite add_N_exact by lia. reflexivity.
      - change (files_total (Unreadable e)) with 0%N in *.
        cbn [isDirectory isFile stat]. eexists. rewrite N.add_0_r. reflexivity.
      - change (files_total Special) with 0%N in *.
        cbn [isDirectory isFile]. eexists. rewrite N.add_0_r. reflexivity. }
    destruct Hstep as [l Hl]. rewrite Hl.
    destruct (IH (a + files_total item)%N) as [l' Hl']; [lia|].
    rewrite Hl'. exists (l ++ l')%list. rewrite N.add_assoc. reflexivity.
Qed.

Lemma getDirectorySize_exact node : exact_size join node.
Proof.
  induction node as [items IH|e|n|e|] using fsnode_nested_ind; intros dirPath Hb.
  - cbn [directory_total] in *.
    destruct (for_of_exact dirPath items IH 0%N) as [l Hl]; [lia|].
    exists l. change (getDirectorySize join dirPath (Directory items))
      with (returning_totalSize
              (try_stmt (for_of (visit join (getDirectorySize join) dirPath) items)
                 (on_error dirPath))).
    unfold returning_totalSize, try_stmt. change (Fin 0) with (Fin (inject_Z (Z.of_N 0))).
    rewrite Hl. rewrite N.add_0_l. reflexivity.
  - eexists. reflexivity.
  - eexists. reflexivity.
  - eexists. reflexivity.
  - eexists. reflexivity.
Qed.

End DirectorySize.

Local Open Scope string_scope.

Lemma files_total_app pre post :
  files_total (Directory (pre ++ post))
  = (files_total (Directory pre) + files_total (Directory post))%N.
Proof.
  induction pre as [|e pre IH]; [reflexivity|].
  change (files_total (Directory ((e :: pre) ++ post)))
    with (files_total (snd e) + files_total (Directory (pre ++ post)))%N.
  change (files_total (Directory (e :: pre)))
    with (files_total (snd e) + files_total (Directory pre))%N.
  rewrite IH. lia.
Qed.

Lemma files_total_cons e items :
  files_total (Directory (e :: items))
  = (files_total (snd e) + files_total (Directory items))%N.
Proof. reflexivity. Qed.

Lemma files_total_perm items items' :
  Permutation items items' ->
  files_total (Directory items) = files_total (Directory items').
Proof.
  induction 1 as [|e l l' Hp IH|e1 e2 l|l1 l2 l3 H1 IH1 H2 IH2].
  - reflexivity.
  - rewrite !files_total_cons, IH. reflexivity.
  - rewrite !files_total_cons. lia.
  - congruence.
Qed.

(** The total is a sum over the files, whatever the order of the listings. *)
Lemma files_total_reorder node node' :
  reorder node node' -> files_total node = files_total node'.
Proof.
  induction 1 as [n|items items' Hp|pre name item item' post Hr IH|n1 n2 n3 H1 IH1 H2 IH2].
  - reflexivity.
  - apply files_total_perm. assumption.
  - rewrite !files_total_app, !files_total_cons. cbn [snd]. rewrite IH. reflexivity.
  - congruence.
Qed.

Lemma reorder_directory node node' :
  reorder node node' ->
  (exists items, node = Directory items) -> exists items', node' = Directory items'.
Proof.
  induction 1; intros Hd; eauto.
Qed.

Section Traversal.

Variable join : string -> string -> string.

Lemma seq_observe s1 s2 t :
  observe (seq s1 s2 t) =
  match observe (s1 t) with
  | (t1, Normal _) => observe (s2 t1)
  | (t1, Throw e) => (t1, Throw e)
  end.
Proof.
  unfold seq, observe. destruct (s1 t) as [t1 [l [u|e]]]; cbn [fst snd]; [|reflexivity].
  destruct (s2 t1) as [t2 [l2 c2]]. reflexivity.
Qed.

Lemma for_of_app_observe {A} (body : A -> stmt) l1 l2 : forall t,
  observe (for_of body (l1 ++ l2) t)
  = observe (seq (for_of body l1) (for_of body l2) t).
Proof.
  induction l1 as [|x l1 IH]; intros t.
  - rewrite seq_observe. reflexivity.
  - change (for_of body ((x :: l1) ++ l2)) with (seq (body x) (for_of body (l1 ++ l2))).
    change (for_of body (x :: l1)) with (seq (body x) (for_of body l1)).
    rewrite !seq_observe. destruct (observe (body x t)) as [t1 [u|e]]; [|reflexivity].
    rewrite IH, seq_observe. reflexivity.
Qed.

Lemma outcome_directory dirPath items :
  outcome (getDirectorySize join dirPath (Directory items))
  = Normal (fst (for_of (visit join (getDirectorySize join) dirPath) items (Fin 0))).
Proof.
  change (getDirectorySize join dirPath (Directory items))
    with (returning_totalSize
            (try_stmt (for_of (visit join (getDirectorySize join) dirPath) items)
               (on_error dirPath))).
  unfold returning_totalSize, try_stmt.
  destruct (for_of _ items (Fin 0)) as [t [l [u|e]]]; reflexivity.
Qed.


End Traversal.

(** C4, as amended.  Take a directory and the regular files under it, at
    any depth, that the traversal can count: those whose status can be
    read, in directories that can be listed.  When they total at most 2^53
    bytes, [getDirectorySize] returns that total: subdirectories are
    entered, regular files counted, other entries ignored; a regular file
    whose status cannot be read and a subdirectory that cannot be listed
    count for nothing, wherever they stand; the result is the same for
    every order of the listings; an empty directory yields 0. *)
Theorem getDirectorySize_sum :
  forall (join : string -> string -> string) (dirPath : string)
         (items : list (string * fsnode)),
    (files_total (Directory items) <= 2 ^ 53)%N ->
    outcome (getDirectorySize join dirPath (Directory items))
    = Normal (Fin (inject_Z (Z.of_N (files_total (Directory items)))))
    /\ (forall node',
          reorder (Directory items) node' ->
          outcome (getDirectorySize join dirPath node')
          = outcome (getDirectorySize join dirPath (Directory items)))
    /\ getDirectorySize join dirPath (Directory []) = ([], Normal (Fin 0))
    /\ (forall pre name e post,
          files_total (Directory (pre ++ (name, Unreadable e) :: post))
          = files_total (Directory (pre ++ post)))
    /\ (forall pre name e post,
          files_total (Directory (pre ++ (name, Unlistable e) :: post))
          = files_total (Directory (pre ++ post))).
Proof.
  intros join dirPath items Hb.
  assert (Hval : forall its, (files_total (Directory its) <= 2 ^ 53)%N ->
            outcome (getDirectorySize join dirPath (Directory its))
            = Normal (Fin (inject_Z (Z.of_N (files_total (Directory its)))))).
  { intros its Hi. destruct (getDirectorySize_exact join (Directory its) dirPath Hi) as [l Hl].
    rewrite Hl. reflexivity. }
  split; [apply Hval; assumption|]. split; [|split; [reflexivity|]].
  - intros node' Hr.
    destruct (reorder_directory _ _ Hr (ex_intro _ items eq_refl)) as [items' ->].
    pose proof (files_total_reorder _ _ Hr) as Hf.
    rewrite !Hval by (rewrite <- ?Hf; assumption). rewrite Hf. reflexivity.
  - split; intros pre name e post;
      rewrite !files_total_app, files_total_cons; reflexivity.
Qed.

(** The theorem on a directory with a subdirectory, a file of 100 bytes, a
    symbolic link, a file whose status cannot be read and a subdirectory
    that cannot be listed. *)
Lemma getDirectorySize_sum_witness :
  outcome (getDirectorySize posix_join "/data"
             (Directory [("sub", Directory [("x", RegularFile 5); ("l", Special)]);
                         ("locked", Unreadable {| errcode := "EACCES" |});
                         ("b", RegularFile 100);
                         ("gone", Unlistable {| errcode := "EACCES" |})]))
  = Normal (Fin 105).
Proof.
  refine (proj1 (getDirectorySize_sum posix_join "/data"
                   [("sub", Directory [("x", RegularFile 5); ("l", Special)]);
                    ("locked", Unreadable {| errcode := "EACCES" |});
                    ("b", RegularFile 100);
                    ("gone", Unlistable {| errcode := "EACCES" |})] _)).
  vm_compute. discriminate.
Defined.

(** C4 fails as it is worded beyond 2^53 bytes: the additions of
    [totalSize] round.  With files of 2^53, 1 and 1 bytes the result is
    2^53 when the large file is listed first, and [2^53 + 2], the sum,
    when it is listed last. *)
Lemma getDirectorySize_order_dependent :
  Permutation big_first big_last
  /\ files_total (Directory big_first) = (2 ^ 53 + 2)%N
  /\ outcome (getDirectorySize posix_join "/data" (Directory big_first))
     = Normal (Fin (inject_Z (2 ^ 53)))
  /\ outcome (getDirectorySize posix_join "/data" (Directory big_last))
     = Normal (Fin (inject_Z (2 ^ 53 + 2))).
Proof.
  split; [|repeat split; reflexivity].
  unfold big_first, big_last.
  exact (Permutation_cons_append [("b", RegularFile 1); ("c", RegularFile 1)]
           ("a", RegularFile (2 ^ 53))).
Qed.



Lemma mul_N_exact a b :
  (a <= 2 ^ 53)%N -> (b <= 2 ^ 53)%N -> (a * b <= 2 ^ 53)%N ->
  mul (of_N a) (of_N b) = Fin (inject_Z (Z.of_N (a * b))).
Proof.
  intros Ha Hb Hab. rewrite !of_N_exact by assumption. cbn [mul].
  rewrite (round64_comp _ (inject_Z (Z.of_N (a * b))))
    by (rewrite N2Z.inj_mul, inject_Z_mult; reflexivity).
  apply of_N_exact. assumption.
Qed.

(** C6.  When [statfs] answers, [getAvailableDiskSpace] returns
    [bavail * bsize], the exact product while it fits in 53 bits; when
    [statfs] fails it logs an error and returns [null]; it never throws. *)
Theorem getAvailableDiskSpace_spec :
  forall (statfs : string -> error + statfs_t) (path : string),
    (forall s,
        statfs path = inr s ->
        getAvailableDiskSpace statfs path
        = ([], Normal (Some (mul (of_N (f_bavail s)) (of_N (f_bsize s)))))
        /\ ((f_bavail s <= 2 ^ 53)%N -> (f_bsize s <= 2 ^ 53)%N ->
            (f_bavail s * f_bsize s <= 2 ^ 53)%N ->
            mul (of_N (f_bavail s)) (of_N (f_bsize s))
            = Fin (inject_Z (Z.of_N (f_bavail s * f_bsize s)))))
    /\ (forall e,
          statfs path = inl e ->
          getAvailableDiskSpace statfs path
          = ([ {| level := LogError;
                  text := "[DiskSpace] Error checking disk space for " ++ path ++ ":";
                  cause := Some e |} ], Normal None))
    /\ exists l r, getAvailableDiskSpace statfs path = (l, Normal r).
Proof.
  intros statfs path. unfold getAvailableDiskSpace. split; [|split].
  - intros s Hs. rewrite Hs. split; [reflexivity|]. apply mul_N_exact.
  - intros e He. rewrite He. reflexivity.
  - destruct (statfs path); eexists _, _; reflexivity.
Qed.

(** The theorem on a file system with 1000 free blocks of 4096 bytes, and
    on a missing path. *)
Lemma getAvailableDiskSpace_spec_witness :
  getAvailableDiskSpace (fun _ => inr {| f_bavail := 1000; f_bsize := 4096 |}) "/data"
  = ([], Normal (Some (Fin 4096000)))
  /\ getAvailableDiskSpace (fun _ => inl ENOENT) "/missing"
     = ([ {| level := LogError;
             text := "[DiskSpace] Error checking disk space for /missing:";
             cause := Some ENOENT |} ], Normal None).
Proof.
  split.
  - apply (proj1 (getAvailableDiskSpace_spec
                    (fun _ => inr {| f_bavail := 1000; f_bsize := 4096 |}) "/data")
             {| f_bavail := 1000; f_bsize := 4096 |}). reflexivity.
  - apply (proj1 (proj2 (getAvailableDiskSpace_spec (fun _ => inl ENOENT) "/missing"))
             ENOENT). reflexivity.
Defined.

(* --------------------------------------------------------------------- *)
(** *** debounce *)
(* --------------------------------------------------------------------- *)

Local Close Scope Q_scope.
Local Open Scope Z_scope.

Local Close Scope string_scope.

Lemma timer_delay_pos wait : 1 <= timer_delay wait.
Proof.
  unfold timer_delay. destruct (Z.leb_spec 1 wait); cbn [andb]; [|lia].
  destruct (Z.leb_spec wait TIMEOUT_MAX); lia.
Qed.

Lemma timer_delay_in_range wait : 1 <= wait <= TIMEOUT_MAX -> timer_delay wait = wait.
Proof.
  intros [H1 H2]. unfold timer_delay.
  apply Z.leb_le in H1. apply Z.leb_le in H2. rewrite H1, H2. reflexivity.
Qed.

Lemma timer_delay_out_of_range wait :
  wait < 1 \/ TIMEOUT_MAX < wait -> timer_delay wait = 1.
Proof.
  intros H. unfold timer_delay. destruct (Z.leb_spec 1 wait); cbn [andb]; [|reflexivity].
  destruct (Z.leb_spec wait TIMEOUT_MAX); [lia|reflexivity].
Qed.

Section DebounceProofs.

Context {Args : Type}.

(** A call supersedes the pending timer exactly when the loop has not run
    it on the way to the call. *)
Lemma superseded_not_run d t (c : invocation Args) :
  superseded d t c
  = negb (t + d <=? (if after_due c then at_time c else at_time c - 1)).
Proof.
  unfold superseded. destruct (after_due c); cbn [negb andb].
  - rewrite andb_false_r, orb_false_r. destruct (Z.ltb_spec (at_time c) (t + d)),
      (Z.leb_spec (t + d) (at_time c)); try reflexivity; lia.
  - rewrite andb_true_r.
    destruct (Z.ltb_spec (at_time c) (t + d)), (Z.eqb_spec (at_time c) (t + d)),
      (Z.leb_spec (t + d) (at_time c - 1)); try reflexivity; lia.
Qed.

Lemma call_armed wait h t (a : Args) n d (c : invocation Args) :
  t <= at_time c ->
  call wait (passed c)
    (fst (armed wait h t a n d),
     advance (at_time c) (after_due c) (snd (armed wait h t a n d)))
  = armed wait n (at_time c) (passed c) (S n)
      (if superseded (timer_delay wait) t c then d
       else d ++ [(t + timer_delay wait, a)]).
Proof.
  intros Ht. rewrite superseded_not_run. pose proof (timer_delay_pos wait) as Hd.
  unfold armed, call, advance.
  cbn [fst snd pending List.length run_due earliest due].
  set (lim := if after_due c then at_time c else at_time c - 1).
  assert (Hlim : lim <= at_time c) by (unfold lim; destruct (after_due c); lia).
  destruct (Z.leb_spec (t + timer_delay wait) lim) as [Hfire|Hkeep]; cbn [negb].
  - unfold run_timer, setTimeout, clearTimeout.
    cbn [now pending next_handle delivered timeout handle due timer_args filter].
    rewrite Nat.eqb_refl. cbn [negb filter app].
    rewrite (Z.max_r t (t + timer_delay wait)) by lia.
    rewrite (Z.max_r (t + timer_delay wait) (at_time c)) by lia.
    reflexivity.
  - unfold setTimeout, clearTimeout.
    cbn [now pending next_handle delivered timeout handle due timer_args filter].
    rewrite Nat.eqb_refl. cbn [negb filter app].
    rewrite (Z.max_r t (at_time c)) by lia. reflexivity.
Qed.

Lemma drain_armed wait h t (a : Args) n d :
  delivered (drain (snd (armed wait h t a n d))) = d ++ [(t + timer_delay wait, a)].
Proof.
  pose proof (timer_delay_pos wait) as Hd. unfold armed, drain.
  cbn [snd pending List.length run_due earliest due map fold_right now].
  replace (t + timer_delay wait <=? Z.max (t + timer_delay wait) t) with true
    by (symmetry; apply Z.leb_le; lia).
  unfold run_timer. cbn [delivered now due timer_args].
  rewrite (Z.max_r t (t + timer_delay wait)) by lia. reflexivity.
Qed.

Lemma expected_cons d (c c' : invocation Args) rest :
  expected d (c :: c' :: rest)
  = if superseded d (at_time c) c' then expected d (c' :: rest)
    else (at_time c + d, passed c) :: expected d (c' :: rest).
Proof. reflexivity. Qed.

Lemma expected_head d (c0 c1 : invocation Args) calls :
  at_time c0 = at_time c1 -> passed c0 = passed c1 ->
  expected d (c0 :: calls) = expected d (c1 :: calls).
Proof.
  intros Ht Hp. destruct calls as [|c' rest].
  - cbn [expected]. rewrite Ht, Hp. reflexivity.
  - rewrite !expected_cons, Ht, Hp. reflexivity.
Qed.

Lemma run_calls_armed wait :
  forall (calls : list (invocation Args)) h t a n d f,
    ascending t calls ->
    delivered (drain (snd (run_calls wait calls (armed wait h t a n d))))
    = d ++ expected (timer_delay wait)
             ({| at_time := t; after_due := f; passed := a |} :: calls).
Proof.
  induction calls as [|c rest IH]; intros h t a n d f Hasc.
  - apply drain_armed.
  - destruct Hasc as [Ht Hrest].
    change (run_calls wait (c :: rest) (armed wait h t a n d))
      with (run_calls wait rest
              (call wait (passed c)
                 (fst (armed wait h t a n d),
                  advance (at_time c) (after_due c) (snd (armed wait h t a n d))))).
    rewrite call_armed by assumption.
    rewrite (IH _ _ _ _ _ (after_due c) Hrest).
    rewrite (expected_head _ {| at_time := at_time c; after_due := after_due c;
                                passed := passed c |} c rest eq_refl eq_refl).
    rewrite expected_cons. cbn [at_time passed].
    destruct (superseded (timer_delay wait) t c); [reflexivity|].
    rewrite <- app_assoc. reflexivity.
Qed.

(** The deliveries of a run, for every [wait]. *)
Lemma debounce_trace_expected wait (calls : list (invocation Args)) :
  ascending 0 calls ->
  debounce_trace wait calls = expected (timer_delay wait) calls.
Proof.
  intros Hasc. unfold debounce_trace. destruct calls as [|c0 rest]; [reflexivity|].
  destruct Hasc as [H0 Hrest].
  change (run_calls wait (c0 :: rest) (debounce wait, start))
    with (run_calls wait rest
            (call wait (passed c0)
               (debounce wait, advance (at_time c0) (after_due c0) start))).
  assert (Hfirst : call wait (passed c0)
                     (debounce wait, advance (at_time c0) (after_due c0) start)
                   = armed wait 1 (at_time c0) (passed c0) 2 []).
  { unfold call, debounce, advance, start, setTimeout, armed.
    cbn [fst snd pending List.length run_due now next_handle delivered timeout app].
    rewrite (Z.max_r 0 (at_time c0)) by lia. reflexivity. }
  rewrite Hfirst, (run_calls_armed wait rest 1%nat _ _ 2%nat [] (after_due c0) Hrest).
  apply (expected_head _ _ c0 rest eq_refl eq_refl).
Qed.

Lemma expected_burst d : forall (calls : list (invocation Args)) c,
  burst d (calls ++ [c]) -> expected d (calls ++ [c]) = [(at_time c + d, passed c)].
Proof.
  induction calls as [|c0 calls IH]; intros c Hb; [reflexivity|].
  assert (Hnext : exists c1 r, calls ++ [c] = c1 :: r).
  { destruct calls as [|c1 r]; simpl; eauto. }
  destruct Hnext as (c1 & r & Hn).
  change ((c0 :: calls) ++ [c]) with (c0 :: (calls ++ [c])) in *.
  rewrite Hn in Hb. cbn [burst] in Hb. destruct Hb as [Hlt Hb].
  rewrite Hn, expected_cons. unfold superseded.
  replace (at_time c1 <? at_time c0 + d) with true
    by (symmetry; apply Z.ltb_lt; assumption).
  cbn [orb]. rewrite <- Hn. apply IH. rewrite Hn. exact Hb.
Qed.

(** Outside the range of delays the platform takes, [wait] acts as 1. *)
Lemma run_calls_out_of_range wait :
  wait < 1 \/ TIMEOUT_MAX < wait ->
  forall (calls : list (invocation Args)) st,
    run_calls wait calls st = run_calls 1 calls st.
Proof.
  intros Hw. pose proof (timer_delay_out_of_range wait Hw) as Hd.
  assert (Hcall : forall (a : Args) st, call wait a st = call 1 a st).
  { intros a [w el]. unfold call, setTimeout. rewrite Hd. reflexivity. }
  induction calls as [|c rest IH]; intros st; [reflexivity|].
  change (run_calls wait (c :: rest) st)
    with (run_calls wait rest
            (call wait (passed c) (fst st, advance (at_time c) (after_due c) (snd st)))).
  change (run_calls 1 (c :: rest) st)
    with (run_calls 1 rest
            (call 1 (passed c) (fst st, advance (at_time c) (after_due c) (snd st)))).
  rewrite IH, Hcall. reflexivity.
Qed.

End DebounceProofs.

(** C7, as amended.  For a whole number of milliseconds [wait] from 1 to
    2^31 - 1, every call of the wrapper cancels the pending timer of that
    wrapper and sets a new one, [wait] later, with the arguments of the
    call: the callback receives the calls that no other call supersedes,
    each [wait] after it was made, where the call made at [t] is
    superseded by a next call before [t + wait], and by one at the very
    instant [t + wait] when that call runs before the timer; a burst of
    calls less than [wait] apart is delivered once, with the arguments of
    the last.  Every other [wait] acts as 1.  Calls at 0, 10 and 20 with
    [wait = 50] give one delivery, at 70, of the third. *)
Theorem debounce_trailing_call :
  (forall (Args : Type) (wait : Z) (calls : list (invocation Args)),
      1 <= wait <= TIMEOUT_MAX -> ascending 0 calls ->
      debounce_trace wait calls = expected wait calls
      /\ (forall c before,
            calls = before ++ [c] -> burst wait calls ->
            debounce_trace wait calls = [(at_time c + wait, passed c)]))
  /\ (forall (Args : Type) (wait : Z) (calls : list (invocation Args)),
        wait < 1 \/ TIMEOUT_MAX < wait ->
        debounce_trace wait calls = debounce_trace 1 calls)
  /\ (forall f1 f2 f3 : bool,
        debounce_trace 50
          [ {| at_time := 0; after_due := f1; passed := "first"%string |};
            {| at_time := 10; after_due := f2; passed := "second"%string |};
            {| at_time := 20; after_due := f3; passed := "third"%string |} ]
        = [(70, "third"%string)]).
Proof.
  split; [|split].
  - intros Args wait calls Hw Hasc.
    pose proof (debounce_trace_expected wait calls Hasc) as Hmain.
    rewrite (timer_delay_in_range wait Hw) in Hmain.
    split; [exact Hmain|].
    intros c before -> Hb. rewrite Hmain. apply expected_burst. exact Hb.
  - intros Args wait calls Hw. unfold debounce_trace.
    rewrite (run_calls_out_of_range wait Hw). reflexivity.
  - intros [] [] []; reflexivity.
Qed.

(** The theorem on calls at 0, 60 and 100 with [wait = 50]. *)
Lemma debounce_trailing_call_witness :
  debounce_trace 50
    [ {| at_time := 0; after_due := true; passed := 1%nat |};
      {| at_time := 60; after_due := false; passed := 2%nat |};
      {| at_time := 100; after_due := true; passed := 3%nat |} ]
  = [(50, 1%nat); (150, 3%nat)].
Proof.
  refine (proj1 (proj1 debounce_trailing_call nat 50
                   [ {| at_time := 0; after_due := true; passed := 1%nat |};
                     {| at_time := 60; after_due := false; passed := 2%nat |};
                     {| at_time := 100; after_due := true; passed := 3%nat |} ] _ _)).
  - unfold TIMEOUT_MAX. lia.
  - simpl. lia.
Defined.

(** C7 fails as it is worded at [wait = 2^31]: the platform sets the timer
    with a delay of 1.  With calls at 0 and 10 the second call comes long
    before [wait] has elapsed, yet the callback runs twice, at 1 with the
    arguments of the first call and at 11 with those of the second.  (No
    call falls on the instant a timer is due.) *)
Lemma debounce_wait_out_of_range :
  debounce_trace (2 ^ 31)
    [ {| at_time := 0; after_due := true; passed := "first"%string |};
      {| at_time := 10; after_due := true; passed := "second"%string |} ]
  = [(1, "first"%string); (11, "second"%string)]
  /\ (10 < 0 + 2 ^ 31)
  /\ ~ debounce_as_specified (2 ^ 31)
         [ {| at_time := 0; after_due := true; passed := "first"%string |};
           {| at_time := 10; after_due := true; passed := "second"%string |} ].
Proof.
  split; [reflexivity|]. split; [reflexivity|].
  unfold debounce_as_specified. discriminate.
Qed.

(* --------------------------------------------------------------------- *)
(** *** formatBytes: the unit and the value displayed *)
(* --------------------------------------------------------------------- *)

Local Close Scope Z_scope.
Local Open Scope Q_scope.
Local Open Scope string_scope.

Lemma iterates_unitIndex k st st' :
  iterates k st st' -> unitIndex st' = (unitIndex st + k)%nat.
Proof.
  induction 1 as [st Hg|k st st' Hg Hit IH]; [lia|].
  rewrite IH. cbn [body unitIndex]. lia.
Qed.

Lemma unit_index_le_4 bytes : (unit_index bytes <= 4)%nat.
Proof.
  unfold unit_index.
  destruct (iterates_scale_loop 4 {| size := bytes; unitIndex := 0 |} eq_refl)
    as (k & Hk & Hit).
  rewrite (iterates_unitIndex _ _ _ Hit). cbn [unitIndex]. lia.
Qed.

Lemma unit_index_scaled b :
  binary64 b -> 0 <= b ->
  exists r,
    formatBytes (Fin b) = toFixed (Fin r) 1 ++ " " ++ unit_of (unit_index (Fin b))
    /\ r == b / Qpow1024 (unit_index (Fin b))
    /\ ((unit_index (Fin b) < 4)%nat -> r < 1024)
    /\ ((0 < unit_index (Fin b))%nat -> Qpow1024 (unit_index (Fin b)) <= b).
Proof.
  intros Hb H0.
  destruct (scale_loop_spec 4 0 b eq_refl Hb H0) as (r & k & Hl & Hk & Hr & Hlt & Hge).
  assert (Hi : unit_index (Fin b) = k).
  { unfold unit_index. rewrite Hl. reflexivity. }
  exists r. rewrite Hi. unfold formatBytes. rewrite Hl. cbn [size unitIndex Nat.add].
  repeat split; assumption.
Qed.

(** The unit is determined by the powers of 1024 around the byte count. *)
Lemma unit_index_between b i :
  binary64 b -> 0 <= b -> (i <= 4)%nat ->
  ((0 < i)%nat -> Qpow1024 i <= b) ->
  ((i < 4)%nat -> b < Qpow1024 (S i)) ->
  unit_index (Fin b) = i.
Proof.
  intros Hb H0 Hi Hlo Hhi.
  destruct (unit_index_scaled b Hb H0) as (r & _ & Hr & Hlt & Hge).
  pose proof (unit_index_le_4 (Fin b)) as H4.
  set (k := unit_index (Fin b)) in *.
  pose proof (Qpow1024_pos k) as Hpk.
  pose proof (Qdiv_mul_back r b _ Hpk Hr) as Hbk.
  destruct (Nat.lt_trichotomy k i) as [Hlt'|[Heq|Hgt]]; [exfalso|assumption|exfalso].
  - assert (Hr' : r < 1024) by (apply Hlt; lia).
    pose proof (Qpow1024_mono (S k) i ltac:(lia)) as Hm. rewrite Qpow1024_S in Hm.
    pose proof (Hlo ltac:(lia)) as Hb'.
    revert Hm Hb' Hbk Hr' Hpk. generalize (Qpow1024 i) (Qpow1024 k). clear.
    intros pi pk. intros. nra.
  - pose proof (Hge ltac:(lia)) as Hk'.
    pose proof (Qpow1024_mono (S i) k ltac:(lia)) as Hm.
    pose proof (Hhi ltac:(lia)) as Hb'. lra.
Qed.

(** X1.  The unit never gets smaller as the byte count grows: for finite
    Numbers [0 <= b <= b'], the unit index [formatBytes] stops at for [b]
    is at most the one it stops at for [b']. *)
Theorem formatBytes_unit_monotone :
  forall b b' : Q,
    binary64 b -> binary64 b' -> 0 <= b -> b <= b' ->
    (unit_index (Fin b) <= unit_index (Fin b'))%nat.
Proof.
  intros b b' Hb Hb' H0 Hle.
  destruct (unit_index_scaled b Hb H0) as (r & _ & Hr & Hlt & Hge).
  destruct (unit_index_scaled b' Hb' ltac:(lra)) as (r' & _ & Hr' & Hlt' & Hge').
  set (k := unit_index (Fin b)) in *. set (k' := unit_index (Fin b')) in *.
  destruct (le_gt_dec k k') as [|Hgt]; [assumption|exfalso].
  pose proof (Qpow1024_pos k') as Hpk'.
  pose proof (Qdiv_mul_back r' b' _ Hpk' Hr') as Hbk.
  pose proof (unit_index_le_4 (Fin b)) as H4. fold k in H4.
  assert (Hr1 : r' < 1024) by (apply Hlt'; lia).
  pose proof (Hge ltac:(lia)) as Hk.
  pose proof (Qpow1024_mono (S k') k ltac:(lia)) as Hm. rewrite Qpow1024_S in Hm.
  revert Hm Hk Hbk Hr1 Hpk' Hle. generalize (Qpow1024 k) (Qpow1024 k'). clear.
  intros pk pk'. intros. nra.
Qed.

(** The theorem at 1000 and 5000 bytes. *)
Lemma formatBytes_unit_monotone_witness :
  (unit_index (Fin 1000) <= unit_index (Fin 5000))%nat.
Proof.
  apply formatBytes_unit_monotone.
  - exists 1000%Z, 0%Z. split; [reflexivity|]. split; [lia|reflexivity].
  - exists 5000%Z, 0%Z. split; [reflexivity|]. split; [lia|reflexivity].
  - discriminate.
  - discriminate.
Defined.

Lemma string_length_append (a b : string) :
  String.length (a ++ b) = (String.length a + String.length b)%nat.
Proof. induction a as [|c a IH]; [reflexivity|]. simpl. rewrite IH. reflexivity. Qed.

Lemma string_length_of_list (l : list ascii) :
  String.length (string_of_list_ascii l) = List.length l.
Proof. induction l as [|c l IH]; [reflexivity|]. simpl. rewrite IH. reflexivity. Qed.

Lemma digits_length_le k : forall n,
  (0 < k)%nat -> (0 <= n < 10 ^ Z.of_nat k)%Z -> (List.length (digits n) <= k)%nat.
Proof.
  induction k as [|k IH]; intros n Hk Hn; [lia|].
  destruct (Z_lt_le_dec n 10) as [Hs|Hb].
  - rewrite digits_small by lia. simpl. lia.
  - rewrite digits_step by assumption. rewrite length_app. cbn [List.length].
    rewrite Nat2Z.inj_succ, Z.pow_succ_r in Hn by lia.
    assert (Hd : (0 <= n / 10 < 10 ^ Z.of_nat k)%Z).
    { split; [apply Z.div_pos; lia|apply Z.div_lt_upper_bound; lia]. }
    destruct k as [|k']; [simpl in Hd; assert (1 <= n / 10)%Z by (apply Z.div_le_lower_bound; lia); lia|].
    specialize (IH (n / 10)%Z ltac:(lia) Hd). lia.
Qed.

Lemma half_up_tenths_le x m :
  x < inject_Z m / 10 + (1 # 20) -> (half_up_tenths x <= m)%Z.
Proof.
  intros H. unfold half_up_tenths.
  assert (Hlt : (Qfloor (x * 10 + (1 # 2)) < m + 1)%Z); [|lia].
  rewrite Zlt_Qlt. apply Qle_lt_trans with (x * 10 + (1 # 2)); [apply Qfloor_le|].
  rewrite inject_Z_plus. change (inject_Z 1) with 1.
  unfold Qdiv in H. change (/ 10) with (1 # 10) in H.
  revert H. generalize (inject_Z m). intros q H. lra.
Qed.

Lemma half_up_tenths_ge x m :
  inject_Z m / 10 <= x -> (m <= half_up_tenths x)%Z.
Proof.
  intros H. unfold half_up_tenths. rewrite <- (Qfloor_Z m).
  apply Qfloor_resp_le. unfold Qdiv in H. change (/ 10) with (1 # 10) in H.
  revert H. generalize (inject_Z m). intros q H. lra.
Qed.

Lemma unit_of_length i : (String.length (unit_of i) <= 2)%nat \/ (4 < i)%nat.
Proof.
  destruct i as [|[|[|[|[|i]]]]]; try (left; simpl; lia). right. lia.
Qed.

(** X2.  For a finite Number [0 <= b < 10^21 * 1024^4] the value displayed,
    in tenths, is at least 10 when the unit is above B and at most 10240
    when it is below TB: between ["1.0"] and ["1024.0"]; below TB the whole
    result is at most 9 characters long. *)
Theorem formatBytes_display_bounds :
  forall b : Q,
    binary64 b -> 0 <= b -> b < pow10 21 * Qpow1024 4 ->
    let i := unit_index (Fin b) in
    let n := half_up_tenths (b / Qpow1024 i) in
    formatBytes (Fin b) = render1 (b / Qpow1024 i) ++ " " ++ unit_of i
    /\ ((0 < i)%nat -> (10 <= n)%Z)
    /\ ((i < 4)%nat -> (n <= 10240)%Z /\ (String.length (formatBytes (Fin b)) <= 9)%nat).
Proof.
  intros b Hb H0 Hmax i n.
  destruct (unit_index_scaled b Hb H0) as (r & Hf & Hr & Hlt & Hge). fold i in Hf, Hr, Hlt, Hge.
  pose proof (unit_index_le_4 (Fin b)) as H4. fold i in H4.
  pose proof (Qpow1024_pos i) as Hp.
  assert (Hr0 : 0 <= r).
  { rewrite Hr. apply Qle_shift_div_l; [assumption|]. lra. }
  assert (Hr21 : r < pow10 21).
  { destruct (Nat.eq_dec i 4) as [He|Hne].
    - rewrite Hr, He. apply Qlt_shift_div_r; [apply Qpow1024_pos|assumption].
    - apply Qlt_trans with 1024; [apply Hlt; lia|reflexivity]. }
  assert (Hfmt : formatBytes (Fin b) = render1 (b / Qpow1024 i) ++ " " ++ unit_of i).
  { rewrite Hf, toFixed_1 by assumption. rewrite (render1_comp _ _ Hr). reflexivity. }
  assert (Hn : n = half_up_tenths r).
  { unfold n, half_up_tenths. apply Qfloor_comp. rewrite Hr. reflexivity. }
  split; [exact Hfmt|]. split.
  - intros Hi. rewrite Hn. apply half_up_tenths_ge.
    assert (1 <= r); [|apply Qle_trans with 1; [discriminate|assumption]].
    rewrite Hr. apply (proj2 (Qdiv_ge_1 b _ Hp)). apply Hge. assumption.
  - intros Hi. assert (Hn' : (n <= 10240)%Z).
    { rewrite Hn. apply half_up_tenths_le. specialize (Hlt Hi).
      apply Qlt_trans with 1024; [assumption|reflexivity]. }
    split; [assumption|].
    rewrite Hfmt. rewrite !string_length_append. unfold render1. fold n.
    rewrite string_length_of_list, length_app. cbn [List.length String.length].
    assert (Hn0 : (0 <= n)%Z) by (rewrite Hn; apply half_up_tenths_nonneg; assumption).
    assert (Hd : (List.length (digits (n / 10)) <= 4)%nat).
    { apply digits_length_le; [lia|]. split; [apply Z.div_pos; lia|].
      apply Z.div_lt_upper_bound; [lia|]. change (10 ^ Z.of_nat 4)%Z with 10000%Z. lia. }
    destruct (unit_of_length i) as [Hu|Hu]; lia.
Qed.

(** The theorem at 1048544 bytes, displayed as ["1024.0 KB"]. *)
Lemma formatBytes_display_bounds_witness :
  formatBytes (Fin 1048544) = render1 (1048544 / Qpow1024 1) ++ " " ++ unit_of 1
  /\ ((0 < 1)%nat -> (10 <= half_up_tenths (1048544 / Qpow1024 1))%Z)
  /\ ((1 < 4)%nat ->
      (half_up_tenths (1048544 / Qpow1024 1) <= 10240)%Z
      /\ (String.length (formatBytes (Fin 1048544)) <= 9)%nat).
Proof.
  apply (formatBytes_display_bounds 1048544).
  - exists 1048544%Z, 0%Z. split; [reflexivity|]. split; [lia|reflexivity].
  - discriminate.
  - reflexivity.
Defined.

(* --------------------------------------------------------------------- *)
(** *** formatBytes, then parseSizeToBytes *)
(* --------------------------------------------------------------------- *)

Local Close Scope string_scope.

(** *** The error of one rounding *)

Lemma rne_half x : x - (1 # 2) <= inject_Z (rne x) /\ inject_Z (rne x) <= x + (1 # 2).
Proof.
  unfold rne. pose proof (Qfloor_le x) as Hl. pose proof (Qlt_floor x) as Hu.
  rewrite inject_Z_plus in Hu. change (inject_Z 1) with 1 in Hu.
  destruct (Qcompare (x - inject_Z (Qfloor x)) (1 # 2)) eqn:Hc.
  - apply Qeq_alt in Hc. destruct (Z.even (Qfloor x)).
    + split; lra.
    + rewrite inject_Z_plus. change (inject_Z 1) with 1. split; lra.
  - rewrite <- Qlt_alt in Hc. split; lra.
  - rewrite <- Qgt_alt in Hc. rewrite inject_Z_plus. change (inject_Z 1) with 1. split; lra.
Qed.

Lemma pow2_pred e : pow2 (e - 1) == pow2 e * (1 # 2).
Proof. unfold Z.sub. rewrite pow2_add. reflexivity. Qed.

(** A positive real below [2^(k+1)], [k] in the normal range, rounds to a
    finite value at most [2^(k-53)] away. *)
Lemma round_pos_near q k :
  0 < q -> q < pow2 (k + 1) -> (-1022 <= k <= 1022)%Z ->
  exists r, round_pos q = Fin r /\ q - pow2 (k - 53) <= r /\ r <= q + pow2 (k - 53).
Proof.
  intros Hq Hk Hr. unfold round_pos.
  set (E := Z.max (ilog2 q - 52) (-1074)).
  assert (HE : (E <= k - 52)%Z).
  { assert (ilog2 q < k + 1)%Z; [|unfold E; lia]. apply pow2_lt_inv.
    pose proof (ilog2_lower q Hq). lra. }
  pose proof (pow2_pos E) as Hp.
  destruct (rne_half (q / pow2 E)) as [Hlo Hhi].
  assert (Hy : q == (q / pow2 E) * pow2 E) by (field; apply pow2_neq0).
  assert (Hh : pow2 E * (1 # 2) <= pow2 (k - 53)).
  { rewrite <- pow2_pred. apply pow2_le. lia. }
  assert (Hk53 : pow2 (k - 53) <= pow2 969) by (apply pow2_le; lia).
  assert (Hk1 : pow2 (k + 1) <= pow2 1023) by (apply pow2_le; lia).
  assert (H1024 : pow2 1023 + pow2 969 < pow2 1024) by reflexivity.
  set (v := inject_Z (rne (q / pow2 E)) * pow2 E).
  assert (Hv : q - pow2 (k - 53) <= v /\ v <= q + pow2 (k - 53)).
  { unfold v. revert Hlo Hhi Hy Hh Hp.
    generalize (inject_Z (rne (q / pow2 E))) (q / pow2 E) (pow2 E) (pow2 (k - 53)).
    intros m y p d. intros. split; nra. }
  assert (Hb : Qle_bool (pow2 1024) v = false).
  { apply not_true_is_false. intros H. apply Qle_bool_iff in H.
    revert H Hv Hk Hk53 Hk1 H1024.
    generalize (pow2 1024) (pow2 1023) (pow2 969) (pow2 (k + 1)) (pow2 (k - 53)).
    intros. lra. }
  rewrite Hb. exists (Qred v). split; [reflexivity|]. rewrite Qred_correct. exact Hv.
Qed.

Lemma round64_near q k :
  0 <= q -> q < pow2 (k + 1) -> (-1022 <= k <= 1022)%Z ->
  exists r, round64 q = Fin r /\ 0 <= r /\ binary64 r /\ Qred r = r
            /\ q - pow2 (k - 53) <= r /\ r <= q + pow2 (k - 53).
Proof.
  intros Hq Hk Hr.
  assert (Hex : exists r, round64 q = Fin r /\ q - pow2 (k - 53) <= r /\ r <= q + pow2 (k - 53)).
  { unfold round64. destruct (Qcompare q 0) eqn:Hc.
    - apply Qeq_alt in Hc. exists 0. split; [reflexivity|].
      pose proof (pow2_pos (k - 53)). split; lra.
    - rewrite <- Qlt_alt in Hc. lra.
    - rewrite <- Qgt_alt in Hc. apply round_pos_near; assumption. }
  destruct Hex as (r & Hq' & Hlo & Hhi). exists r. split; [assumption|].
  destruct (round64_nonnegative q Hq) as [Hinf|(r' & Hf & H0 & Hb & Hc)]; [congruence|].
  assert (r' = r) by congruence. subst r'. repeat split; assumption.
Qed.

(** *** Strings that need no trimming and no lower-casing *)

Lemma numchar_lower c : isNumChar c = true -> lowerChar c = c.
Proof.
  destruct c as [[] [] [] [] [] [] [] []]; intros H; try reflexivity;
    vm_compute in H; discriminate.
Qed.

Lemma toLowerCase_numchars s : forallb isNumChar s = true -> toLowerCase s = s.
Proof.
  induction s as [|c s IH]; [reflexivity|]. cbn [forallb]. intros H.
  apply andb_true_iff in H. destruct H as [Hc Hs].
  unfold toLowerCase in *. cbn [map]. rewrite (numchar_lower c Hc), (IH Hs). reflexivity.
Qed.

Lemma trim_id c s d :
  isWhiteSpace c = false -> isWhiteSpace d = false ->
  trim (c :: s ++ [d]) = c :: s ++ [d].
Proof.
  intros Hc Hd. unfold trim. cbn [trimStart]. rewrite Hc. unfold trimEnd.
  assert (Hrev : rev (c :: s ++ [d]) = d :: rev (c :: s)).
  { change (c :: s ++ [d]) with ((c :: s) ++ [d]). rewrite rev_app_distr. reflexivity. }
  rewrite Hrev. cbn [trimStart]. rewrite Hd. rewrite <- Hrev. apply rev_involutive.
Qed.

Lemma trimmed_formatted (R : list ascii) (U : string) :
  R <> [] -> forallb isNumChar R = true ->
  In U ["B"; "KB"; "MB"; "GB"; "TB"]%string ->
  toLowerCase (trim (R ++ " "%char :: chars U))
  = R ++ " "%char :: toLowerCase (chars U).
Proof.
  intros Hne Hnc HU. destruct R as [|c R']; [congruence|].
  assert (Hc : isWhiteSpace c = false).
  { cbn [forallb] in Hnc. apply andb_true_iff in Hnc. apply (numchar_cases c), Hnc. }
  assert (Hshape : exists pre,
             chars U = pre ++ ["B"%char]
             /\ toLowerCase (chars U) = toLowerCase pre ++ ["b"%char]).
  { cbn [In] in HU. destruct HU as [<-|[<-|[<-|[<-|[<-|[]]]]]].
    - exists []. split; reflexivity.
    - exists ["K"%char]. split; reflexivity.
    - exists ["M"%char]. split; reflexivity.
    - exists ["G"%char]. split; reflexivity.
    - exists ["T"%char]. split; reflexivity. }
  destruct Hshape as (pre & HUc & HUl). rewrite HUc.
  assert (Hs : (c :: R') ++ " "%char :: pre ++ ["B"%char]
               = c :: (R' ++ " "%char :: pre) ++ ["B"%char]).
  { cbn [app]. rewrite <- app_assoc. reflexivity. }
  rewrite Hs, trim_id by (assumption || reflexivity). rewrite <- Hs.
  unfold toLowerCase. rewrite map_app. fold (toLowerCase (c :: R')).
  rewrite (toLowerCase_numchars _ Hnc). reflexivity.
Qed.

(** The result on a numeral followed by a unit. *)
Lemma parseSizeToBytes_numeral_unit (str : string) (numStr ip fp ws unit : list ascii) :
  toLowerCase (trim (chars str)) = numStr ++ ws ++ unit ->
  decimal_numeral numStr ip fp ->
  forallb isWhiteSpace ws = true ->
  In unit unitTokens ->
  parseSizeToBytes (VString str)
  = ([], Normal (mul (round64 (numeral_value ip fp)) (Fin (multiplier unit)))).
Proof.
  intros Ht Hnum Hws Hu.
  destruct (decimal_numeral_numchars _ _ _ Hnum) as [Hn0 Hnc].
  assert (Hne : String.eqb str "" = false).
  { apply string_nonempty, trim_nonempty, toLowerCase_nonempty. rewrite Ht.
    destruct numStr; [congruence|discriminate]. }
  rewrite (parseSizeToBytes_string str Hne).
  assert (Hm : match_size (toLowerCase (trim (chars str))) = Some (numStr, unit)).
  { apply match_size_spec. split; [assumption|]. split; [assumption|].
    split; [assumption|]. exists ws. split; assumption. }
  rewrite Hm, (parseUnsigned_numeral _ _ _ Hnum). unfold convert.
  rewrite (round64_comp (numeral_value ip fp * pow10 0) (numeral_value ip fp))
    by (change (pow10 0) with 1%Q; ring).
  reflexivity.
Qed.

Local Open Scope string_scope.

(** What the parser makes of a value with one decimal and a unit below
    TB, as [formatBytes] writes them. *)
Lemma parse_rendered x i :
  0 <= x -> (i <= 3)%nat ->
  parseSizeToBytes (VString (render1 x ++ " " ++ unit_of i))
  = ([], Normal (mul (round64 (inject_Z (half_up_tenths x) / 10)) (Fin (Qpow1024 i)))).
Proof.
  intros Hx Hi. destruct (render1_numeral x Hx) as [Hnum Hval].
  destruct (decimal_numeral_numchars _ _ _ Hnum) as [Hne Hnc].
  assert (HU : In (unit_of i) ["B"; "KB"; "MB"; "GB"; "TB"]).
  { destruct i as [|[|[|[|i]]]]; [cbn; tauto..|lia]. }
  assert (Ht : toLowerCase (trim (chars (render1 x ++ " " ++ unit_of i)))
               = (chars (render1 x) ++ [" "%char] ++ toLowerCase (chars (unit_of i)))%list).
  { rewrite !chars_append. apply (trimmed_formatted _ _ Hne Hnc HU). }
  assert (Hu : In (toLowerCase (chars (unit_of i))) unitTokens
               /\ multiplier (toLowerCase (chars (unit_of i))) = Qpow1024 i).
  { destruct i as [|[|[|[|i]]]]; [split; [cbn; tauto|reflexivity]..|lia]. }
  destruct Hu as [Hu Hm].
  rewrite (parseSizeToBytes_numeral_unit _ _ _ _ _ _ Ht Hnum eq_refl Hu), Hm.
  rewrite (round64_comp _ _ Hval). reflexivity.
Qed.

Lemma below_TB_index b :
  binary64 b -> 0 <= b -> b < Qpow1024 4 -> (unit_index (Fin b) <= 3)%nat.
Proof.
  intros Hb H0 Hlt. pose proof (unit_index_le_4 (Fin b)) as H4.
  destruct (unit_index_scaled b Hb H0) as (r & _ & _ & _ & Hge).
  destruct (Nat.eq_dec (unit_index (Fin b)) 4) as [He|Hne]; [exfalso|lia].
  rewrite He in Hge. specialize (Hge ltac:(lia)). lra.
Qed.

Lemma formatBytes_rendered b :
  binary64 b -> 0 <= b -> b < pow10 21 * Qpow1024 4 ->
  exists r,
    formatBytes (Fin b) = render1 r ++ " " ++ unit_of (unit_index (Fin b))
    /\ r == b / Qpow1024 (unit_index (Fin b)) /\ 0 <= r
    /\ ((unit_index (Fin b) < 4)%nat -> r < 1024).
Proof.
  intros Hb H0 Hmax.
  destruct (unit_index_scaled b Hb H0) as (r & Hf & Hr & Hlt & Hge).
  pose proof (unit_index_le_4 (Fin b)) as H4.
  set (i := unit_index (Fin b)) in *.
  pose proof (Qpow1024_pos i) as Hp.
  assert (Hr0 : 0 <= r).
  { rewrite Hr. apply Qle_shift_div_l; [assumption|]. lra. }
  assert (Hr21 : r < pow10 21).
  { destruct (Nat.eq_dec i 4) as [He|Hne].
    - rewrite Hr, He. apply Qlt_shift_div_r; [apply Qpow1024_pos|assumption].
    - apply Qlt_trans with 1024; [apply Hlt; lia|reflexivity]. }
  exists r. rewrite Hf, toFixed_1 by assumption. repeat split; assumption.
Qed.

(** X3.  Below 1 TB, what [formatBytes] writes is read back by
    [parseSizeToBytes] with nothing logged, as a finite Number at most
    [1/20 + 2^-43] of the displayed unit away from the byte count. *)
Theorem parse_formatBytes_near :
  forall b : Q,
    binary64 b -> 0 <= b -> b < Qpow1024 4 ->
    exists v : Q,
      parseSizeToBytes (VString (formatBytes (Fin b))) = ([], Normal (Fin v))
      /\ b - ((1 # 20) + pow2 (-43)) * Qpow1024 (unit_index (Fin b)) <= v
      /\ v <= b + ((1 # 20) + pow2 (-43)) * Qpow1024 (unit_index (Fin b)).
Proof.
  intros b Hb H0 Hlt.
  pose proof (below_TB_index b Hb H0 Hlt) as Hi.
  assert (Hmax : b < pow10 21 * Qpow1024 4).
  { apply Qlt_le_trans with (Qpow1024 4); [assumption|discriminate]. }
  destruct (formatBytes_rendered b Hb H0 Hmax) as (r & Hf & Hr & Hr0 & Hr1).
  set (i := unit_index (Fin b)) in *. specialize (Hr1 ltac:(lia)).
  pose proof (Qpow1024_pos i) as Hp.
  pose proof (Qdiv_mul_back r b _ Hp Hr) as Hbr.
  rewrite Hf, (parse_rendered r i Hr0 Hi).
  set (n := half_up_tenths r).
  destruct (half_up_tenths_spec r) as [Hn1 Hn2]. fold n in Hn1, Hn2.
  pose proof (half_up_tenths_nonneg r Hr0) as Hn0. fold n in Hn0.
  assert (Hz0 : 0 <= inject_Z n) by (apply inject_Z_nonneg; assumption).
  assert (Hq : inject_Z n / 10 == inject_Z n * (1 # 10)) by reflexivity.
  destruct (round64_near (inject_Z n / 10) 10) as (r' & Hrd & Hr'0 & Hr'b & Hr'c & Hlo & Hhi).
  { rewrite Hq. lra. }
  { rewrite Hq. change (pow2 (10 + 1)) with 2048. lra. }
  { lia. }
  rewrite Hrd, (mul_Qpow1024 r' i (Qpow1024 i) Hr'b Hr'0 (Qeq_refl _)).
  change (pow2 (10 - 53)) with (pow2 (-43)) in Hlo, Hhi. rewrite Hq in Hlo, Hhi.
  pose proof (Qpow1024_mono i 4 ltac:(lia)) as Hm.
  assert (H2048 : 2048 * Qpow1024 4 < pow2 1024) by reflexivity.
  assert (He : pow2 (-43) < 1) by reflexivity. pose proof (pow2_pos (-43)) as He0.
  unfold scaled.
  assert (Hno : Qle_bool (pow2 1024) (r' * Qpow1024 i) = false).
  { apply not_true_is_false. intros H. apply Qle_bool_iff in H.
    assert (Hr2 : r' < 2048).
    { revert Hhi Hn1 Hr1 He. generalize (pow2 (-43)) (inject_Z n). intros. lra. }
    revert H Hm H2048 Hp Hr'0 Hr2.
    generalize (pow2 1024) (Qpow1024 i) (Qpow1024 4).
    intros. nra. }
  rewrite Hno. eexists. split; [reflexivity|]. rewrite Qred_correct.
  revert Hbr Hlo Hhi Hn1 Hn2 Hp He0.
  generalize (Qpow1024 i) (pow2 (-43)) (inject_Z n). intros P e z. intros.
  rewrite Hbr. split; nra.
Qed.

(** The theorem at 1234567 bytes. *)
Lemma parse_formatBytes_near_witness :
  exists v : Q,
    parseSizeToBytes (VString (formatBytes (Fin 1234567))) = ([], Normal (Fin v))
    /\ 1234567 - ((1 # 20) + pow2 (-43)) * Qpow1024 (unit_index (Fin 1234567)) <= v
    /\ v <= 1234567 + ((1 # 20) + pow2 (-43)) * Qpow1024 (unit_index (Fin 1234567)).
Proof.
  apply (parse_formatBytes_near 1234567).
  - exists 1234567%Z, 0%Z. split; [reflexivity|]. split; [lia|reflexivity].
  - discriminate.
  - reflexivity.
Defined.

Lemma binary64_tenths n :
  (n mod 5 = 0)%Z -> (0 <= n < 10240)%Z -> binary64 (inject_Z n / 10).
Proof.
  intros Hm Hn. exists (n / 5)%Z, (-1)%Z.
  assert (Hk : n = (5 * (n / 5))%Z) by (apply Z_div_exact_full_2; lia).
  split; [|split; [lia|]].
  - apply Z.abs_lt. split; [|apply Z.div_lt_upper_bound; lia].
    apply Z.lt_le_trans with 0%Z; [lia|apply Z.div_pos; lia].
  - rewrite Hk at 1. rewrite inject_Z_mult. change (pow2 (-1)) with (1 # 2).
    change (inject_Z 5) with 5. field.
Qed.

(** X4.  A byte count that is [n] tenths of a unit below TB, with [n] a
    multiple of 5 below 10240 (and at least 10 above B), survives
    [formatBytes] followed by [parseSizeToBytes] unchanged. *)
Theorem parse_formatBytes_round_trip :
  forall (n : Z) (i : nat),
    (n mod 5 = 0)%Z -> (0 <= n < 10240)%Z -> (i <= 3)%nat ->
    ((0 < i)%nat -> (10 <= n)%Z) ->
    parseSizeToBytes (VString (formatBytes (Fin (tenths_of_unit n i))))
    = ([], Normal (Fin (Qred (tenths_of_unit n i)))).
Proof.
  intros n i Hm Hn Hi Hlo.
  pose proof (binary64_tenths n Hm Hn) as Hbq.
  assert (Hq : inject_Z n / 10 == inject_Z n * (1 # 10)) by reflexivity.
  assert (Hz0 : 0 <= inject_Z n) by (apply inject_Z_nonneg; lia).
  assert (Hz1 : inject_Z n < 10240).
  { change 10240 with (inject_Z 10240). rewrite <- Zlt_Qlt. lia. }
  assert (Hq0 : 0 <= inject_Z n / 10) by (rewrite Hq; lra).
  assert (Hq1 : inject_Z n / 10 < 1024) by (rewrite Hq; lra).
  pose proof (Qpow1024_pos i) as Hp.
  pose proof (Qpow1024_mono i 4 ltac:(lia)) as Hmono.
  assert (H2048 : 1024 * Qpow1024 4 < pow2 1024) by reflexivity.
  assert (Hsmall : inject_Z n / 10 * Qpow1024 i < pow2 1024).
  { revert Hq0 Hq1 Hp Hmono H2048.
    generalize (inject_Z n / 10) (Qpow1024 i) (Qpow1024 4) (pow2 1024). intros. nra. }
  set (b := tenths_of_unit n i).
  assert (Hb : binary64 b) by (apply binary64_scaled; assumption).
  assert (Hb0 : 0 <= b).
  { unfold b, tenths_of_unit. revert Hq0 Hp. generalize (inject_Z n / 10) (Qpow1024 i).
    intros. nra. }
  assert (Hidx : unit_index (Fin b) = i).
  { apply unit_index_between; try assumption; [lia| |].
    - intros H0i. specialize (Hlo H0i).
      assert (10 <= inject_Z n) by (change 10 with (inject_Z 10); rewrite <- Zle_Qle; lia).
      unfold b, tenths_of_unit. rewrite Hq. revert Hp. generalize (Qpow1024 i). intros. nra.
    - intros _. rewrite Qpow1024_S. unfold b, tenths_of_unit.
      revert Hq1 Hp. generalize (inject_Z n / 10) (Qpow1024 i). intros. nra. }
  assert (Hmax : b < pow10 21 * Qpow1024 4).
  { apply Qlt_le_trans with (1024 * Qpow1024 4); [|discriminate].
    unfold b, tenths_of_unit. revert Hq0 Hq1 Hp Hmono.
    generalize (inject_Z n / 10) (Qpow1024 i) (Qpow1024 4). intros. nra. }
  destruct (formatBytes_rendered b Hb Hb0 Hmax) as (r & Hf & Hr & Hr0 & _).
  rewrite Hidx in Hf, Hr.
  assert (Hrq : r == inject_Z n / 10).
  { rewrite Hr. unfold b, tenths_of_unit. field. lra. }
  assert (Hn' : half_up_tenths r = n).
  { apply Z.le_antisymm.
    - apply half_up_tenths_le. rewrite Hrq. lra.
    - apply half_up_tenths_ge. rewrite Hrq. lra. }
  rewrite Hf, (parse_rendered r i Hr0 Hi), Hn', (round64_exact _ Hbq).
  rewrite (mul_Qpow1024 _ i (Qpow1024 i) (binary64_Qred _ Hbq)
             ltac:(rewrite Qred_correct; assumption) (Qeq_refl _)).
  unfold scaled.
  rewrite (Qle_bool_comp (pow2 1024) (pow2 1024) (Qred (inject_Z n / 10) * Qpow1024 i)
             (inject_Z n / 10 * Qpow1024 i) (Qeq_refl _)
             ltac:(rewrite Qred_correct; reflexivity)).
  assert (Hno : Qle_bool (pow2 1024) (inject_Z n / 10 * Qpow1024 i) = false).
  { apply not_true_is_false. intros H. apply Qle_bool_iff in H. lra. }
  rewrite Hno. do 2 f_equal. f_equal. apply Qred_complete.
  rewrite Qred_correct. reflexivity.
Qed.

(** The theorem at 1.5 GB. *)
Lemma parse_formatBytes_round_trip_witness :
  parseSizeToBytes (VString (formatBytes (Fin (tenths_of_unit 15 3))))
  = ([], Normal (Fin (Qred (tenths_of_unit 15 3)))).
Proof.
  apply (parse_formatBytes_round_trip 15 3); [reflexivity|lia|lia|lia].
Defined.

(** X5.  From 1 TB on (and below [10^21] TB) the result of [formatBytes]
    is not accepted by [parseSizeToBytes]: the pattern knows no unit TB;
    the call logs "Could not parse" and returns 0. *)
Theorem parse_formatBytes_TB :
  forall b : Q,
    binary64 b -> Qpow1024 4 <= b -> b < pow10 21 * Qpow1024 4 ->
    parseSizeToBytes (VString (formatBytes (Fin b)))
    = ([could_not_parse (formatBytes (Fin b))], Normal (Fin 0)).
Proof.
  intros b Hb Hlo Hmax.
  assert (H0 : 0 <= b) by (pose proof (Qpow1024_pos 4); lra).
  assert (Hidx : unit_index (Fin b) = 4%nat).
  { apply unit_index_between; try assumption; [lia|intros _; assumption|lia]. }
  destruct (formatBytes_rendered b Hb H0 Hmax) as (r & Hf & Hr & Hr0 & _).
  rewrite Hidx in Hf. change (unit_of 4) with "TB" in Hf.
  destruct (render1_numeral r Hr0) as [Hnum _].
  destruct (decimal_numeral_numchars _ _ _ Hnum) as [Hne Hnc].
  assert (Hs : String.eqb (formatBytes (Fin b)) "" = false).
  { apply string_nonempty. rewrite Hf, chars_append.
    destruct (chars (render1 r)); [congruence|discriminate]. }
  rewrite (parseSizeToBytes_string _ Hs).
  assert (Ht : toLowerCase (trim (chars (formatBytes (Fin b))))
               = (chars (render1 r) ++ chars " tb")%list).
  { rewrite Hf, !chars_append.
    apply (trimmed_formatted _ "TB" Hne Hnc). cbn. tauto. }
  rewrite Ht. unfold match_size.
  rewrite (span_greedy isNumChar _ (chars " tb") Hnc eq_refl).
  destruct (chars (render1 r)); [congruence|reflexivity].
Qed.

(** The theorem at 3 TB. *)
Lemma parse_formatBytes_TB_witness :
  parseSizeToBytes (VString (formatBytes (Fin (3 * Qpow1024 4))))
  = ([could_not_parse (formatBytes (Fin (3 * Qpow1024 4)))], Normal (Fin 0)).
Proof.
  apply (parse_formatBytes_TB (3 * Qpow1024 4)).
  - exists 3%Z, 40%Z. split; [reflexivity|]. split; [lia|reflexivity].
  - discriminate.
  - reflexivity.
Defined.

(* --------------------------------------------------------------------- *)
(** *** parseSizeToBytes: what is read and what is not *)
(* --------------------------------------------------------------------- *)

Local Close Scope string_scope.

(** *** Trimming and lower-casing *)

Lemma trimStart_ws pre s :
  forallb isWhiteSpace pre = true -> trimStart (pre ++ s) = trimStart s.
Proof.
  induction pre as [|c pre IH]; [reflexivity|]. cbn [forallb app trimStart]. intros H.
  apply andb_true_iff in H. destruct H as [Hc Hp]. rewrite Hc. apply IH, Hp.
Qed.

Lemma trimStart_all_ws s : forallb isWhiteSpace s = true -> trimStart s = [].
Proof. intros H. rewrite <- (app_nil_r s). rewrite trimStart_ws by assumption. reflexivity. Qed.

Lemma trimStart_app s post :
  trimStart (s ++ post)
  = if forallb isWhiteSpace s then trimStart post else trimStart s ++ post.
Proof.
  induction s as [|c s IH]; [reflexivity|]. cbn [forallb app trimStart].
  destruct (isWhiteSpace c); [exact IH|reflexivity].
Qed.

Lemma forallb_rev (p : ascii -> bool) s : forallb p (rev s) = forallb p s.
Proof.
  induction s as [|c s IH]; [reflexivity|]. cbn [rev forallb].
  rewrite forallb_app, IH. cbn [forallb]. rewrite andb_true_r. apply andb_comm.
Qed.

Lemma trimEnd_ws s post :
  forallb isWhiteSpace post = true -> trimEnd (s ++ post) = trimEnd s.
Proof.
  intros H. unfold trimEnd. rewrite rev_app_distr, trimStart_ws; [reflexivity|].
  rewrite forallb_rev. assumption.
Qed.

(** White space around a string does not survive [trim]. *)
Lemma trim_padding pre s post :
  forallb isWhiteSpace pre = true -> forallb isWhiteSpace post = true ->
  trim (pre ++ s ++ post) = trim s.
Proof.
  intros Hpre Hpost. unfold trim. rewrite (trimStart_ws pre _ Hpre), trimStart_app.
  destruct (forallb isWhiteSpace s) eqn:Hs.
  - rewrite (trimStart_all_ws post Hpost), (trimStart_all_ws s Hs). reflexivity.
  - apply trimEnd_ws. assumption.
Qed.

Lemma isWhiteSpace_lower c : isWhiteSpace (lowerChar c) = isWhiteSpace c.
Proof. destruct c as [[] [] [] [] [] [] [] []]; reflexivity. Qed.

Lemma trimStart_lower s : trimStart (toLowerCase s) = toLowerCase (trimStart s).
Proof.
  unfold toLowerCase. induction s as [|c s IH]; [reflexivity|]. cbn [map trimStart].
  rewrite isWhiteSpace_lower. destruct (isWhiteSpace c); [exact IH|reflexivity].
Qed.

Lemma trim_lower s : trim (toLowerCase s) = toLowerCase (trim s).
Proof.
  unfold trim, trimEnd. rewrite trimStart_lower. unfold toLowerCase at 1.
  rewrite <- map_rev. fold (toLowerCase (rev (trimStart s))).
  rewrite trimStart_lower. unfold toLowerCase. rewrite map_rev. reflexivity.
Qed.

Lemma In_trimStart c s : In c s -> isWhiteSpace c = false -> In c (trimStart s).
Proof.
  intros Hin Hc. induction s as [|d s IH]; [assumption|]. cbn [trimStart].
  destruct (isWhiteSpace d) eqn:Hd; [|assumption].
  destruct Hin as [->|Hin]; [congruence|]. apply IH, Hin.
Qed.

Lemma In_trim c s : In c s -> isWhiteSpace c = false -> In c (trim s).
Proof.
  intros Hin Hc. unfold trim, trimEnd. apply -> in_rev.
  apply In_trimStart; [|assumption]. apply -> in_rev.
  apply In_trimStart; assumption.
Qed.

(** The value returned, whatever is logged. *)
Lemma parseSizeToBytes_outcome str :
  outcome (parseSizeToBytes (VString str))
  = Normal match match_size (toLowerCase (trim (chars str))) with
           | None => Fin 0
           | Some (numStr, unit) =>
               match parseUnsigned numStr with
               | None => Fin 0
               | Some q => convert (round64 q) unit
               end
           end.
Proof.
  destruct (String.eqb str "") eqn:He.
  - apply String.eqb_eq in He. subst str. reflexivity.
  - rewrite (parseSizeToBytes_string str He).
    destruct (match_size _) as [[numStr unit]|]; [|reflexivity].
    destruct (parseUnsigned numStr); reflexivity.
Qed.

Lemma chars_of_list l : chars (string_of_list_ascii l) = l.
Proof. apply list_ascii_of_string_of_list_ascii. Qed.

(** X6.  White space before and after the text, and the case of its
    letters, do not change the value [parseSizeToBytes] returns. *)
Theorem parseSizeToBytes_padding_case :
  forall (s s' : string) (pre post : list ascii),
    forallb isWhiteSpace pre = true ->
    forallb isWhiteSpace post = true ->
    toLowerCase (chars s') = toLowerCase (chars s) ->
    outcome (parseSizeToBytes (VString (string_of_list_ascii (pre ++ chars s' ++ post))))
    = outcome (parseSizeToBytes (VString s)).
Proof.
  intros s s' pre post Hpre Hpost Hcase.
  rewrite !parseSizeToBytes_outcome, chars_of_list, (trim_padding _ _ _ Hpre Hpost).
  rewrite <- !trim_lower, Hcase. reflexivity.
Qed.

(** The theorem at ["  2.5 Gb "] and ["2.5 gB"]. *)
Lemma parseSizeToBytes_padding_case_witness :
  outcome (parseSizeToBytes
             (VString (string_of_list_ascii (chars "  " ++ chars "2.5 Gb" ++ chars " "))))
  = outcome (parseSizeToBytes (VString "2.5 gB")).
Proof.
  apply (parseSizeToBytes_padding_case "2.5 gB" "2.5 Gb" (chars "  ") (chars " "));
    reflexivity.
Defined.

(** *** Characters the pattern does not know *)

Lemma unit_chars unit c :
  In unit unitTokens -> In c unit ->
  existsb (Ascii.eqb c) ["m"%char; "g"%char; "k"%char; "b"%char] = true.
Proof.
  intros Hu Hc. unfold unitTokens in Hu. cbn [In] in Hu.
  destruct Hu as [<-|[<-|[<-|[<-|[]]]]]; cbn [chars list_ascii_of_string In] in Hc;
    repeat (destruct Hc as [<-|Hc]; [reflexivity|]); destruct Hc.
Qed.

Lemma forallb_In (p : ascii -> bool) s c : forallb p s = true -> In c s -> p c = true.
Proof. intros H. apply (proj1 (forallb_forall p s) H). Qed.

(** X7.  A string holding one character that is, letter case aside, none
    of a digit, a point, white space and the letters m, g, k, b (a sign, a
    comma, the [e] of an exponent) is not read: the call logs "Could not
    parse" and returns 0. *)
Theorem parseSizeToBytes_foreign_char :
  forall (str : string) (c : ascii),
    In c (chars str) -> size_char c = false ->
    parseSizeToBytes (VString str) = ([could_not_parse str], Normal (Fin 0)).
Proof.
  intros str c Hin Hc.
  assert (Hne : String.eqb str "" = false).
  { apply string_nonempty. intros He. rewrite He in Hin. destruct Hin. }
  rewrite (parseSizeToBytes_string str Hne).
  destruct (match_size _) as [[numStr unit]|] eqn:Hm; [exfalso|reflexivity].
  apply match_size_spec in Hm. destruct Hm as (_ & Hnc & Hu & ws & Hws & Ht).
  unfold size_char in Hc. cbv zeta in Hc.
  apply orb_false_iff in Hc. destruct Hc as [Hc Hletter].
  apply orb_false_iff in Hc. destruct Hc as [Hnum Hwsp].
  assert (Hw : isWhiteSpace c = false) by (rewrite <- isWhiteSpace_lower; assumption).
  assert (Hl : In (lowerChar c) (toLowerCase (trim (chars str)))).
  { unfold toLowerCase. apply in_map, In_trim; assumption. }
  rewrite Ht in Hl. apply in_app_or in Hl. destruct Hl as [Hl|Hl].
  - rewrite (forallb_In _ _ _ Hnc Hl) in Hnum. discriminate.
  - apply in_app_or in Hl. destruct Hl as [Hl|Hl].
    + rewrite (forallb_In _ _ _ Hws Hl) in Hwsp. discriminate.
    + rewrite (unit_chars _ _ Hu Hl) in Hletter. discriminate.
Qed.

(** The theorem at ["-5 MB"]. *)
Lemma parseSizeToBytes_foreign_char_witness :
  parseSizeToBytes (VString "-5 MB") = ([could_not_parse "-5 MB"], Normal (Fin 0)).
Proof.
  apply (parseSizeToBytes_foreign_char "-5 MB" "-"%char); [cbn; tauto|reflexivity].
Defined.

(** *** A second decimal point *)

(** X8.  When the numeric portion holds a second decimal point, the text
    from that point on is ignored: the result is the one of the numeral
    before it, and nothing is logged. *)
Theorem parseSizeToBytes_second_point :
  forall (str : string) (ip fp rest ws unit : list ascii),
    toLowerCase (trim (chars str))
    = ip ++ "."%char :: fp ++ "."%char :: rest ++ ws ++ unit ->
    forallb isDigit ip = true -> forallb isDigit fp = true ->
    ip <> [] \/ fp <> [] ->
    forallb isNumChar rest = true ->
    forallb isWhiteSpace ws = true ->
    In unit unitTokens ->
    parseSizeToBytes (VString str)
    = ([], Normal (mul (round64 (numeral_value ip fp)) (Fin (multiplier unit)))).
Proof.
  intros str ip fp rest ws unit Ht Hip Hfp Hne Hrest Hws Hu.
  set (numStr := ip ++ "."%char :: fp ++ "."%char :: rest).
  assert (Ht' : toLowerCase (trim (chars str)) = numStr ++ ws ++ unit).
  { rewrite Ht. unfold numStr. rewrite <- app_assoc. cbn [app]. rewrite <- app_assoc.
    reflexivity. }
  assert (Hnc : forallb isNumChar numStr = true).
  { unfold numStr. rewrite forallb_app. cbn [forallb]. rewrite forallb_app. cbn [forallb].
    rewrite !isDigit_numchar by assumption. rewrite Hrest. reflexivity. }
  assert (Hn0 : numStr <> []) by (unfold numStr; destruct ip; discriminate).
  assert (Hs : String.eqb str "" = false).
  { apply string_nonempty, trim_nonempty, toLowerCase_nonempty. rewrite Ht'.
    destruct numStr; [congruence|discriminate]. }
  rewrite (parseSizeToBytes_string str Hs).
  assert (Hm : match_size (toLowerCase (trim (chars str))) = Some (numStr, unit)).
  { apply match_size_spec. split; [assumption|]. split; [assumption|].
    split; [assumption|]. exists ws. split; assumption. }
  rewrite Hm.
  assert (Hp : parseUnsigned numStr = Some (numeral_value ip fp * pow10 0)).
  { unfold parseUnsigned, numeral_value, numStr.
    rewrite span_greedy by (assumption || reflexivity).
    rewrite span_greedy by (assumption || reflexivity).
    destruct ip, fp; try reflexivity. destruct Hne; congruence. }
  rewrite Hp. unfold convert.
  rewrite (round64_comp (numeral_value ip fp * pow10 0) (numeral_value ip fp))
    by (change (pow10 0) with 1%Q; ring).
  reflexivity.
Qed.

(** The theorem at ["10.5.99 KB"]. *)
Lemma parseSizeToBytes_second_point_witness :
  parseSizeToBytes (VString "10.5.99 KB")
  = ([], Normal (mul (round64 (numeral_value (chars "10") (chars "5")))
                     (Fin (multiplier (chars "kb"))))).
Proof.
  apply (parseSizeToBytes_second_point "10.5.99 KB" (chars "10") (chars "5") (chars "99")
           (chars " ") (chars "kb")); try reflexivity.
  - left. discriminate.
  - cbn. tauto.
Defined.

(** *** Whole numbers of units *)

Lemma multiplier_integer unit :
  exists m : Z, (1 <= m)%Z /\ multiplier unit = inject_Z m.
Proof.
  unfold multiplier. repeat destruct (list_ascii_eqb _ _).
  - exists 1024%Z. split; [lia|reflexivity].
  - exists (1024 * 1024)%Z. split; [lia|reflexivity].
  - exists (1024 * 1024 * 1024)%Z. split; [lia|reflexivity].
  - exists 1%Z. split; [lia|reflexivity].
Qed.

(** X9.  A whole number of units is converted without rounding while
    the byte count is at most 2^53. *)
Theorem parseSizeToBytes_whole_units :
  forall (str : string) (n : Z) (ws unit : list ascii),
    toLowerCase (trim (chars str)) = digits n ++ ws ++ unit ->
    (0 <= n)%Z ->
    forallb isWhiteSpace ws = true ->
    In unit unitTokens ->
    inject_Z n * multiplier unit <= inject_Z (2 ^ 53) ->
    parseSizeToBytes (VString str)
    = ([], Normal (Fin (Qred (inject_Z n * multiplier unit)))).
Proof.
  intros str n ws unit Ht Hn Hws Hu Hmax.
  pose proof (digits_all_digits n Hn) as Hd. unfold all_digits in Hd.
  apply andb_true_iff in Hd. destruct Hd as [Hlen Hdig].
  assert (Hne : digits n <> []).
  { intros He. rewrite He in Hlen. discriminate. }
  assert (Hnum : decimal_numeral (digits n) (digits n) []).
  { split; [assumption|]. split; [reflexivity|]. split; [left; assumption|].
    left. split; reflexivity. }
  rewrite (parseSizeToBytes_numeral_unit str _ _ _ _ _ Ht Hnum Hws Hu).
  assert (Hv : numeral_value (digits n) [] == inject_Z n).
  { unfold numeral_value. rewrite app_nil_r, digitsVal_digits by assumption.
    change (pow10 (Z.of_nat (List.length (@nil ascii)))) with 1. field. }
  destruct (multiplier_integer unit) as (m & Hm1 & Hm). rewrite Hm in *.
  assert (Hnm : (n * m <= 2 ^ 53)%Z).
  { rewrite <- inject_Z_mult, <- Zle_Qle in Hmax. assumption. }
  assert (Hn53 : (n <= 2 ^ 53)%Z) by nia.
  rewrite (round64_comp _ _ Hv), round64_exact, Qred_inject_Z
    by (apply binary64_inject_Z; lia).
  cbn [mul]. do 2 f_equal. apply round64_exact.
  apply (binary64_comp (inject_Z (n * m))); [rewrite inject_Z_mult; reflexivity|].
  apply binary64_inject_Z. nia.
Qed.

(** The theorem at ["1500 MB"]. *)
Lemma parseSizeToBytes_whole_units_witness :
  parseSizeToBytes (VString "1500 MB")
  = ([], Normal (Fin (Qred (inject_Z 1500 * multiplier (chars "mb"))))).
Proof.
  apply (parseSizeToBytes_whole_units "1500 MB" 1500 (chars " ") (chars "mb")).
  - reflexivity.
  - lia.
  - reflexivity.
  - cbn. tauto.
  - discriminate.
Defined.

(* --------------------------------------------------------------------- *)
(** *** getDirectorySize: any tree *)
(* --------------------------------------------------------------------- *)

Local Open Scope string_scope.

Lemma count_level_app lv l l' :
  count_level lv (l ++ l')%list = (count_level lv l + count_level lv l')%nat.
Proof. unfold count_level. rewrite filter_app, length_app. reflexivity. Qed.

Lemma add_nonnegative x y : nonnegative x -> nonnegative y -> nonnegative (add x y).
Proof.
  intros [->|(a & -> & Ha & _)] [->|(b & -> & Hb & _)]; cbn [add Bool.eqb].
  - left. reflexivity.
  - left. reflexivity.
  - left. reflexivity.
  - apply round64_nonnegative. lra.
Qed.

Lemma add_zero x : nonnegative x -> add x (Fin 0) = x.
Proof.
  intros [->|(a & -> & Ha & Hb & Hc)]; [reflexivity|]. cbn [add].
  rewrite (round64_comp (a + 0) a) by ring. rewrite round64_exact by assumption.
  rewrite Hc. reflexivity.
Qed.

Lemma nonnegative_zero : nonnegative (Fin 0).
Proof.
  right. exists 0. split; [reflexivity|]. split; [lra|]. split; [|reflexivity].
  exists 0%Z, 0%Z. split; [reflexivity|]. split; [lia|reflexivity].
Qed.

Lemma of_N_nonnegative n : nonnegative (of_N n).
Proof. apply round64_nonnegative, inject_Z_nonneg. lia. Qed.

Section AnyTree.

Variable join : string -> string -> string.

Lemma for_of_well_behaved dirPath items :
  Forall (fun e => well_behaved join (snd e)) items ->
  forall t, nonnegative t ->
    exists t' l,
      for_of (visit join (getDirectorySize join) dirPath) items t = (t', (l, Normal tt))
      /\ nonnegative t'
      /\ count_level LogWarn l = skipped_files (Directory items)
      /\ count_level LogError l = failed_listings (Directory items).
Proof.
  induction 1 as [|[name item] items Hitem Hrest IH]; intros t Ht.
  - exists t, []. repeat split; try reflexivity. assumption.
  - cbn [for_of]. unfold seq. cbn [snd] in Hitem.
    assert (Hstep : exists t1 l1,
               visit join (getDirectorySize join) dirPath (name, item) t = (t1, (l1, Normal tt))
               /\ nonnegative t1
               /\ count_level LogWarn l1 = skipped_files item
               /\ count_level LogError l1 = failed_listings item).
    { unfold visit. destruct item as [sub|e|bytes|e|].
      - cbn [isDirectory]. unfold add_await.
        destruct (Hitem (join dirPath name)) as (l & v & Hl & Hv & Hc). rewrite Hl.
        exists (add t v), l. split; [reflexivity|]. split; [apply add_nonnegative; assumption|].
        apply Hc. reflexivity.
      - cbn [isDirectory]. unfold add_await.
        destruct (Hitem (join dirPath name)) as (l & v & Hl & Hv & Hc). rewrite Hl.
        exists (add t v), l. split; [reflexivity|]. split; [apply add_nonnegative; assumption|].
        apply Hc. reflexivity.
      - cbn [isDirectory isFile stat]. exists (add t (of_N bytes)), [].
        split; [reflexivity|]. split; [|split; reflexivity].
        apply add_nonnegative; [assumption|apply of_N_nonnegative].
      - cbn [isDirectory isFile stat]. eexists t, _. split; [reflexivity|].
        split; [assumption|]. split; reflexivity.
      - cbn [isDirectory isFile]. exists t, []. split; [reflexivity|].
        split; [assumption|]. split; reflexivity. }
    destruct Hstep as (t1 & l1 & Hl1 & Ht1 & Hw1 & He1). rewrite Hl1.
    destruct (IH t1 Ht1) as (t2 & l2 & Hl2 & Ht2 & Hw2 & He2). rewrite Hl2.
    exists t2, (l1 ++ l2)%list. split; [reflexivity|]. split; [assumption|].
    rewrite !count_level_app, Hw1, He1, Hw2, He2. split; reflexivity.
Qed.

Lemma getDirectorySize_well_behaved node : well_behaved join node.
Proof.
  induction node as [items IH|e|n|e|] using fsnode_nested_ind; intros dirPath.
  - destruct (for_of_well_behaved dirPath items IH (Fin 0) nonnegative_zero)
      as (t & l & Hl & Ht & Hw & He).
    exists l, t.
    change (getDirectorySize join dirPath (Directory items))
      with (returning_totalSize
              (try_stmt (for_of (visit join (getDirectorySize join) dirPath) items)
                 (on_error dirPath))).
    unfold returning_totalSize, try_stmt. rewrite Hl.
    split; [reflexivity|]. split; [assumption|]. intros _. split; assumption.
  - eexists _, _. split; [reflexivity|]. split; [apply nonnegative_zero|].
    intros _. split; reflexivity.
  - eexists _, _. split; [reflexivity|]. split; [apply nonnegative_zero|]. discriminate.
  - eexists _, _. split; [reflexivity|]. split; [apply nonnegative_zero|]. discriminate.
  - eexists _, _. split; [reflexivity|]. split; [apply nonnegative_zero|]. discriminate.
Qed.

End AnyTree.

(** X10.  On every directory [getDirectorySize] logs one warning for each
    file whose status cannot be read, one error for each subdirectory, at
    any depth, that cannot be listed, and nothing else. *)
Theorem getDirectorySize_log_counts :
  forall (join : string -> string -> string) (dirPath : string)
         (items : list (string * fsnode)),
    let l := logs (getDirectorySize join dirPath (Directory items)) in
    count_level LogWarn l = skipped_files (Directory items)
    /\ count_level LogError l = failed_listings (Directory items)
    /\ List.length l
       = (skipped_files (Directory items) + failed_listings (Directory items))%nat.
Proof.
  intros join dirPath items l.
  destruct (getDirectorySize_well_behaved join (Directory items) dirPath)
    as (l' & v & Hl & _ & Hc).
  destruct (Hc eq_refl) as [Hw He]. subst l. rewrite Hl. cbn [logs fst].
  split; [assumption|]. split; [assumption|]. rewrite <- Hw, <- He.
  unfold count_level. clear. induction l' as [|e l' IH]; [reflexivity|].
  cbn [filter List.length]. destruct (level e); cbn [same_level List.length]; lia.
Qed.

(** X11.  Whatever the tree, [getDirectorySize] returns a Number that is
    [>= 0] and not NaN. *)
Theorem getDirectorySize_nonnegative :
  forall (join : string -> string -> string) (dirPath : string) (node : fsnode),
    exists l v,
      getDirectorySize join dirPath node = (l, Normal v)
      /\ ge v (Fin 0) = true /\ isNaN v = false.
Proof.
  intros join dirPath node.
  destruct (getDirectorySize_well_behaved join node dirPath) as (l & v & Hl & Hv & _).
  exists l, v. split; [assumption|]. split; [apply nonnegative_ge; assumption|].
  apply nonnegative_not_NaN. assumption.
Qed.

(** X12.  An entry that holds no bytes (an empty file, a directory without
    bytes in regular files, a directory that cannot be listed, a file that
    cannot be read, a link) does not change the result. *)
Theorem getDirectorySize_empty_entry :
  forall (join : string -> string -> string) (dirPath : string)
         (pre : list (string * fsnode)) (name : string) (item : fsnode)
         (post : list (string * fsnode)),
    files_total item = 0%N ->
    outcome (getDirectorySize join dirPath (Directory (pre ++ (name, item) :: post)))
    = outcome (getDirectorySize join dirPath (Directory (pre ++ post))).
Proof.
  intros join dirPath pre name item post Hz.
  rewrite !outcome_directory. f_equal.
  set (body := visit join (getDirectorySize join) dirPath).
  assert (Hpre : Forall (fun e => well_behaved join (snd e)) pre).
  { apply Forall_forall. intros e _. apply getDirectorySize_well_behaved. }
  destruct (for_of_well_behaved join dirPath pre Hpre (Fin 0) nonnegative_zero)
    as (t1 & l1 & Hl1 & Ht1 & _).
  fold body in Hl1.
  assert (Hitem : observe (body (name, item) t1) = (t1, Normal tt)).
  { unfold body, visit. destruct item as [sub|e|bytes|e|].
    - cbn [isDirectory]. unfold add_await.
      destruct (getDirectorySize_exact join (Directory sub) (join dirPath name)) as [l Hl].
      { cbn [directory_total]. rewrite Hz. discriminate. }
      rewrite Hl. cbn [directory_total]. rewrite Hz. unfold observe. cbn [fst snd].
      change (Fin (inject_Z (Z.of_N 0))) with (Fin 0). rewrite add_zero by assumption.
      reflexivity.
    - cbn [isDirectory]. unfold add_await.
      rewrite (getDirectorySize_unlistable join (join dirPath name) (Unlistable e) e eq_refl).
      unfold observe. cbn [fst snd]. rewrite add_zero by assumption. reflexivity.
    - change (files_total (RegularFile bytes)) with bytes in Hz. subst bytes.
      cbn [isDirectory isFile stat]. unfold try_stmt, add_await, await, bind, ret, observe.
      cbn [stats_size fst snd]. change (of_N 0) with (Fin 0).
      rewrite add_zero by assumption. reflexivity.
    - reflexivity.
    - reflexivity. }
  assert (H : observe (for_of body (pre ++ (name, item) :: post) (Fin 0))
              = observe (for_of body (pre ++ post) (Fin 0))).
  { rewrite !for_of_app_observe, !seq_observe. rewrite Hl1. unfold observe at 1 3.
    cbn [fst snd].
    change (for_of body ((name, item) :: post))
      with (seq (body (name, item)) (for_of body post)).
    rewrite seq_observe, Hitem. reflexivity. }
  apply (f_equal fst) in H. exact H.
Qed.

(** The theorem on a subdirectory holding a link and a missing directory. *)
Lemma getDirectorySize_empty_entry_witness :
  outcome (getDirectorySize posix_join "/data"
             (Directory ([("a", RegularFile 7)]
                         ++ ("cache", Directory [("link", Special); ("lost", Unlistable ENOENT)])
                         :: [("b", RegularFile 100)])))
  = outcome (getDirectorySize posix_join "/data"
               (Directory ([("a", RegularFile 7)] ++ [("b", RegularFile 100)]))).
Proof.
  apply (getDirectorySize_empty_entry posix_join "/data" [("a", RegularFile 7)] "cache"
           (Directory [("link", Special); ("lost", Unlistable ENOENT)])
           [("b", RegularFile 100)]).
  reflexivity.
Defined.

(* --------------------------------------------------------------------- *)
(** *** getAvailableDiskSpace: large counters *)
(* --------------------------------------------------------------------- *)

Local Close Scope string_scope.

(** *** The relative error of one rounding *)

Lemma round_pos_relative q :
  pow2 (-1022) <= q -> q < pow2 1023 ->
  exists r, round_pos q = Fin r
            /\ q * (1 - pow2 (-53)) <= r /\ r <= q * (1 + pow2 (-53)).
Proof.
  intros Hlo Hhi. assert (Hq : 0 < q) by (pose proof (pow2_pos (-1022)); lra).
  unfold round_pos.
  assert (Hl : (-1022 <= ilog2 q)%Z).
  { assert (-1022 < ilog2 q + 1)%Z; [|lia]. apply pow2_lt_inv.
    pose proof (ilog2_upper q Hq). lra. }
  replace (Z.max (ilog2 q - 52) (-1074)) with (ilog2 q - 52)%Z by lia.
  set (E := (ilog2 q - 52)%Z).
  pose proof (pow2_pos E) as Hp.
  destruct (rne_half (q / pow2 E)) as [Hrl Hrh].
  assert (Hy : q == (q / pow2 E) * pow2 E) by (field; apply pow2_neq0).
  assert (Hh : pow2 E * (1 # 2) <= q * pow2 (-53)).
  { rewrite <- pow2_pred. replace (E - 1)%Z with (ilog2 q + -53)%Z by (unfold E; lia).
    rewrite pow2_add. pose proof (ilog2_lower q Hq) as Hil.
    apply Qmult_le_compat_r; [assumption|discriminate]. }
  assert (He : pow2 (-53) == 1 # 9007199254740992) by reflexivity.
  assert (H1024 : pow2 1023 * (1 + pow2 (-53)) < pow2 1024) by reflexivity.
  set (v := inject_Z (rne (q / pow2 E)) * pow2 E).
  assert (Hv : q * (1 - pow2 (-53)) <= v /\ v <= q * (1 + pow2 (-53))).
  { unfold v. revert Hrl Hrh Hy Hh Hp.
    generalize (inject_Z (rne (q / pow2 E))) (q / pow2 E) (pow2 E) (pow2 (-53)).
    intros m y p d. intros. split; nra. }
  assert (Hb : Qle_bool (pow2 1024) v = false).
  { apply not_true_is_false. intros H. apply Qle_bool_iff in H.
    destruct Hv as [_ Hv]. rewrite He in Hv, H1024.
    revert H Hv Hhi H1024 Hq. generalize (pow2 1024) (pow2 1023). intros. nra. }
  rewrite Hb. exists (Qred v). split; [reflexivity|]. rewrite Qred_correct. exact Hv.
Qed.

Lemma round64_relative q :
  q == 0 \/ pow2 (-1022) <= q -> q < pow2 1023 ->
  exists r, round64 q = Fin r /\ 0 <= r /\ binary64 r
            /\ q * (1 - pow2 (-53)) <= r /\ r <= q * (1 + pow2 (-53)).
Proof.
  intros Hq Hhi.
  assert (H0 : 0 <= q) by (destruct Hq as [Hq|Hq]; [|pose proof (pow2_pos (-1022))]; lra).
  assert (Hex : exists r, round64 q = Fin r
                          /\ q * (1 - pow2 (-53)) <= r /\ r <= q * (1 + pow2 (-53))).
  { unfold round64. destruct (Qcompare q 0) eqn:Hc.
    - apply Qeq_alt in Hc. exists 0. split; [reflexivity|]. rewrite Hc. split; lra.
    - rewrite <- Qlt_alt in Hc. lra.
    - rewrite <- Qgt_alt in Hc. apply round_pos_relative; [|assumption].
      destruct Hq as [Hq|Hq]; [lra|assumption]. }
  destruct Hex as (r & Hr & Hlo & Hup). exists r. split; [assumption|].
  destruct (round64_nonnegative q H0) as [Hinf|(r' & Hf & Hr0 & Hb & _)]; [congruence|].
  assert (r' = r) by congruence. subst r'. repeat split; assumption.
Qed.

Lemma of_N_relative a :
  (a < 2 ^ 64)%N ->
  exists r, of_N a = Fin r /\ 0 <= r /\ binary64 r
            /\ inject_Z (Z.of_N a) * (1 - pow2 (-53)) <= r
            /\ r <= inject_Z (Z.of_N a) * (1 + pow2 (-53))
            /\ (a = 0%N \/ 1 <= inject_Z (Z.of_N a)).
Proof.
  intros Ha. unfold of_N, of_Z.
  assert (Hcase : a = 0%N \/ 1 <= inject_Z (Z.of_N a)).
  { destruct (N.eq_dec a 0) as [->|Hne]; [left; reflexivity|right].
    change 1 with (inject_Z 1). rewrite <- Zle_Qle. lia. }
  destruct (round64_relative (inject_Z (Z.of_N a))) as (r & Hr & H0 & Hb & Hlo & Hhi).
  - destruct Hcase as [->|H1]; [left; reflexivity|right].
    apply Qle_trans with 1; [discriminate|assumption].
  - apply Qlt_trans with (inject_Z (2 ^ 64)); [|reflexivity].
    rewrite <- Zlt_Qlt. change (2 ^ 64)%Z with (Z.of_N (2 ^ 64)). lia.
  - exists r. repeat split; assumption.
Qed.

Local Open Scope string_scope.

(** X13.  When [statfs] answers with counters below 2^64,
    [getAvailableDiskSpace] logs nothing and returns a finite Number within
    a relative distance 2^-51 of the exact product [bavail * bsize]. *)
Theorem getAvailableDiskSpace_accuracy :
  forall (statfs : string -> error + statfs_t) (path : string) (s : statfs_t),
    statfs path = inr s ->
    (f_bavail s < 2 ^ 64)%N -> (f_bsize s < 2 ^ 64)%N ->
    exists r : Q,
      getAvailableDiskSpace statfs path = ([], Normal (Some (Fin r)))
      /\ inject_Z (Z.of_N (f_bavail s * f_bsize s)) * (1 - pow2 (-51)) <= r
      /\ r <= inject_Z (Z.of_N (f_bavail s * f_bsize s)) * (1 + pow2 (-51)).
Proof.
  intros statfs path s Hs Ha Hb. unfold getAvailableDiskSpace. rewrite Hs.
  cbn [await ret bind try_catch toStatFs bavail bsize app].
  destruct (of_N_relative _ Ha) as (ra & Hra & Hra0 & _ & Hral & Hrah & Hca).
  destruct (of_N_relative _ Hb) as (rb & Hrb & Hrb0 & _ & Hrbl & Hrbh & Hcb).
  rewrite Hra, Hrb. cbn [mul].
  rewrite N2Z.inj_mul, inject_Z_mult.
  assert (HA : 0 <= inject_Z (Z.of_N (f_bavail s))) by (apply inject_Z_nonneg; lia).
  assert (HB : 0 <= inject_Z (Z.of_N (f_bsize s))) by (apply inject_Z_nonneg; lia).
  assert (HA64 : inject_Z (Z.of_N (f_bavail s)) <= inject_Z (2 ^ 64)).
  { rewrite <- Zle_Qle. change (2 ^ 64)%Z with (Z.of_N (2 ^ 64)). lia. }
  assert (HB64 : inject_Z (Z.of_N (f_bsize s)) <= inject_Z (2 ^ 64)).
  { rewrite <- Zle_Qle. change (2 ^ 64)%Z with (Z.of_N (2 ^ 64)). lia. }
  assert (Hca' : inject_Z (Z.of_N (f_bavail s)) == 0 \/ 1 <= inject_Z (Z.of_N (f_bavail s))).
  { destruct Hca as [->|H]; [left; reflexivity|right; assumption]. }
  assert (Hcb' : inject_Z (Z.of_N (f_bsize s)) == 0 \/ 1 <= inject_Z (Z.of_N (f_bsize s))).
  { destruct Hcb as [->|H]; [left; reflexivity|right; assumption]. }
  clear Hca Hcb Hra Hrb.
  assert (He : pow2 (-53) == 1 # 9007199254740992) by reflexivity.
  assert (Hd : pow2 (-51) == 4 # 9007199254740992) by reflexivity.
  rewrite He in Hral, Hrah, Hrbl, Hrbh.
  change (inject_Z (2 ^ 64)) with 18446744073709551616 in HA64, HB64.
  revert HA HB HA64 HB64 Hca' Hcb' Hral Hrah Hrbl Hrbh.
  generalize (inject_Z (Z.of_N (f_bavail s))) (inject_Z (Z.of_N (f_bsize s))).
  intros A B. intros.
  assert (Hup : ra * rb <= (A * (1 + (1 # 9007199254740992)))
                           * (B * (1 + (1 # 9007199254740992)))).
  { apply Qmul_le_mono; assumption. }
  assert (Hdn : (A * (1 - (1 # 9007199254740992))) * (B * (1 - (1 # 9007199254740992)))
                <= ra * rb).
  { apply Qmul_le_mono; try assumption; nra. }
  destruct (round64_relative (ra * rb)) as (r & Hr & Hr0 & _ & Hrl & Hrh).
  - destruct Hca' as [HzA|H1A].
    + left. assert (ra == 0) by lra. rewrite H. ring.
    + destruct Hcb' as [HzB|H1B].
      * left. assert (rb == 0) by lra. rewrite H. ring.
      * right. apply Qle_trans with ((1 # 2) * (1 # 2)); [discriminate|].
        apply Qmul_le_mono; lra.
  - apply Qle_lt_trans with ((18446744073709551616 * 2) * (18446744073709551616 * 2));
      [|reflexivity].
    apply Qmul_le_mono; try assumption; lra.
  - rewrite Hr. exists r. split; [reflexivity|]. rewrite Hd. rewrite He in Hrl, Hrh.
    assert (HP : 0 <= A * B) by nra.
    assert (HX : 0 <= ra * rb) by nra.
    revert HP HX Hup Hdn Hrl Hrh. generalize (ra * rb).
    intros X. intros.
    assert (Hup' : X <= A * B * ((1 + (1 # 9007199254740992)) * (1 + (1 # 9007199254740992))))
      by (eapply Qle_trans; [exact Hup|apply Qle_lteq; right; ring]).
    assert (Hdn' : A * B * ((1 - (1 # 9007199254740992)) * (1 - (1 # 9007199254740992))) <= X)
      by (eapply Qle_trans; [|exact Hdn]; apply Qle_lteq; right; ring).
    revert HP Hup' Hdn' HX Hrl Hrh. generalize (A * B). intros P. intros. split.
    + apply Qle_trans with (X * (1 - (1 # 9007199254740992))); [|assumption].
      apply Qle_trans with (P * ((1 - (1 # 9007199254740992)) * (1 - (1 # 9007199254740992)))
                            * (1 - (1 # 9007199254740992))).
      * clear - HP. lra.
      * apply Qmult_le_compat_r; [assumption|discriminate].
    + apply Qle_trans with (X * (1 + (1 # 9007199254740992))); [assumption|].
      apply Qle_trans with (P * ((1 + (1 # 9007199254740992)) * (1 + (1 # 9007199254740992)))
                            * (1 + (1 # 9007199254740992))).
      * apply Qmult_le_compat_r; [assumption|discriminate].
      * clear - HP. lra.
Qed.

(** The theorem on [2^60 + 1] free blocks of 4096 bytes. *)
Lemma getAvailableDiskSpace_accuracy_witness :
  exists r : Q,
    getAvailableDiskSpace
      (fun _ => inr {| f_bavail := 2 ^ 60 + 1; f_bsize := 4096 |}) "/data"
    = ([], Normal (Some (Fin r)))
    /\ inject_Z (Z.of_N ((2 ^ 60 + 1) * 4096)) * (1 - pow2 (-51)) <= r
    /\ r <= inject_Z (Z.of_N ((2 ^ 60 + 1) * 4096)) * (1 + pow2 (-51)).
Proof.
  apply (getAvailableDiskSpace_accuracy
           (fun _ => inr {| f_bavail := 2 ^ 60 + 1; f_bsize := 4096 |}) "/data"
           {| f_bavail := 2 ^ 60 + 1; f_bsize := 4096 |});
    reflexivity.
Defined.

(* --------------------------------------------------------------------- *)
(** *** debounce: what is delivered *)
(* --------------------------------------------------------------------- *)

Local Close Scope string_scope.
Local Close Scope Q_scope.
Local Open Scope Z_scope.

Section DebounceFurtherProofs.

Context {Args : Type}.

Lemma expected_last d : forall before (c : invocation Args),
  exists pre, expected d (before ++ [c]) = pre ++ [(at_time c + d, passed c)].
Proof.
  induction before as [|c0 before IH]; intros c.
  - exists []. reflexivity.
  - destruct (IH c) as [pre Hpre].
    assert (Hnext : exists c1 r, before ++ [c] = c1 :: r).
    { destruct before as [|c1 r]; simpl; eauto. }
    destruct Hnext as (c1 & r & Hn).
    change ((c0 :: before) ++ [c]) with (c0 :: (before ++ [c])).
    rewrite Hn, expected_cons, <- Hn, Hpre.
    destruct (superseded d (at_time c0) c1); [exists pre; reflexivity|].
    exists ((at_time c0 + d, passed c0) :: pre). reflexivity.
Qed.

Lemma expected_In d : forall (calls : list (invocation Args)) T a,
  In (T, a) (expected d calls) ->
  exists c, In c calls /\ at_time c = T - d /\ passed c = a.
Proof.
  induction calls as [|c0 calls IH]; intros T a Hin; [destruct Hin|].
  assert (Hhere : (at_time c0 + d, passed c0) = (T, a) ->
                  exists c, In c (c0 :: calls) /\ at_time c = T - d /\ passed c = a).
  { intros He. injection He as <- <-. exists c0. split; [left; reflexivity|].
    split; [lia|reflexivity]. }
  assert (Hthere : In (T, a) (expected d calls) ->
                   exists c, In c (c0 :: calls) /\ at_time c = T - d /\ passed c = a).
  { intros H. destruct (IH T a H) as (c & Hc & Hr). exists c. split; [right; exact Hc|exact Hr]. }
  destruct calls as [|c1 rest].
  - cbn [expected In] in Hin. destruct Hin as [Hin|[]]. apply Hhere, Hin.
  - rewrite expected_cons in Hin. destruct (superseded d (at_time c0) c1).
    + apply Hthere, Hin.
    + destruct Hin as [Hin|Hin]; [apply Hhere, Hin|apply Hthere, Hin].
Qed.

Lemma expected_length d : forall calls : list (invocation Args),
  (List.length (expected d calls) <= List.length calls)%nat.
Proof.
  induction calls as [|c0 calls IH]; [reflexivity|].
  destruct calls as [|c1 rest]; [reflexivity|].
  rewrite expected_cons. destruct (superseded d (at_time c0) c1);
    cbn [List.length] in *; lia.
Qed.

Lemma not_superseded d t (c : invocation Args) :
  superseded d t c = false -> t + d <= at_time c.
Proof.
  unfold superseded. intros H. apply orb_false_iff in H. destruct H as [H _].
  apply Z.ltb_ge in H. exact H.
Qed.

Lemma expected_spaced d : 0 <= d ->
  forall (calls : list (invocation Args)) c,
    ascending (at_time c) calls ->
    spaced d (map fst (expected d (c :: calls)))
    /\ match expected d (c :: calls) with
       | (T, _) :: _ => at_time c + d <= T
       | [] => True
       end.
Proof.
  intros Hd. induction calls as [|c' rest IH]; intros c Hasc.
  - cbn [expected map spaced]. split; [exact I|lia].
  - destruct Hasc as [Ht Hrest]. destruct (IH c' Hrest) as [Hs Hh].
    rewrite expected_cons. destruct (superseded d (at_time c) c') eqn:Hsup.
    + split; [assumption|].
      destruct (expected d (c' :: rest)) as [|[T b] r]; [exact I|]. lia.
    + apply not_superseded in Hsup.
      destruct (expected d (c' :: rest)) as [|[T b] r].
      * cbn [map spaced]. split; [exact I|lia].
      * split; [|lia]. cbn [map fst spaced] in *. split; [lia|]. exact Hs.
Qed.

Lemma expected_of_spaced d : forall calls : list (invocation Args),
  spaced (d + 1) (map at_time calls) -> expected d calls = map (shifted d) calls.
Proof.
  induction calls as [|c0 calls IH]; intros Hs; [reflexivity|].
  destruct calls as [|c1 rest]; [reflexivity|].
  cbn [map spaced] in Hs. destruct Hs as [Hgap Hs]. rewrite expected_cons.
  assert (Hno : superseded d (at_time c0) c1 = false).
  { unfold superseded.
    replace (at_time c1 <? at_time c0 + d) with false by (symmetry; apply Z.ltb_ge; lia).
    replace (at_time c1 =? at_time c0 + d) with false by (symmetry; apply Z.eqb_neq; lia).
    reflexivity. }
  rewrite Hno, (IH Hs). reflexivity.
Qed.

End DebounceFurtherProofs.

(** X14.  For [wait] from 1 to 2^31 - 1, the last call of the wrapper is
    always delivered, [wait] after it was made, and it is the last
    delivery. *)
Theorem debounce_last_call_delivered :
  forall (Args : Type) (wait : Z) (before : list (invocation Args))
         (c : invocation Args),
    1 <= wait <= TIMEOUT_MAX -> ascending 0 (before ++ [c]) ->
    exists earlier,
      debounce_trace wait (before ++ [c]) = earlier ++ [(at_time c + wait, passed c)].
Proof.
  intros Args wait before c Hw Hasc.
  rewrite (debounce_trace_expected wait _ Hasc), (timer_delay_in_range wait Hw).
  apply expected_last.
Qed.

(** The theorem on calls at 0, 60 and 100 with [wait = 50]. *)
Lemma debounce_last_call_delivered_witness :
  exists earlier,
    debounce_trace 50
      ([ {| at_time := 0; after_due := true; passed := 1%nat |};
         {| at_time := 60; after_due := true; passed := 2%nat |} ]
       ++ [ {| at_time := 100; after_due := false; passed := 3%nat |} ])
    = earlier
      ++ [(at_time {| at_time := 100; after_due := false; passed := 3%nat |} + 50,
           passed {| at_time := 100; after_due := false; passed := 3%nat |})].
Proof.
  apply (debounce_last_call_delivered nat 50
           [ {| at_time := 0; after_due := true; passed := 1%nat |};
             {| at_time := 60; after_due := true; passed := 2%nat |} ]
           {| at_time := 100; after_due := false; passed := 3%nat |}).
  - unfold TIMEOUT_MAX. lia.
  - simpl. lia.
Defined.

(** X15.  For [wait] from 1 to 2^31 - 1, every delivery carries the
    arguments of a call made [wait] before it; two deliveries in a row are
    at least [wait] apart; there are no more deliveries than calls. *)
Theorem debounce_deliveries_spaced :
  forall (Args : Type) (wait : Z) (calls : list (invocation Args)),
    1 <= wait <= TIMEOUT_MAX -> ascending 0 calls ->
    spaced wait (map fst (debounce_trace wait calls))
    /\ (forall T a,
          In (T, a) (debounce_trace wait calls) ->
          exists c, In c calls /\ at_time c = T - wait /\ passed c = a)
    /\ (List.length (debounce_trace wait calls) <= List.length calls)%nat.
Proof.
  intros Args wait calls Hw Hasc.
  rewrite (debounce_trace_expected wait _ Hasc), (timer_delay_in_range wait Hw).
  split; [|split].
  - destruct calls as [|c0 rest]; [exact I|].
    destruct Hasc as [_ Hrest]. apply (expected_spaced wait ltac:(lia) rest c0 Hrest).
  - apply expected_In.
  - apply expected_length.
Qed.

(** The theorem on calls at 0, 10, 60 and 200 with [wait = 50], the third
    at the instant the timer of the second is due, and before it. *)
Lemma debounce_deliveries_spaced_witness :
  spaced 50
    (map fst
       (debounce_trace 50
          [ {| at_time := 0; after_due := true; passed := 1%nat |};
            {| at_time := 10; after_due := true; passed := 2%nat |};
            {| at_time := 60; after_due := false; passed := 3%nat |};
            {| at_time := 200; after_due := true; passed := 4%nat |} ]))
  /\ (forall T a,
        In (T, a)
          (debounce_trace 50
             [ {| at_time := 0; after_due := true; passed := 1%nat |};
               {| at_time := 10; after_due := true; passed := 2%nat |};
               {| at_time := 60; after_due := false; passed := 3%nat |};
               {| at_time := 200; after_due := true; passed := 4%nat |} ]) ->
        exists c,
          In c [ {| at_time := 0; after_due := true; passed := 1%nat |};
                 {| at_time := 10; after_due := true; passed := 2%nat |};
                 {| at_time := 60; after_due := false; passed := 3%nat |};
                 {| at_time := 200; after_due := true; passed := 4%nat |} ]
          /\ at_time c = T - 50 /\ passed c = a)
  /\ Nat.le
       (List.length
          (debounce_trace 50
             [ {| at_time := 0; after_due := true; passed := 1%nat |};
               {| at_time := 10; after_due := true; passed := 2%nat |};
               {| at_time := 60; after_due := false; passed := 3%nat |};
               {| at_time := 200; after_due := true; passed := 4%nat |} ]))
       (List.length
          [ {| at_time := 0; after_due := true; passed := 1%nat |};
            {| at_time := 10; after_due := true; passed := 2%nat |};
            {| at_time := 60; after_due := false; passed := 3%nat |};
            {| at_time := 200; after_due := true; passed := 4%nat |} ]).
Proof.
  apply (debounce_deliveries_spaced nat 50
           [ {| at_time := 0; after_due := true; passed := 1%nat |};
             {| at_time := 10; after_due := true; passed := 2%nat |};
             {| at_time := 60; after_due := false; passed := 3%nat |};
             {| at_time := 200; after_due := true; passed := 4%nat |} ]).
  - unfold TIMEOUT_MAX. lia.
  - simpl. lia.
Defined.

(** X16.  For [wait] from 1 to 2^31 - 1, calls that are more than [wait]
    apart are all delivered, each [wait] after it was made. *)
Theorem debounce_spaced_calls_all_delivered :
  forall (Args : Type) (wait : Z) (calls : list (invocation Args)),
    1 <= wait <= TIMEOUT_MAX -> ascending 0 calls ->
    spaced (wait + 1) (map at_time calls) ->
    debounce_trace wait calls = map (shifted wait) calls.
Proof.
  intros Args wait calls Hw Hasc Hs.
  rewrite (debounce_trace_expected wait _ Hasc), (timer_delay_in_range wait Hw).
  apply expected_of_spaced. exact Hs.
Qed.

(** The theorem on calls at 0, 51 and 175 with [wait = 50]. *)
Lemma debounce_spaced_calls_all_delivered_witness :
  debounce_trace 50
    [ {| at_time := 0; after_due := false; passed := 1%nat |};
      {| at_time := 51; after_due := false; passed := 2%nat |};
      {| at_time := 175; after_due := false; passed := 3%nat |} ]
  = map (shifted 50)
      [ {| at_time := 0; after_due := false; passed := 1%nat |};
        {| at_time := 51; after_due := false; passed := 2%nat |};
        {| at_time := 175; after_due := false; passed := 3%nat |} ].
Proof.
  apply (debounce_spaced_calls_all_delivered nat 50
           [ {| at_time := 0; after_due := false; passed := 1%nat |};
             {| at_time := 51; after_due := false; passed := 2%nat |};
             {| at_time := 175; after_due := false; passed := 3%nat |} ]).
  - unfold TIMEOUT_MAX. lia.
  - simpl. lia.
  - simpl. lia.
Defined.

(** X17.  A call of one wrapper clears the timer of that wrapper only:
    the timers that other callers of [setTimeout] hold stay pending. *)
Theorem debounce_call_keeps_other_timers :
  forall (Args : Type) (wait : Z) (a : Args) (w : debounced)
         (el : event_loop Args) (h : nat),
    (h < next_handle el)%nat ->
    timeout w <> Some h ->
    timers_of h (snd (call wait a (w, el))) = timers_of h el.
Proof.
  intros Args wait a w el h Hh Hw. unfold call, timers_of, setTimeout.
  assert (Hcl : filter (fun t : timer Args => Nat.eqb (handle t) h)
                  (pending match timeout w with
                           | Some h0 => clearTimeout h0 el
                           | None => el
                           end)
                = filter (fun t => Nat.eqb (handle t) h) (pending el)
                /\ next_handle match timeout w with
                               | Some h0 => clearTimeout h0 el
                               | None => el
                               end = next_handle el).
  { destruct (timeout w) as [h0|]; [|split; reflexivity].
    split; [|reflexivity]. unfold clearTimeout. cbn [pending].
    assert (Hne : h0 <> h) by congruence. clear - Hne.
    induction (pending el) as [|t l IH]; [reflexivity|]. cbn [filter].
    destruct (Nat.eqb_spec (handle t) h0) as [He0|Hn0]; cbn [negb filter].
    - destruct (Nat.eqb_spec (handle t) h) as [He|Hn]; [congruence|exact IH].
    - destruct (Nat.eqb (handle t) h); [f_equal|]; exact IH. }
  destruct Hcl as [Hp Hn]. cbn [snd pending]. rewrite filter_app, Hp, Hn.
  cbn [filter handle]. destruct (Nat.eqb_spec (next_handle el) h) as [He|_]; [lia|].
  apply app_nil_r.
Qed.

(** The theorem on a loop with the timers 1 and 2, the wrapper holding 2. *)
Lemma debounce_call_keeps_other_timers_witness :
  timers_of 1 (snd (call 50 7%nat
                      ({| timeout := Some 2%nat |},
                       {| now := 5;
                          pending := [ {| handle := 1; due := 30; timer_args := 3%nat |};
                                       {| handle := 2; due := 40; timer_args := 4%nat |} ];
                          next_handle := 3;
                          delivered := [] |})))
  = timers_of 1 {| now := 5;
                   pending := [ {| handle := 1; due := 30; timer_args := 3%nat |};
                                {| handle := 2; due := 40; timer_args := 4%nat |} ];
                   next_handle := 3;
                   delivered := [] |}.
Proof.
  apply (debounce_call_keeps_other_timers nat 50 7%nat {| timeout := Some 2%nat |}
           {| now := 5;
              pending := [ {| handle := 1; due := 30; timer_args := 3%nat |};
                           {| handle := 2; due := 40; timer_args := 4%nat |} ];
              next_handle := 3;
              delivered := [] |} 1%nat).
  - simpl. lia.
  - discriminate.
Defined.
